(** * VoiceLibre: the real-time audio orchestration core

    A shallow embedding of the voice loop of the VoiceLibre client:

    - [VAD]            src/components/chat/helpers/vad.ts
    - [Chunker]        src/components/chat/helpers/chunkTextForTTS.ts
    - [TTSPlayer]      src/components/chat/hooks/useTTSPlayer.ts
    - [Transcribe]     sendAudioToAPI of src/components/bottomBar/hooks/useHandsfree.ts
    - [Handsfree]      the flag machine of src/components/bottomBar/hooks/useHandsfree.ts

    Browser callbacks (animation frames, timeouts, promise reactions, media
    events) are events of a step function; the callbacks the code hands to
    its caller are outputs collected in a trace. *)

From Stdlib Require Import ZArith NArith List Bool Lia String Ascii.
From Stdlib Require Import PrimFloat FloatOps SpecFloat Uint63.
From stdpp Require Import base option list gmap strings.
Import ListNotations.

Local Open Scope Z_scope.

(* Decimal literals such as 0.001 denote the nearest binary64 value, as in
   JavaScript. *)
Set Warnings "-inexact-float".

(* ===================================================================== *)
(** * Voice activity detector (vad.ts) *)
(* ===================================================================== *)

Module VAD.

(** The two callbacks handed to [startVAD]. *)
Inductive callback := OnStart | OnStop.

(** Handles returned by [setTimeout] and [requestAnimationFrame]: positive
    integers, hence always truthy in [if (silenceTimer)]. *)
Definition handle := positive.

(** The closure variables of [startVAD] (lines 22-30) together with what
    the browser holds on its behalf: the timeouts that are set and have
    neither fired nor been cleared, and the animation frame that is
    requested and has neither run nor been cancelled. *)
Record state := mkState {
  isSpeaking    : bool;
  silenceTimer  : option handle;
  stopped       : bool;
  rafId         : option handle;
  initPending   : bool;           (* [void init()] has not settled yet *)
  pendingTimers : list handle;    (* browser side *)
  pendingFrame  : option handle;  (* browser side *)
  nextHandle    : handle          (* browser side: next fresh handle *)
}.

(** State right after [startVAD] returns: [init] is still awaiting
    [getUserMedia]. *)
Definition initial : state :=
  {| isSpeaking := false; silenceTimer := None; stopped := false;
     rafId := None; initPending := true; pendingTimers := [];
     pendingFrame := None; nextHandle := 1%positive |}.

Definition clearTimeout (h : handle) (s : state) : state :=
  mkState s.(isSpeaking) s.(silenceTimer) s.(stopped) s.(rafId)
          s.(initPending)
          (List.filter (fun h' => negb (Pos.eqb h' h)) s.(pendingTimers))
          s.(pendingFrame) s.(nextHandle).

Definition cancelAnimationFrame (h : handle) (s : state) : state :=
  mkState s.(isSpeaking) s.(silenceTimer) s.(stopped) s.(rafId)
          s.(initPending) s.(pendingTimers)
          (match s.(pendingFrame) with
           | Some h' => if Pos.eqb h' h then None else Some h'
           | None => None
           end)
          s.(nextHandle).

(** [rafId = requestAnimationFrame(loop)] *)
Definition requestAnimationFrame (s : state) : state :=
  let h := s.(nextHandle) in
  mkState s.(isSpeaking) s.(silenceTimer) s.(stopped) (Some h)
          s.(initPending) s.(pendingTimers) (Some h) (Pos.succ h).

(** [silenceTimer = window.setTimeout(..., silenceDuration)] *)
Definition setSilenceTimer (s : state) : state :=
  let h := s.(nextHandle) in
  mkState s.(isSpeaking) (Some h) s.(stopped) s.(rafId)
          s.(initPending) (s.(pendingTimers) ++ [h]) s.(pendingFrame)
          (Pos.succ h).

Definition set_isSpeaking (b : bool) (s : state) : state :=
  mkState b s.(silenceTimer) s.(stopped) s.(rafId) s.(initPending)
          s.(pendingTimers) s.(pendingFrame) s.(nextHandle).

Definition set_stopped (s : state) : state :=
  mkState s.(isSpeaking) s.(silenceTimer) true s.(rafId) s.(initPending)
          s.(pendingTimers) s.(pendingFrame) s.(nextHandle).

(** [stop] (lines 32-42).  Closing the audio context and stopping the
    tracks touch no variable of the detector and are left out. *)
Definition stop (s : state) : state :=
  let s1 := set_stopped s in
  let s2 := match s1.(rafId) with
            | Some h => cancelAnimationFrame h s1
            | None => s1
            end in
  match s2.(silenceTimer) with
  | Some h => clearTimeout h s2
  | None => s2
  end.

(** Sum of squared deviations from the midpoint 128 (the [reduce] of
    lines 47-50). *)
Definition sumSquares (samples : list Z) : Z :=
  fold_left (fun sum val => sum + (val - 128) * (val - 128)) samples 0.

(** [rms > volumeThreshold] with [rms = sqrt(sumSquares / length)], read
    in exact arithmetic: for a threshold [t >= 0] the test is
    [sumSquares > t*t*length]; a negative threshold is below every root;
    the empty frame gives NaN, which compares false. *)
Definition isLoud (volumeThreshold : Z) (samples : list Z) : bool :=
  let n := Z.of_nat (length samples) in
  if n =? 0 then false
  else if volumeThreshold <? 0 then true
  else volumeThreshold * volumeThreshold * n <? sumSquares samples.

(** What the browser, the microphone and the caller can do to a running
    detector.  [reenter] tells whether the callback fired by this step,
    if any, calls the returned stop function before it returns. *)
Inductive event :=
| InitSettled (ok : bool)                       (* getUserMedia resolves or rejects *)
| Frame (samples : list Z) (reenter : bool)     (* the requested animation frame runs [loop] *)
| Timeout (h : handle) (reenter : bool)         (* the browser fires timeout [h] *)
| Stop.                                         (* the caller invokes the stop function *)

Section Detector.

Variable volumeThreshold : Z.

(** Invoking a callback: it is recorded, and it may re-enter [stop]. *)
Definition fire (reenter : bool) (s : state) : state :=
    if reenter then stop s else s.

(** [loop] (lines 44-68), run on a frame whose request is consumed. *)
Definition loop (samples : list Z) (reenter : bool) (s : state)
    : state * list callback :=
    if s.(stopped) then (s, [])
    else
      let '(s1, out) :=
        if isLoud volumeThreshold samples then
          let '(sa, out) :=
            if negb s.(isSpeaking)
            then (fire reenter (set_isSpeaking true s), [OnStart])
            else (s, []) in
          let sb := match sa.(silenceTimer) with
                    | Some h => clearTimeout h sa
                    | None => sa
                    end in
          (setSilenceTimer sb, out)
        else (s, []) in
      (requestAnimationFrame s1, out).

(** The timeout callback (lines 60-65). *)
Definition onSilence (reenter : bool) (s : state) : state * list callback :=
    if s.(isSpeaking) && negb s.(stopped)
    then (fire reenter (set_isSpeaking false s), [OnStop])
    else (s, []).

(** [init] after [getUserMedia] settles (lines 70-90). *)
Definition initSettled (ok : bool) (s : state) : state :=
    let s1 := mkState s.(isSpeaking) s.(silenceTimer) s.(stopped) s.(rafId)
                      false s.(pendingTimers) s.(pendingFrame)
                      s.(nextHandle) in
    if ok then requestAnimationFrame s1 else s1.

(** One event.  An event the browser cannot deliver in [s] (no frame
      requested, timeout not pending, init already settled) leaves the
      state as it is. *)
Definition step (s : state) (e : event) : state * list callback :=
    match e with
    | InitSettled ok =>
        if s.(initPending) then (initSettled ok s, []) else (s, [])
    | Frame samples reenter =>
        match s.(pendingFrame) with
        | Some _ =>
            loop samples reenter
                 (mkState s.(isSpeaking) s.(silenceTimer) s.(stopped)
                          s.(rafId) s.(initPending) s.(pendingTimers)
                          None s.(nextHandle))
        | None => (s, [])
        end
    | Timeout h reenter =>
        if existsb (Pos.eqb h) s.(pendingTimers)
        then onSilence reenter (clearTimeout h s)
        else (s, [])
    | Stop => (stop s, [])
    end.

(** A run: the final state and the callbacks fired, oldest first. *)
Fixpoint run (s : state) (es : list event) : state * list callback :=
    match es with
    | [] => (s, [])
    | e :: es' =>
        let '(s1, out1) := step s e in
        let '(s2, out2) := run s1 es' in
        (s2, out1 ++ out2)
    end.

Definition callbacks (es : list event) : list callback :=
    snd (run initial es).

(** The event invokes the stop function: the caller does, or a callback
      the event fires re-enters it before it returns. *)
Definition invokesStop (s : state) (e : event) : bool :=
    match e with
    | Stop => true
    | Frame _ reenter | Timeout _ reenter =>
        reenter && match snd (step s e) with [] => false | _ :: _ => true end
    | InitSettled _ => false
    end.

End Detector.

(** [alternates expectStart t]: the callbacks of [t] alternate, the first
    one being [OnStart] when [expectStart] and [OnStop] otherwise. *)
Fixpoint alternates (expectStart : bool) (t : list callback) : bool :=
  match t with
  | [] => true
  | OnStart :: t' => expectStart && alternates false t'
  | OnStop :: t' => negb expectStart && alternates true t'
  end.

Definition callback_eqb (c c' : callback) : bool :=
  match c, c' with
  | OnStart, OnStart | OnStop, OnStop => true
  | _, _ => false
  end.

Definition count (c : callback) (t : list callback) : nat :=
  length (List.filter (callback_eqb c) t).

End VAD.

(* ===================================================================== *)
(** * JavaScript strings *)
(* ===================================================================== *)

Module JsString.

(** A JavaScript string is a sequence of UTF-16 code units; [length],
    [slice], [split] and the regular expressions of the sources (none has
    the [u] flag) all count and match code units. *)
Definition jsstring := list N.

(** Code units of an ASCII literal of the sources. *)
Definition lit (s : string) : jsstring :=
  map N_of_ascii (list_ascii_of_string s).

Definition eqb (a b : jsstring) : bool :=
  bool_decide (a = b).

(** WhiteSpace and LineTerminator of ECMAScript: what [\s] matches and what
    [trim] strips. *)
Definition isWhiteSpace (c : N) : bool :=
  ((9 <=? c) && (c <=? 13) || (c =? 32) || (c =? 160) || (c =? 5760)
   || (8192 <=? c) && (c <=? 8202) || (c =? 8232) || (c =? 8233)
   || (c =? 8239) || (c =? 8287) || (c =? 12288) || (c =? 65279))%N.

Fixpoint trimStart (s : jsstring) : jsstring :=
  match s with
  | c :: s' => if isWhiteSpace c then trimStart s' else s
  | [] => []
  end.

Definition trimEnd (s : jsstring) : jsstring := rev (trimStart (rev s)).

Definition trim (s : jsstring) : jsstring := trimEnd (trimStart s).

(** [s.slice(n)] for [0 <= n]. *)
Definition sliceFrom (n : nat) (s : jsstring) : jsstring := skipn n s.

Fixpoint startsWith (p s : jsstring) : bool :=
  match p, s with
  | [], _ => true
  | a :: p', b :: s' => (a =? b)%N && startsWith p' s'
  | _ :: _, [] => false
  end.

(** [s.split("\n")]: the pieces between line feeds, empty pieces kept. *)
Fixpoint splitOn (sep : N) (cur : jsstring) (s : jsstring) : list jsstring :=
  match s with
  | [] => [rev cur]
  | c :: s' =>
      if (c =? sep)%N then rev cur :: splitOn sep [] s'
      else splitOn sep (c :: cur) s'
  end.

Definition concat (a b : jsstring) : jsstring := a ++ b.

(** Truthiness of a string: non-empty. *)
Definition truthy (s : jsstring) : bool :=
  match s with [] => false | _ :: _ => true end.

End JsString.

(* ===================================================================== *)
(** * Text chunker (chunkTextForTTS.ts) *)
(* ===================================================================== *)

Module Chunker.

Import JsString.

(** The class [[.!?]] of the look-behind. *)
Definition isSentenceEnd (c : N) : bool :=
  ((c =? 46) || (c =? 33) || (c =? 63))%N.

(** [text.split(/(?<=[.!?])\s+/)].  A match starts at a white-space code
    unit that follows a sentence end and takes the whole run of white space
    ([\s+] is greedy, and no match can start inside a run, where the
    preceding code unit is white space).  [skipping] is set while the run
    of a match is being consumed, [afterEnd] tells whether the preceding
    code unit is a sentence end, [cur] is the piece being read, reversed.
    A separator at the very end leaves a last empty piece, as in
    JavaScript. *)
Fixpoint splitSentencesFrom (skipping afterEnd : bool) (cur : jsstring)
  (s : jsstring) : list jsstring :=
  match s with
  | [] => [rev cur]
  | c :: s' =>
      if skipping then
        if isWhiteSpace c then splitSentencesFrom true false cur s'
        else splitSentencesFrom false (isSentenceEnd c) [c] s'
      else if isWhiteSpace c && afterEnd then
        rev cur :: splitSentencesFrom true false [] s'
      else splitSentencesFrom false (isSentenceEnd c) (c :: cur) s'
  end.

Definition splitSentences (text : jsstring) : list jsstring :=
  splitSentencesFrom false false [] text.

(** [[first, second].join(" ")] *)
Definition joinSpace (first second : jsstring) : jsstring :=
  first ++ lit " " ++ second.

(** [chunkTextForTTS] (lines 5-16): the intro chunk and the remainder, the
    latter absent ([undefined], or the one-element array) when empty. *)
Definition chunkTextForTTS (text : jsstring) : jsstring * option jsstring :=
  if (length text <=? 80)%nat then (text, None)
  else
    let sentences := List.filter truthy (splitSentences text) in
    let first := nth 0 sentences [] in
    let second := nth 1 sentences [] in
    let introChunk :=
      if (30 <=? length first)%nat then first
      else trim (joinSpace first second) in
    let remainder := trim (sliceFrom (length introChunk) text) in
    (introChunk, if truthy remainder then Some remainder else None).

(** The reconstruction of the round-trip property: intro, a joining space,
    remainder; the intro alone when there is no remainder. *)
Definition reconstruct (chunks : jsstring * option jsstring) : jsstring :=
  match chunks with
  | (intro, Some remainder) => intro ++ lit " " ++ remainder
  | (intro, None) => intro
  end.

(** The content of a text with every white-space code unit taken out: the
    coarsest reading of "equivalent modulo the joining space and
    trimming". *)
Definition content (s : jsstring) : jsstring :=
  List.filter (fun c => negb (isWhiteSpace c)) s.

(** A two-paragraph reply: a short opening sentence, a blank line, and a
    long second sentence. *)
Definition twoParagraphs : jsstring :=
  lit "Okay." ++ [10; 10]%N
  ++ lit "Let me explain how the playback queue works in this application, step by step.".

End Chunker.

(* ===================================================================== *)
(** * JavaScript numbers *)
(* ===================================================================== *)

Module JsNumber.

(** Numbers are binary64 floats. *)
Definition number := float.

(** Truthiness of a number: neither zero nor NaN. *)
Definition truthy (x : number) : bool :=
  (negb (x =? 0) && (x =? x))%float.

(** [Math.round]: the nearest integer, ties towards positive infinity, the
    sign of zero kept for arguments in [[-0.5, 0)]. *)
Definition round (x : number) : number :=
  match Prim2SF x with
  | S754_finite s m e =>
      if 0 <=? e then x
      else
        let d := 2 ^ (- e) in
        let n := (if s then - (2 * Z.pos m) + d else 2 * Z.pos m + d) / (2 * d) in
        if n =? 0 then (if s then (-0)%float else 0%float)
        else if n <? 0 then PrimFloat.opp (of_uint63 (Uint63.of_Z (- n)))
        else of_uint63 (Uint63.of_Z n)
  | _ => x
  end.

End JsNumber.

(* ===================================================================== *)
(** * TTS player (useTTSPlayer.ts) *)
(* ===================================================================== *)

Module TTSPlayer.

Import JsString.

(** ** Data *)

(** The payload of [AudioUsage]. *)
Record audioUsage := mkUsage {
  cost       : float;
  char_count : float;
  latency    : float
}.

(** [AudioUsage]: the payload or [null]. *)
Definition AudioUsage := option audioUsage.

(** A decoded buffer, named by a label. *)
Inductive AudioBuffer := Buffer (label : string).

Record DecodedAudio := mkDecoded {
  buffer : AudioBuffer;
  usage  : AudioUsage
}.

(** [QueueItem] (lines 132-138); a completion callback is a name, and
    calling it is recorded in the trace. *)
Record QueueItem := mkItem {
  itemBuffer    : AudioBuffer;
  baseMessageId : string;
  isHandsfree   : bool;
  lastChunk     : bool;
  onComplete    : option string
}.

(** The arguments of one [playTTS] call; [callId] names the call in the
    trace. *)
Record call := mkCall {
  callId         : nat;
  messageId      : string;
  text           : jsstring;
  callHandsfree  : bool;
  callOnComplete : option string
}.

Inductive windowEvent :=
| TtsStartedFlag        (* "tts-started-flag" *)
| TtsPlaybackStarted    (* "tts-playback-started" *)
| TtsOnComplete.        (* "tts-oncomplete" *)

(** What can be observed of the player. *)
Inductive obs :=
| Posted (key : string) (body : jsstring)   (* POST /api/tts for a chunk *)
| Enqueued (item : QueueItem)               (* playQueueRef.current.push *)
| Started (node : nat) (item : QueueItem)   (* node.start(startAt) *)
| Ended (node : nat)                        (* node.onended runs *)
| Dispatched (e : windowEvent)              (* window.dispatchEvent *)
| Called (callback : string)                (* onComplete() *)
| Returned (id : nat) (u : AudioUsage)      (* the promise of playTTS resolves *)
| Rejected.                                 (* playTTS or maybeStartNext throws *)

(** How a promise settles: the value it resolves with, or [VRejected]
    when it is rejected; an [await] of a rejected promise throws. *)
Inductive value :=
| VUnit
| VBool (b : bool)
| VDecoded (d : option DecodedAudio)
| VRejected.

(** Promises the browser settles.  A request to the TTS endpoint is named
    by the [playTTS] call that issued it and by the chunk it is for (0 the
    intro, 1 the remainder).  It settles with the decoded audio; with
    [VDecoded None] where [fetchAndDecode] returns [null] (lines 337-340 a
    status that is not OK, 343-346 an empty blob, 349-355 audio that cannot
    be decoded); with [VRejected] when [fetch], [response.text] or
    [response.blob], which stand outside any [try], reject. *)
Inductive external :=
| ExtFetch (id chunk : nat)   (* fetch, blob, decodeAudioData of one chunk *)
| ExtPlay                     (* el.play() *)
| ExtResume.                  (* ctx.resume() *)

(** Resumption points: where an async function of the hook waits, with the
    locals it needs afterwards.  [ret] is the promise the function
    returned. *)
Inductive kont :=
| K_ready_primed (ret : nat)          (* ensurePlaybackReady, after await primePipeline() *)
| K_ready_resumed (ret : nat)         (* ensurePlaybackReady, after await ctx.resume() *)
| K_next_call                         (* queueMicrotask(() => void maybeStartNext()) *)
| K_next_ready                        (* maybeStartNext, after await ensurePlaybackReady() *)
| K_next_played (node : nat) (item : QueueItem)
                                      (* maybeStartNext, after await el.play() *)
| K_playback_started                  (* queueMicrotask(dispatch "tts-playback-started") *)
| K_fetch_primed (id chunk : nat) (key : string) (body : jsstring) (ret : nat)
                                      (* fetchAndDecode, after await primePipeline() *)
| K_fetch_settled (key : string) (ret : nat)
                                      (* fetchAndDecode, after fetch and decode *)
| K_play_ready (c : call)             (* playTTS, after await ensurePlaybackReady() *)
| K_play_intro (c : call) (hasRemainder : bool) (remainderP : nat)
                                      (* playTTS, after await introP *)
| K_play_enqueued1 (c : call) (hasRemainder : bool) (intro : DecodedAudio)
                   (remainderP : nat) (* playTTS, after await enqueueBuffer(intro) *)
| K_play_remainder (c : call) (intro : DecodedAudio) (remainderP : nat)
                                      (* playTTS, after rem = await remainderP *)
| K_play_enqueued2 (c : call) (intro : DecodedAudio) (remainderP : nat)
                                      (* playTTS, after await enqueueBuffer(rem) *)
| K_play_cost (c : call) (intro : DecodedAudio) (remainderP : nat)
                                      (* playTTS, after the await of line 641 *)
| K_play_chars (c : call) (intro : DecodedAudio) (remainderP : nat)
               (cost : float)         (* playTTS, after the await of line 644 *)
| K_play_latency (c : call) (intro : DecodedAudio) (cost chars : float).
                                      (* playTTS, after the await of line 646 *)

(** A promise: pending with the functions that await it, or settled. *)
Inductive promise :=
| Pending (waiters : list kont)
| Fulfilled (v : value).

(** The 50 ms timeouts of [node.onended]. *)
Inductive timer :=
| TimerOnComplete (callback : string)   (* setTimeout(() => onComplete?.(), 50) *)
| TimerDispatchComplete.                (* setTimeout(dispatch "tts-oncomplete", 50) *)

(** The refs and React state of the hook, the audio graph, and the promise
    machinery of the JavaScript engine.  The pipeline has been primed:
    [primedRef] is set and the context, gain and analyser exist. *)
Record state := mkState {
  (* refs *)
  playQueue        : list QueueItem;
  isDequeuing      : bool;
  currentNode      : option nat;
  audioBufferCache : list (string * AudioBuffer);
  (* React state *)
  isPlaying        : bool;
  currentMessageId : option string;
  (* audio graph and element *)
  ctxRunning       : bool;                    (* ctx.state === "running" *)
  hasStream        : bool;                    (* the element carries the stream (not on Android) *)
  muted            : bool;                    (* el.muted *)
  scheduled        : list (nat * QueueItem);  (* nodes started and not ended *)
  nextNode         : nat;
  (* engine *)
  promises         : list promise;            (* indexed by promise id *)
  microtasks       : list (kont * value);     (* oldest first *)
  parked           : list (external * kont);  (* waiting for the browser *)
  timers           : list timer;              (* oldest first *)
  trace            : list obs                 (* oldest first *)
}.

Definition initial (stream : bool) : state :=
  {| playQueue := []; isDequeuing := false; currentNode := None;
     audioBufferCache := []; isPlaying := false; currentMessageId := None;
     ctxRunning := true; hasStream := stream; muted := true;
     scheduled := []; nextNode := 0%nat; promises := []; microtasks := [];
     parked := []; timers := []; trace := [] |}.

(** ** A state monad for the bodies of the hook *)

Definition M (A : Type) : Type := state -> A * state.

Definition ret {A} (a : A) : M A := fun s => (a, s).

Definition bind {A B} (m : M A) (f : A -> M B) : M B :=
  fun s => let '(a, s1) := m s in f a s1.

Definition gets {A} (f : state -> A) : M A := fun s => (f s, s).

Definition modify (f : state -> state) : M unit := fun s => (tt, f s).

Definition when (b : bool) (m : M unit) : M unit := if b then m else ret tt.

(** ** Field updates *)

Definition set_playQueue (x : list QueueItem) (s : state) : state :=
  mkState x s.(isDequeuing) s.(currentNode) s.(audioBufferCache)
          s.(isPlaying) s.(currentMessageId) s.(ctxRunning) s.(hasStream) s.(muted)
          s.(scheduled) s.(nextNode) s.(promises) s.(microtasks)
          s.(parked) s.(timers) s.(trace).

Definition set_isDequeuing (x : bool) (s : state) : state :=
  mkState s.(playQueue) x s.(currentNode) s.(audioBufferCache)
          s.(isPlaying) s.(currentMessageId) s.(ctxRunning) s.(hasStream) s.(muted)
          s.(scheduled) s.(nextNode) s.(promises) s.(microtasks)
          s.(parked) s.(timers) s.(trace).

Definition set_currentNode (x : option nat) (s : state) : state :=
  mkState s.(playQueue) s.(isDequeuing) x s.(audioBufferCache)
          s.(isPlaying) s.(currentMessageId) s.(ctxRunning) s.(hasStream) s.(muted)
          s.(scheduled) s.(nextNode) s.(promises) s.(microtasks)
          s.(parked) s.(timers) s.(trace).

Definition set_audioBufferCache (x : list (string * AudioBuffer)) (s : state) : state :=
  mkState s.(playQueue) s.(isDequeuing) s.(currentNode) x
          s.(isPlaying) s.(currentMessageId) s.(ctxRunning) s.(hasStream) s.(muted)
          s.(scheduled) s.(nextNode) s.(promises) s.(microtasks)
          s.(parked) s.(timers) s.(trace).

Definition set_isPlaying (x : bool) (s : state) : state :=
  mkState s.(playQueue) s.(isDequeuing) s.(currentNode) s.(audioBufferCache)
          x s.(currentMessageId) s.(ctxRunning) s.(hasStream) s.(muted)
          s.(scheduled) s.(nextNode) s.(promises) s.(microtasks)
          s.(parked) s.(timers) s.(trace).

Definition set_currentMessageId (x : option string) (s : state) : state :=
  mkState s.(playQueue) s.(isDequeuing) s.(currentNode) s.(audioBufferCache)
          s.(isPlaying) x s.(ctxRunning) s.(hasStream) s.(muted)
          s.(scheduled) s.(nextNode) s.(promises) s.(microtasks)
          s.(parked) s.(timers) s.(trace).

Definition set_ctxRunning (x : bool) (s : state) : state :=
  mkState s.(playQueue) s.(isDequeuing) s.(currentNode) s.(audioBufferCache)
          s.(isPlaying) s.(currentMessageId) x s.(hasStream) s.(muted)
          s.(scheduled) s.(nextNode) s.(promises) s.(microtasks)
          s.(parked) s.(timers) s.(trace).

Definition set_muted (x : bool) (s : state) : state :=
  mkState s.(playQueue) s.(isDequeuing) s.(currentNode) s.(audioBufferCache)
          s.(isPlaying) s.(currentMessageId) s.(ctxRunning) s.(hasStream) x
          s.(scheduled) s.(nextNode) s.(promises) s.(microtasks)
          s.(parked) s.(timers) s.(trace).

Definition set_scheduled (x : list (nat * QueueItem)) (s : state) : state :=
  mkState s.(playQueue) s.(isDequeuing) s.(currentNode) s.(audioBufferCache)
          s.(isPlaying) s.(currentMessageId) s.(ctxRunning) s.(hasStream) s.(muted)
          x s.(nextNode) s.(promises) s.(microtasks)
          s.(parked) s.(timers) s.(trace).

Definition set_nextNode (x : nat) (s : state) : state :=
  mkState s.(playQueue) s.(isDequeuing) s.(currentNode) s.(audioBufferCache)
          s.(isPlaying) s.(currentMessageId) s.(ctxRunning) s.(hasStream) s.(muted)
          s.(scheduled) x s.(promises) s.(microtasks)
          s.(parked) s.(timers) s.(trace).

Definition set_promises (x : list promise) (s : state) : state :=
  mkState s.(playQueue) s.(isDequeuing) s.(currentNode) s.(audioBufferCache)
          s.(isPlaying) s.(currentMessageId) s.(ctxRunning) s.(hasStream) s.(muted)
          s.(scheduled) s.(nextNode) x s.(microtasks)
          s.(parked) s.(timers) s.(trace).

Definition set_microtasks (x : list (kont * value)) (s : state) : state :=
  mkState s.(playQueue) s.(isDequeuing) s.(currentNode) s.(audioBufferCache)
          s.(isPlaying) s.(currentMessageId) s.(ctxRunning) s.(hasStream) s.(muted)
          s.(scheduled) s.(nextNode) s.(promises) x
          s.(parked) s.(timers) s.(trace).

Definition set_parked (x : list (external * kont)) (s : state) : state :=
  mkState s.(playQueue) s.(isDequeuing) s.(currentNode) s.(audioBufferCache)
          s.(isPlaying) s.(currentMessageId) s.(ctxRunning) s.(hasStream) s.(muted)
          s.(scheduled) s.(nextNode) s.(promises) s.(microtasks)
          x s.(timers) s.(trace).

Definition set_timers (x : list timer) (s : state) : state :=
  mkState s.(playQueue) s.(isDequeuing) s.(currentNode) s.(audioBufferCache)
          s.(isPlaying) s.(currentMessageId) s.(ctxRunning) s.(hasStream) s.(muted)
          s.(scheduled) s.(nextNode) s.(promises) s.(microtasks)
          s.(parked) x s.(trace).

Definition set_trace (x : list obs) (s : state) : state :=
  mkState s.(playQueue) s.(isDequeuing) s.(currentNode) s.(audioBufferCache)
          s.(isPlaying) s.(currentMessageId) s.(ctxRunning) s.(hasStream) s.(muted)
          s.(scheduled) s.(nextNode) s.(promises) s.(microtasks)
          s.(parked) s.(timers) x.

Notation "'let*' x ':=' c1 'in' c2" := (bind c1 (fun x => c2))
  (at level 10, x binder, c1 at level 100, c2 at level 200).

(** [x != null] *)
Definition isSome {A} (x : option A) : bool :=
  match x with Some _ => true | None => false end.

(** ** The engine: promises, microtasks, timers *)

Definition emit (o : obs) : M unit :=
  modify (fun s => set_trace (s.(trace) ++ [o]) s).

Definition queueMicrotask (k : kont) (v : value) : M unit :=
  modify (fun s => set_microtasks (s.(microtasks) ++ [(k, v)]) s).

Definition newPromise : M nat :=
  fun s => (length s.(promises), set_promises (s.(promises) ++ [Pending []]) s).

(** Settling a promise queues one reaction job per waiter. *)
Definition resolve (p : nat) (v : value) : M unit :=
  fun s =>
    match s.(promises) !! p with
    | Some (Pending waiters) =>
        (tt, set_microtasks (s.(microtasks) ++ map (fun k => (k, v)) waiters)
               (set_promises (<[p := Fulfilled v]> s.(promises)) s))
    | _ => (tt, s)
    end.

(** A promise that is fulfilled when it is created: what a call of an
    async function returns when its body ran to the end without waiting. *)
Definition resolved (v : value) : M nat :=
  let* p := newPromise in
  let* _ := resolve p v in
  ret p.

(** [await p]: the reaction job is queued at once when [p] is fulfilled,
    and when [p] settles otherwise. *)
Definition await (p : nat) (k : kont) : M unit :=
  fun s =>
    match s.(promises) !! p with
    | Some (Fulfilled v) => queueMicrotask k v s
    | Some (Pending waiters) =>
        (tt, set_promises (<[p := Pending (waiters ++ [k])]> s.(promises)) s)
    | None => (tt, s)
    end.

(** Waiting for a promise of the browser. *)
Definition park (e : external) (k : kont) : M unit :=
  modify (fun s => set_parked (s.(parked) ++ [(e, k)]) s).

Definition setTimeout (t : timer) : M unit :=
  modify (fun s => set_timers (s.(timers) ++ [t]) s).

(** ** The hook *)

(** [primePipeline] (lines 150-238) on a primed pipeline: line 151
    returns. *)
Definition primePipeline : M nat := resolved VUnit.

(** [ensurePlaybackReady] (lines 244-256), up to its first await. *)
Definition ensurePlaybackReady : M nat :=
  let* r := newPromise in
  let* p := primePipeline in
  let* _ := await p (K_ready_primed r) in
  ret r.

(** [maybeStartNext] (lines 403-408), up to its first await. *)
Definition maybeStartNext : M unit :=
  let* dequeuing := gets isDequeuing in
  if dequeuing then ret tt
  else
    let* queue := gets playQueue in
    match queue with
    | [] => ret tt
    | _ :: _ =>
        let* p := ensurePlaybackReady in
        await p K_next_ready
    end.

(** [enqueueBuffer] (lines 553-573). *)
Definition enqueueBuffer (item : QueueItem) : M nat :=
  let* _ := modify (fun s => set_playQueue (s.(playQueue) ++ [item]) s) in
  let* _ := emit (Enqueued item) in
  let* _ := maybeStartNext in
  resolved VUnit.

(** [node.onended] (lines 500-534). *)
Definition onended (node : nat) (item : QueueItem) : M unit :=
  let* current := gets currentNode in
  let* _ := when (bool_decide (current = Some node))
                 (modify (set_currentNode None)) in
  let* _ := match item.(onComplete) with
            | Some callback =>
                when item.(lastChunk) (setTimeout (TimerOnComplete callback))
            | None => ret tt
            end in
  let* queue := gets playQueue in
  let* _ := match queue with
            | [] =>
                let* _ := modify (set_isPlaying false) in
                let* _ := modify (set_currentMessageId None) in
                let* _ := when item.(isHandsfree)
                               (setTimeout TimerDispatchComplete) in
                modify (set_muted true)
            | _ :: _ => ret tt
            end in
  let* _ := modify (set_isDequeuing false) in
  queueMicrotask K_next_call VUnit.

(** [maybeStartNext] from line 468 on: the started notifications, then
    [node.onended = ...] and [node.start(startAt)].  Starting a fresh node
    at a time that is not negative does not throw. *)
Definition startNode (node : nat) (item : QueueItem) (wasIdle : bool)
  : M unit :=
  let* _ := when wasIdle
              (let* _ := emit (Dispatched TtsStartedFlag) in
               let* _ := modify (set_isPlaying true) in
               let* _ := modify (set_currentMessageId
                                   (Some item.(baseMessageId))) in
               queueMicrotask K_playback_started VUnit) in
  let* _ := modify (fun s => set_scheduled (s.(scheduled) ++ [(node, item)]) s) in
  emit (Started node item).

(** [maybeStartNext] (lines 410-466), after [ensurePlaybackReady] has
    answered. *)
Definition maybeStartNext_ready (ok : bool) : M unit :=
  if negb ok then ret tt
  else
    let* _ := modify (set_isDequeuing true) in
    let* queue := gets playQueue in
    match queue with
    | [] =>
        (* shift() gives undefined and the destructuring of line 414 throws *)
        emit Rejected
    | item :: rest =>
        let* _ := modify (set_playQueue rest) in
        let* node := gets nextNode in
        let* _ := modify (set_nextNode (S node)) in
        let* current := gets currentNode in
        let wasIdle := bool_decide (current = None) in
        let* _ := modify (set_currentNode (Some node)) in
        let* stream := gets hasStream in
        if wasIdle && stream then
          let* _ := modify (set_muted false) in
          park ExtPlay (K_next_played node item)
        else startNode node item wasIdle
    end.

(** [audioBufferCacheRef.current[key]]: the entries of the cache object,
    newest first; a later write of a key shadows the earlier ones. *)
Fixpoint cacheLookup (key : string) (cache : list (string * AudioBuffer))
  : option AudioBuffer :=
  match cache with
  | [] => None
  | (k, b) :: cache' => if String.eqb k key then Some b else cacheLookup key cache'
  end.

(** [fetchAndDecode] (lines 321-397), up to its first await; [id] and
    [chunk] name the request for the browser. *)
Definition fetchAndDecode (id chunk : nat) (key : string) (body : jsstring)
  : M nat :=
  let* cache := gets audioBufferCache in
  match cacheLookup key cache with
  | Some b => resolved (VDecoded (Some (mkDecoded b None)))
  | None =>
      let* r := newPromise in
      let* p := primePipeline in
      let* _ := await p (K_fetch_primed id chunk key body r) in
      ret r
  end.

(** The reads of lines 639-646, with their defaults. *)
Definition costOf (d : option DecodedAudio) : float :=
  match d with
  | Some (mkDecoded _ (Some u)) => u.(cost)
  | _ => 0%float
  end.

Definition charCountOf (d : option DecodedAudio) : float :=
  match d with
  | Some (mkDecoded _ (Some u)) => u.(char_count)
  | _ => 0%float
  end.

Definition latencyOf (d : option DecodedAudio) : option float :=
  match d with
  | Some (mkDecoded _ (Some u)) => Some u.(latency)
  | _ => None
  end.

(** Lines 648-651. *)
Definition aggregateLatency (a b : option float) : float :=
  match a, b with
  | Some a, Some b => JsNumber.round ((a + b) / 2)%float
  | Some a, None => a
  | None, Some b => b
  | None, None => 0%float
  end.

(** Lines 653-655. *)
Definition aggregateUsage (intro : DecodedAudio) (b : option float)
  (cost chars latency : float) : AudioUsage :=
  if isSome intro.(usage) || isSome b
     || JsNumber.truthy cost || JsNumber.truthy chars
  then Some (mkUsage cost chars latency)
  else None.

Definition returned (c : call) (u : AudioUsage) : M unit :=
  emit (Returned c.(callId) u).

(** [playTTS] (lines 588-598), up to its first await. *)
Definition playTTS (c : call) : M unit :=
  let* current := gets currentMessageId in
  let* playing := gets isPlaying in
  if bool_decide (current = Some c.(messageId)) && playing
  then returned c None
  else
    let* p := ensurePlaybackReady in
    await p (K_play_ready c).

(** Lines 602-610, with the chunks of the text. *)
Definition playTTS_chunks (c : call) (introChunk : jsstring)
  (remainder : option jsstring) : M unit :=
  let* introP :=
    fetchAndDecode c.(callId) 0 (c.(messageId) +:+ "-0") introChunk in
  let* remainderP :=
    match remainder with
    | Some r => fetchAndDecode c.(callId) 1 (c.(messageId) +:+ "-1") r
    | None => resolved (VDecoded None)
    end in
  await introP (K_play_intro c (isSome remainder) remainderP).

(** Lines 598-600. *)
Definition playTTS_ready (c : call) (ok : bool) : M unit :=
  if negb ok then returned c None
  else
    let '(introChunk, remainder) := Chunker.chunkTextForTTS c.(text) in
    playTTS_chunks c introChunk remainder.

(** Lines 611-621. *)
Definition playTTS_intro (c : call) (hasRemainder : bool) (remainderP : nat)
  (intro : option DecodedAudio) : M unit :=
  match intro with
  | None => returned c None
  | Some d =>
      let* p := enqueueBuffer
                  (mkItem d.(buffer) c.(messageId)
                          (negb hasRemainder && c.(callHandsfree))
                          (negb hasRemainder)
                          (if hasRemainder then None else c.(callOnComplete))) in
      await p (K_play_enqueued1 c hasRemainder d remainderP)
  end.

(** Lines 623-637, after the remainder has settled. *)
Definition playTTS_remainder (c : call) (intro : DecodedAudio)
  (remainderP : nat) (rem : option DecodedAudio) : M unit :=
  match rem with
  | None =>
      let* _ := when c.(callHandsfree) (emit (Dispatched TtsOnComplete)) in
      returned c intro.(usage)
  | Some r =>
      let* p := enqueueBuffer
                  (mkItem r.(buffer) c.(messageId) c.(callHandsfree) true
                          c.(callOnComplete)) in
      await p (K_play_enqueued2 c intro remainderP)
  end.

(** Running a reaction job or a queued microtask.  A function of the hook
    that awaits a rejected promise outside a [try] throws ([Rejected]); the
    [try] of lines 249-253 and of lines 451-458 swallow the rejection. *)
Definition resume (k : kont) (v : value) : M unit :=
  match k, v with
  | K_ready_primed r, _ =>
      let* running := gets ctxRunning in
      if running then resolve r (VBool true)
      else park ExtResume (K_ready_resumed r)
  | K_ready_resumed r, _ =>
      let* running := gets ctxRunning in
      resolve r (VBool running)
  | K_next_call, _ => maybeStartNext
  | K_next_ready, VBool ok => maybeStartNext_ready ok
  | K_next_played node item, _ => startNode node item true
  | K_playback_started, _ => emit (Dispatched TtsPlaybackStarted)
  | K_fetch_primed id chunk key body r, _ =>
      let* _ := emit (Posted key body) in
      park (ExtFetch id chunk) (K_fetch_settled key r)
  | K_fetch_settled key r, VDecoded (Some d) =>
      let* _ := modify (fun s => set_audioBufferCache
                                   ((key, d.(buffer)) :: s.(audioBufferCache)) s) in
      resolve r (VDecoded (Some d))
  | K_fetch_settled key r, VDecoded None => resolve r (VDecoded None)
  | K_fetch_settled key r, _ =>
      (* the request was rejected: fetchAndDecode throws, its promise is
         rejected *)
      resolve r VRejected
  | K_play_ready c, VBool ok => playTTS_ready c ok
  | K_play_intro c hasRemainder remainderP, VDecoded intro =>
      playTTS_intro c hasRemainder remainderP intro
  | K_play_enqueued1 c hasRemainder intro remainderP, _ =>
      if hasRemainder then await remainderP (K_play_remainder c intro remainderP)
      else await remainderP (K_play_cost c intro remainderP)
  | K_play_remainder c intro remainderP, VDecoded rem =>
      playTTS_remainder c intro remainderP rem
  | K_play_enqueued2 c intro remainderP, _ =>
      await remainderP (K_play_cost c intro remainderP)
  | K_play_cost c intro remainderP, VDecoded rem =>
      await remainderP
            (K_play_chars c intro remainderP
                          (costOf (Some intro) + costOf rem)%float)
  | K_play_chars c intro remainderP cost, VDecoded rem =>
      await remainderP
            (K_play_latency c intro cost
                            (charCountOf (Some intro) + charCountOf rem)%float)
  | K_play_latency c intro cost chars, VDecoded rem =>
      let a := latencyOf (Some intro) in
      let b := latencyOf rem in
      returned c (aggregateUsage intro b cost chars (aggregateLatency a b))
  | _, _ => emit Rejected
  end.

(** The microtask checkpoint: jobs run oldest first until none is left. *)
Fixpoint drain (fuel : nat) (s : state) : state :=
  match fuel with
  | O => s
  | S fuel' =>
      match s.(microtasks) with
      | [] => s
      | (k, v) :: rest => drain fuel' (snd (resume k v (set_microtasks rest s)))
      end
  end.

(** ** Tasks *)

(** What the caller and the browser do, one task each. *)
Inductive task :=
| Calls (cs : list call)       (* playTTS is called for each, in one synchronous block *)
| Settles (e : external) (v : value)
                               (* the browser settles the oldest promise waiting on [e] *)
| NodeEnds (node : nat)        (* a scheduled buffer has played to its end *)
| TimerFires.                  (* the oldest 50 ms timeout fires *)

Fixpoint callAll (cs : list call) : M unit :=
  match cs with
  | [] => ret tt
  | c :: cs' => let* _ := playTTS c in callAll cs'
  end.

Definition external_eqb (e e' : external) : bool :=
  match e, e' with
  | ExtFetch i c, ExtFetch i' c' => Nat.eqb i i' && Nat.eqb c c'
  | ExtPlay, ExtPlay | ExtResume, ExtResume => true
  | _, _ => false
  end.

(** The first continuation parked on [e], and the others. *)
Fixpoint unpark (e : external) (l : list (external * kont))
  : option (kont * list (external * kont)) :=
  match l with
  | [] => None
  | (e', k) :: l' =>
      if external_eqb e' e then Some (k, l')
      else match unpark e l' with
           | Some (k', l'') => Some (k', (e', k) :: l'')
           | None => None
           end
  end.

Definition settle (e : external) (v : value) : M unit :=
  let* waiting := gets parked in
  match unpark e waiting with
  | Some (k, others) =>
      let* _ := modify (set_parked others) in
      let* _ := match e, v with
                | ExtResume, VBool running => modify (set_ctxRunning running)
                | _, _ => ret tt
                end in
      queueMicrotask k v
  | None => ret tt
  end.

Definition nodeEnds (node : nat) : M unit :=
  let* active := gets scheduled in
  match List.find (fun ni => Nat.eqb (fst ni) node) active with
  | Some (_, item) =>
      let* _ := modify (set_scheduled
                          (List.filter (fun ni => negb (Nat.eqb (fst ni) node))
                                       active)) in
      let* _ := emit (Ended node) in
      onended node item
  | None => ret tt
  end.

Definition timerFires : M unit :=
  let* pending := gets timers in
  match pending with
  | [] => ret tt
  | t :: rest =>
      let* _ := modify (set_timers rest) in
      match t with
      | TimerOnComplete callback => emit (Called callback)
      | TimerDispatchComplete => emit (Dispatched TtsOnComplete)
      end
  end.

Definition handle (t : task) : M unit :=
  match t with
  | Calls cs => callAll cs
  | Settles e v => settle e v
  | NodeEnds node => nodeEnds node
  | TimerFires => timerFires
  end.

(** More jobs than one task of the hook can queue. *)
Definition checkpointFuel : nat := 64.

(** One task, then its microtask checkpoint. *)
Definition step (s : state) (t : task) : state :=
  drain checkpointFuel (snd (handle t s)).

Definition run (s : state) (ts : list task) : state := fold_left step ts s.

(** The promise a [playTTS] call returned has resolved with [u]. *)
Definition returnedWith (id : nat) (s : state) : list AudioUsage :=
  omap (fun o => match o with
                 | Returned id' u => if Nat.eqb id' id then Some u else None
                 | _ => None
                 end) s.(trace).

(** The items in the order they were pushed on the queue, and in the order
    their nodes were started. *)
Definition enqueuedOrder (t : list obs) : list QueueItem :=
  omap (fun o => match o with Enqueued item => Some item | _ => None end) t.

Definition startedOrder (t : list obs) : list QueueItem :=
  omap (fun o => match o with Started _ item => Some item | _ => None end) t.

(** The number of nodes that are started and have not ended, after each
    observation; [peakScheduled] is its largest value. *)
Fixpoint scheduledAlong (now : nat) (t : list obs) : list nat :=
  match t with
  | [] => []
  | Started _ _ :: t' => S now :: scheduledAlong (S now) t'
  | Ended _ :: t' => Nat.pred now :: scheduledAlong (Nat.pred now) t'
  | _ :: t' => now :: scheduledAlong now t'
  end.

Definition peakScheduled (t : list obs) : nat :=
  fold_right Nat.max 0%nat (scheduledAlong 0 t).

Definition dispatches (e : windowEvent) (t : list obs) : nat :=
  length (List.filter (fun o => match o, e with
                                | Dispatched TtsOnComplete, TtsOnComplete
                                | Dispatched TtsStartedFlag, TtsStartedFlag
                                | Dispatched TtsPlaybackStarted, TtsPlaybackStarted => true
                                | _, _ => false
                                end) t).

End TTSPlayer.

(** ** Scenarios *)

Module Scenarios.

Import JsString TTSPlayer.

(** Two short replies, one chunk each. *)
Definition textA : jsstring := lit "Good morning.".

Definition bufferA : AudioBuffer := Buffer "A-0".




(** A reply of two sentences, long enough to be cut in two. *)
Definition longReply : jsstring :=
  lit "This is the first sentence of a long reply. And here is the second sentence, which makes the text long enough.".

(** The usage records of section 8 of the specification. *)
Definition introUsage : audioUsage := mkUsage 0.001 30 100.
Definition remainderUsage : audioUsage := mkUsage 0.002 50 200.



(** The observations up to the first [Ended node], and those after it. *)
Fixpoint splitAtEnded (node : nat) (t : list obs)
  : option (list obs * list obs) :=
  match t with
  | [] => None
  | o :: t' =>
      match o with
      | Ended n =>
          if Nat.eqb n node then Some ([], t')
          else match splitAtEnded node t' with
               | Some (before, after) => Some (o :: before, after)
               | None => None
               end
      | _ => match splitAtEnded node t' with
             | Some (before, after) => Some (o :: before, after)
             | None => None
             end
      end
  end.






End Scenarios.

(* ===================================================================== *)
(** * Transcription upload (sendAudioToAPI of useHandsfree.ts) *)
(* ===================================================================== *)

Module Transcribe.

Import JsString.

(** What [JSON.parse] returns. *)
#[warnings="-register-all"]
Inductive json :=
| JNull
| JBool (b : bool)
| JNumber (x : float)
| JString (s : jsstring)
| JArray (items : list json)
| JObject (members : list (jsstring * json)).

(** [typeof v === "object" && v !== null] *)
Definition isObject (v : json) : bool :=
  match v with
  | JArray _ | JObject _ => true
  | _ => false
  end.

(** [v[key]] on a parsed value: the member of an object, [undefined] on
    anything else the code reads a name of the event from. *)
Fixpoint member (key : jsstring) (members : list (jsstring * json))
  : option json :=
  match members with
  | [] => None
  | (k, v) :: members' => if eqb k key then Some v else member key members'
  end.

Definition prop (key : jsstring) (v : json) : option json :=
  match v with
  | JObject members => member key members
  | _ => None
  end.

(** [key in v] *)
Definition hasProp (key : jsstring) (v : json) : bool :=
  match prop key v with Some _ => true | None => false end.

(** [x ?? d]: [d] for [undefined] and [null]. *)
Definition orDefault (x : option json) (d : json) : json :=
  match x with
  | None | Some JNull => d
  | Some v => v
  end.

(** The usage object of lines 325-330. *)
Record usage := mkUsage {
  cost      : json;
  promptChar : json;
  latencyMs : json;
  ttfcMs    : json
}.

(** One call of [onNewTranscription]. *)
Inductive emission := Emitted (text : jsstring) (u : option usage).

(** What the hook holds across the call: [emittedRef], the loading flag,
    and the calls of [onNewTranscription] made so far, oldest first. *)
Record state := mkState {
  emittedRef : bool;
  isLoading  : bool;
  emissions  : list emission
}.

Inductive error :=
| FetchFailed           (* fetch rejects *)
| TranscriptionFailed   (* new Error("Transcription failed") *)
| NoResponseBody        (* new Error("No response body") *)
| ReadFailed.           (* reader.read() rejects *)

(** How the body of the response ends. *)
Inductive ending := EndOfStream | ReadRejects.

(** What [fetch("/api/transcribe")] gives: a rejection, or a response with
    its status and, when it has a body, the decoded text of each chunk read
    from it and the way the stream ends. *)
Inductive response :=
| Rejects
| Responds (ok : bool) (body : option (list jsstring * ending)).

(** Computations that change the state and either return or throw. *)
Definition M (A : Type) : Type := state -> (error + A) * state.

Definition ret {A} (a : A) : M A := fun s => (inr a, s).

Definition throw {A} (e : error) : M A := fun s => (inl e, s).

Definition bind {A B} (m : M A) (f : A -> M B) : M B :=
  fun s => match m s with
           | (inr a, s1) => f a s1
           | (inl e, s1) => (inl e, s1)
           end.

(** [try { body } catch (err) { handler } finally { cleanup }] *)
Definition tryCatchFinally {A} (body : M A) (handler : error -> M A)
  (cleanup : M unit) : M A :=
  fun s =>
    let '(r, s1) := match body s with
                    | (inl e, s1) => handler e s1
                    | (inr a, s1) => (inr a, s1)
                    end in
    match cleanup s1 with
    | (inl e, s2) => (inl e, s2)
    | (inr _, s2) => (r, s2)
    end.

Notation "'let*' x ':=' c1 'in' c2" := (bind c1 (fun x => c2))
  (at level 10, x binder, c1 at level 100, c2 at level 200).

(** [onNewTranscription(text, usage)]; the callback of [useChat] starts an
    async function and returns, it does not throw. *)
Definition onNewTranscription (text : jsstring) (u : option usage) : M unit :=
  fun s => (inr tt, mkState s.(emittedRef) s.(isLoading)
                            (s.(emissions) ++ [Emitted text u])).

Definition set_emittedRef (b : bool) : M unit :=
  fun s => (inr tt, mkState b s.(isLoading) s.(emissions)).

Definition setIsLoading (b : bool) : M unit :=
  fun s => (inr tt, mkState s.(emittedRef) b s.(emissions)).

Definition get_emittedRef : M bool := fun s => (inr s.(emittedRef), s).

(** [chunk.split("\n").filter((line) => line.trim())] *)
Definition linesOf (chunk : jsstring) : list jsstring :=
  List.filter (fun line => truthy (trim line)) (splitOn 10 [] chunk).

(** [line.replace("data: ", "").trim()] for a line that starts with
    ["data: "]: the first occurrence is the prefix. *)
Definition dataOf (line : jsstring) : jsstring :=
  trim (skipn 6 line).

Section Stream.

(** [JSON.parse]: the parsed value, or [None] for a SyntaxError. *)
Variable JSON_parse : jsstring -> option json.

(** [ToString] on a parsed value that is not a string, as [+=] applies it. *)
Variable toText : json -> jsstring.

(** [parsed.delta ?? ""] as appended to the transcript. *)
Definition deltaText (parsed : json) : jsstring :=
  match prop (lit "delta") parsed with
  | None | Some JNull => []
  | Some (JString s) => s
  | Some v => toText v
  end.

(** Lines 325-330. *)
Definition usageOf (u : json) : usage :=
  mkUsage (orDefault (prop (lit "cost") u) (JNumber 0))
          (orDefault (prop (lit "prompt_char") u) (JNumber 0))
          (orDefault (prop (lit "latency_ms") u) (JNumber 0))
          (orDefault (prop (lit "ttfc_ms") u) (JNumber 0)).

(** The test of lines 302-307. *)
Definition isDelta (parsed : json) : bool :=
  isObject parsed
  && match prop (lit "type") parsed with
     | Some (JString s) => eqb s (lit "transcript.text.delta")
     | _ => false
     end.

(** The test of lines 309-315; the usage value when it passes. *)
Definition usageEvent (parsed : json) : option json :=
  if isObject parsed then
    match prop (lit "usage") parsed with
    | Some u => if isObject u then Some u else None
    | None => None
    end
  else None.

(** The locals of the loop: [fullText], [usage]. *)
Definition locals : Type := jsstring * option usage.

(** Lines 300-334: one data line that is not the sentinel. *)
Definition onData (data : jsstring) (acc : locals) : locals :=
  match JSON_parse data with
  | None => acc
  | Some parsed =>
      if isDelta parsed then (fst acc ++ deltaText parsed, snd acc)
      else match usageEvent parsed with
           | Some u => (fst acc, Some (usageOf u))
           | None => acc
           end
  end.

(** The [for] loop of lines 288-336 over the lines of one chunk; the
    boolean is [doneReading]. *)
Fixpoint forLines (lines : list jsstring) (acc : locals) : M (locals * bool) :=
  match lines with
  | [] => ret (acc, false)
  | line :: lines' =>
      if startsWith (lit "data: ") line then
        let data := dataOf line in
        if eqb data (lit "[DONE]") then
          let* emitted := get_emittedRef in
          let* _ := if negb emitted && truthy (trim (fst acc))
                    then let* _ := set_emittedRef true in
                         onNewTranscription (fst acc) (snd acc)
                    else ret tt in
          ret (acc, true)
        else forLines lines' (onData data acc)
      else forLines lines' acc
  end.

(** The [while] loop of lines 281-339 over the reads of the body. *)
Fixpoint readLoop (reads : list jsstring) (e : ending) (acc : locals)
  : M unit :=
  match reads with
  | [] => match e with
          | EndOfStream => ret tt
          | ReadRejects => throw ReadFailed
          end
  | chunk :: reads' =>
      let* r := forLines (linesOf chunk) acc in
      if snd r then ret tt else readLoop reads' e (fst r)
  end.

(** [sendAudioToAPI] (lines 251-352); [isHandsfree] is what
    [isHandsfreeRef.current] holds when the [finally] block runs. *)
Definition sendAudioToAPI (res : response) (isHandsfree : bool) : M unit :=
  let* _ := set_emittedRef false in
  tryCatchFinally
    (match res with
     | Rejects => throw FetchFailed
     | Responds ok body =>
         if negb ok then throw TranscriptionFailed
         else match body with
              | None => throw NoResponseBody
              | Some (reads, e) => readLoop reads e ([], None)
              end
     end)
    (fun _ => onNewTranscription (lit "Failed to process audio") None)
    (if negb isHandsfree then setIsLoading false else ret tt).

(** ** The stream read as one sequence of lines *)

Inductive event :=
| Done                        (* data: [DONE] *)
| Data (data : jsstring)      (* any other data line *)
| Other.                      (* a line that is not a data line *)

Definition classify (line : jsstring) : event :=
  if startsWith (lit "data: ") line then
    if eqb (dataOf line) (lit "[DONE]") then Done else Data (dataOf line)
  else Other.

Definition isDone (e : event) : bool :=
  match e with Done => true | _ => false end.

(** The lines of all chunks, in the order they arrive. *)
Definition events (reads : list jsstring) : list event :=
  map classify (flat_map linesOf reads).

(** The events before the first sentinel. *)
Fixpoint beforeDone (es : list event) : list event :=
  match es with
  | [] => []
  | e :: es' => if isDone e then [] else e :: beforeDone es'
  end.

Definition reachesDone (reads : list jsstring) : bool :=
  existsb isDone (events reads).

(** The text deltas of the data lines, in order. *)
Definition deltas (es : list event) : list jsstring :=
  flat_map (fun e => match e with
                     | Data data =>
                         match JSON_parse data with
                         | Some parsed =>
                             if isDelta parsed then [deltaText parsed] else []
                         | None => []
                         end
                     | _ => []
                     end) es.

(** The usage held after the events [es], [u0] being held before: that of
    the last usage event, if there is one. *)
Definition usageAfter (u0 : option usage) (es : list event) : option usage :=
  fold_left (fun u e => match e with
                        | Data data =>
                            match JSON_parse data with
                            | Some parsed =>
                                if isDelta parsed then u
                                else match usageEvent parsed with
                                     | Some v => Some (usageOf v)
                                     | None => u
                                     end
                            | None => u
                            end
                        | _ => u
                        end) es u0.

Definition lastUsage (es : list event) : option usage := usageAfter None es.

(** The transcript accumulated when the sentinel arrives. *)
Definition transcript (reads : list jsstring) : jsstring :=
  List.concat (deltas (beforeDone (events reads))).

Definition usageSeen (reads : list jsstring) : option usage :=
  lastUsage (beforeDone (events reads)).

(** The calls of [onNewTranscription] one upload makes. *)
Definition emitted (res : response) (isHandsfree : bool) (s : state)
  : list emission :=
  skipn (length s.(emissions))
        (snd (sendAudioToAPI res isHandsfree s)).(emissions).


End Stream.

Definition failureText : jsstring := lit "Failed to process audio".

(** The state after the sentinel, [text] and [u] being the locals. *)
Definition afterDone (text : jsstring) (u : option usage) (s : state) : state :=
  if truthy (trim text)
  then mkState true s.(isLoading) (s.(emissions) ++ [Emitted text u])
  else s.


(** Parsers for the scenarios: every data line is rejected. *)
Definition parseNothing (data : jsstring) : option json := None.

Definition textOfNothing (v : json) : jsstring := [].

Definition idle : state := mkState false true [].

End Transcribe.

(* ===================================================================== *)
(** * Handsfree orchestrator (useHandsfree.ts) *)
(* ===================================================================== *)

Module Handsfree.

(** [mediaRecorderRef.current.state] *)
Inductive recorderState := Recording | Inactive.

(** The refs and React state of the hook, the [isPlaying] state it reads
    from the player, and what the browser holds for it: the microphone
    requests of speech starts that passed the guard, and the 300 ms timeouts
    of [handleTTSComplete].  [vadStopRef] is [true] when it holds the stop
    function of a running detector.  [launched] counts the speech starts
    that passed the guard, [recorders] the MediaRecorders created.  React
    runs an effect after a commit when one of its dependencies differs from
    the value the commit before rendered: the [rendered] fields hold those
    values. *)
Record state := mkState {
  (* React state *)
  isHandsfreeActive : bool;
  isRecording       : bool;
  isVADActive       : bool;
  isLoading         : bool;
  isPlaying         : bool;
  (* refs *)
  isHandsfreeRef    : bool;
  isLoadingRef      : bool;
  isPlayingRef      : bool;
  suppressVADRef    : bool;
  vadArmedRef       : bool;
  vadStopRef        : bool;
  blockPlaybackUntilRecordingRef : bool;
  mediaRecorderRef  : option recorderState;
  (* browser *)
  acquiring         : nat;   (* getUserMedia calls of onStart not yet settled *)
  rearmTimers       : nat;   (* timeouts of handleTTSComplete not yet fired *)
  (* counters *)
  launched          : nat;
  recorders         : nat;
  (* the dependencies of the effects, as the last commit rendered them *)
  renderedPlaying   : bool;
  renderedRecording : bool;
  renderedLoading   : bool
}.

(** The hook as mounted: everything off. *)
Definition initial : state :=
  {| isHandsfreeActive := false; isRecording := false; isVADActive := false;
     isLoading := false; isPlaying := false; isHandsfreeRef := false;
     isLoadingRef := false; isPlayingRef := false; suppressVADRef := false;
     vadArmedRef := false; vadStopRef := false;
     blockPlaybackUntilRecordingRef := false; mediaRecorderRef := None;
     acquiring := 0; rearmTimers := 0; launched := 0; recorders := 0;
     renderedPlaying := false; renderedRecording := false;
     renderedLoading := false |}.

(** What reaches the hook: calls of its interface, callbacks of the
    detector, of the microphone and of the recorder, window events of the
    player, and the commit of a render, which runs the effects. *)
Inductive event :=
| SetHandsfree (active : bool)   (* setIsHandsfreeActive(active), with the effect of lines 540-557 *)
| VadSpeechStart                 (* the detector, if one runs, calls onStart *)
| VadSpeechStop                  (* the detector, if one runs, calls onStop *)
| MicAcquired                    (* getUserMedia of a speech start resolves *)
| PlayHandsfree                  (* handlePlayTTS(id, text, true, ...) up to prime() *)
| TtsStartedFlag                 (* "tts-started-flag" *)
| TtsOnComplete                  (* "tts-oncomplete" *)
| RearmTimer                     (* a timeout of handleTTSComplete fires *)
| PlayingChanged (playing : bool)  (* the player sets its isPlaying state *)
| UploadDone                     (* sendAudioToAPI reaches its finally block *)
| Effects.                       (* a commit: the effects of lines 176-178, 183-205, 207-209 whose dependencies changed *)

(** ** Field updates *)

Definition set_isHandsfreeActive (x : bool) (s : state) : state :=
  mkState x s.(isRecording) s.(isVADActive) s.(isLoading) s.(isPlaying)
          s.(isHandsfreeRef) s.(isLoadingRef) s.(isPlayingRef)
          s.(suppressVADRef) s.(vadArmedRef) s.(vadStopRef)
          s.(blockPlaybackUntilRecordingRef) s.(mediaRecorderRef)
          s.(acquiring) s.(rearmTimers) s.(launched) s.(recorders)
          s.(renderedPlaying) s.(renderedRecording) s.(renderedLoading).

Definition set_isRecording (x : bool) (s : state) : state :=
  mkState s.(isHandsfreeActive) x s.(isVADActive) s.(isLoading)
          s.(isPlaying) s.(isHandsfreeRef) s.(isLoadingRef) s.(isPlayingRef)
          s.(suppressVADRef) s.(vadArmedRef) s.(vadStopRef)
          s.(blockPlaybackUntilRecordingRef) s.(mediaRecorderRef)
          s.(acquiring) s.(rearmTimers) s.(launched) s.(recorders)
          s.(renderedPlaying) s.(renderedRecording) s.(renderedLoading).

Definition set_isVADActive (x : bool) (s : state) : state :=
  mkState s.(isHandsfreeActive) s.(isRecording) x s.(isLoading)
          s.(isPlaying) s.(isHandsfreeRef) s.(isLoadingRef) s.(isPlayingRef)
          s.(suppressVADRef) s.(vadArmedRef) s.(vadStopRef)
          s.(blockPlaybackUntilRecordingRef) s.(mediaRecorderRef)
          s.(acquiring) s.(rearmTimers) s.(launched) s.(recorders)
          s.(renderedPlaying) s.(renderedRecording) s.(renderedLoading).

Definition set_isLoading (x : bool) (s : state) : state :=
  mkState s.(isHandsfreeActive) s.(isRecording) s.(isVADActive) x
          s.(isPlaying) s.(isHandsfreeRef) s.(isLoadingRef) s.(isPlayingRef)
          s.(suppressVADRef) s.(vadArmedRef) s.(vadStopRef)
          s.(blockPlaybackUntilRecordingRef) s.(mediaRecorderRef)
          s.(acquiring) s.(rearmTimers) s.(launched) s.(recorders)
          s.(renderedPlaying) s.(renderedRecording) s.(renderedLoading).

Definition set_isPlaying (x : bool) (s : state) : state :=
  mkState s.(isHandsfreeActive) s.(isRecording) s.(isVADActive)
          s.(isLoading) x s.(isHandsfreeRef) s.(isLoadingRef)
          s.(isPlayingRef) s.(suppressVADRef) s.(vadArmedRef) s.(vadStopRef)
          s.(blockPlaybackUntilRecordingRef) s.(mediaRecorderRef)
          s.(acquiring) s.(rearmTimers) s.(launched) s.(recorders)
          s.(renderedPlaying) s.(renderedRecording) s.(renderedLoading).

Definition set_isHandsfreeRef (x : bool) (s : state) : state :=
  mkState s.(isHandsfreeActive) s.(isRecording) s.(isVADActive)
          s.(isLoading) s.(isPlaying) x s.(isLoadingRef) s.(isPlayingRef)
          s.(suppressVADRef) s.(vadArmedRef) s.(vadStopRef)
          s.(blockPlaybackUntilRecordingRef) s.(mediaRecorderRef)
          s.(acquiring) s.(rearmTimers) s.(launched) s.(recorders)
          s.(renderedPlaying) s.(renderedRecording) s.(renderedLoading).

Definition set_isLoadingRef (x : bool) (s : state) : state :=
  mkState s.(isHandsfreeActive) s.(isRecording) s.(isVADActive)
          s.(isLoading) s.(isPlaying) s.(isHandsfreeRef) x s.(isPlayingRef)
          s.(suppressVADRef) s.(vadArmedRef) s.(vadStopRef)
          s.(blockPlaybackUntilRecordingRef) s.(mediaRecorderRef)
          s.(acquiring) s.(rearmTimers) s.(launched) s.(recorders)
          s.(renderedPlaying) s.(renderedRecording) s.(renderedLoading).

Definition set_isPlayingRef (x : bool) (s : state) : state :=
  mkState s.(isHandsfreeActive) s.(isRecording) s.(isVADActive)
          s.(isLoading) s.(isPlaying) s.(isHandsfreeRef) s.(isLoadingRef) x
          s.(suppressVADRef) s.(vadArmedRef) s.(vadStopRef)
          s.(blockPlaybackUntilRecordingRef) s.(mediaRecorderRef)
          s.(acquiring) s.(rearmTimers) s.(launched) s.(recorders)
          s.(renderedPlaying) s.(renderedRecording) s.(renderedLoading).

Definition set_suppressVADRef (x : bool) (s : state) : state :=
  mkState s.(isHandsfreeActive) s.(isRecording) s.(isVADActive)
          s.(isLoading) s.(isPlaying) s.(isHandsfreeRef) s.(isLoadingRef)
          s.(isPlayingRef) x s.(vadArmedRef) s.(vadStopRef)
          s.(blockPlaybackUntilRecordingRef) s.(mediaRecorderRef)
          s.(acquiring) s.(rearmTimers) s.(launched) s.(recorders)
          s.(renderedPlaying) s.(renderedRecording) s.(renderedLoading).

Definition set_vadArmedRef (x : bool) (s : state) : state :=
  mkState s.(isHandsfreeActive) s.(isRecording) s.(isVADActive)
          s.(isLoading) s.(isPlaying) s.(isHandsfreeRef) s.(isLoadingRef)
          s.(isPlayingRef) s.(suppressVADRef) x s.(vadStopRef)
          s.(blockPlaybackUntilRecordingRef) s.(mediaRecorderRef)
          s.(acquiring) s.(rearmTimers) s.(launched) s.(recorders)
          s.(renderedPlaying) s.(renderedRecording) s.(renderedLoading).

Definition set_vadStopRef (x : bool) (s : state) : state :=
  mkState s.(isHandsfreeActive) s.(isRecording) s.(isVADActive)
          s.(isLoading) s.(isPlaying) s.(isHandsfreeRef) s.(isLoadingRef)
          s.(isPlayingRef) s.(suppressVADRef) s.(vadArmedRef) x
          s.(blockPlaybackUntilRecordingRef) s.(mediaRecorderRef)
          s.(acquiring) s.(rearmTimers) s.(launched) s.(recorders)
          s.(renderedPlaying) s.(renderedRecording) s.(renderedLoading).

Definition set_blockPlaybackUntilRecordingRef (x : bool) (s : state) : state :=
  mkState s.(isHandsfreeActive) s.(isRecording) s.(isVADActive)
          s.(isLoading) s.(isPlaying) s.(isHandsfreeRef) s.(isLoadingRef)
          s.(isPlayingRef) s.(suppressVADRef) s.(vadArmedRef) s.(vadStopRef)
          x s.(mediaRecorderRef) s.(acquiring) s.(rearmTimers) s.(launched)
          s.(recorders) s.(renderedPlaying) s.(renderedRecording)
          s.(renderedLoading).

Definition set_mediaRecorderRef (x : option recorderState) (s : state) : state :=
  mkState s.(isHandsfreeActive) s.(isRecording) s.(isVADActive)
          s.(isLoading) s.(isPlaying) s.(isHandsfreeRef) s.(isLoadingRef)
          s.(isPlayingRef) s.(suppressVADRef) s.(vadArmedRef) s.(vadStopRef)
          s.(blockPlaybackUntilRecordingRef) x s.(acquiring) s.(rearmTimers)
          s.(launched) s.(recorders) s.(renderedPlaying)
          s.(renderedRecording) s.(renderedLoading).

Definition set_acquiring (x : nat) (s : state) : state :=
  mkState s.(isHandsfreeActive) s.(isRecording) s.(isVADActive)
          s.(isLoading) s.(isPlaying) s.(isHandsfreeRef) s.(isLoadingRef)
          s.(isPlayingRef) s.(suppressVADRef) s.(vadArmedRef) s.(vadStopRef)
          s.(blockPlaybackUntilRecordingRef) s.(mediaRecorderRef) x
          s.(rearmTimers) s.(launched) s.(recorders) s.(renderedPlaying)
          s.(renderedRecording) s.(renderedLoading).

Definition set_rearmTimers (x : nat) (s : state) : state :=
  mkState s.(isHandsfreeActive) s.(isRecording) s.(isVADActive)
          s.(isLoading) s.(isPlaying) s.(isHandsfreeRef) s.(isLoadingRef)
          s.(isPlayingRef) s.(suppressVADRef) s.(vadArmedRef) s.(vadStopRef)
          s.(blockPlaybackUntilRecordingRef) s.(mediaRecorderRef)
          s.(acquiring) x s.(launched) s.(recorders) s.(renderedPlaying)
          s.(renderedRecording) s.(renderedLoading).

Definition set_launched (x : nat) (s : state) : state :=
  mkState s.(isHandsfreeActive) s.(isRecording) s.(isVADActive)
          s.(isLoading) s.(isPlaying) s.(isHandsfreeRef) s.(isLoadingRef)
          s.(isPlayingRef) s.(suppressVADRef) s.(vadArmedRef) s.(vadStopRef)
          s.(blockPlaybackUntilRecordingRef) s.(mediaRecorderRef)
          s.(acquiring) s.(rearmTimers) x s.(recorders) s.(renderedPlaying)
          s.(renderedRecording) s.(renderedLoading).

Definition set_recorders (x : nat) (s : state) : state :=
  mkState s.(isHandsfreeActive) s.(isRecording) s.(isVADActive)
          s.(isLoading) s.(isPlaying) s.(isHandsfreeRef) s.(isLoadingRef)
          s.(isPlayingRef) s.(suppressVADRef) s.(vadArmedRef) s.(vadStopRef)
          s.(blockPlaybackUntilRecordingRef) s.(mediaRecorderRef)
          s.(acquiring) s.(rearmTimers) s.(launched) x s.(renderedPlaying)
          s.(renderedRecording) s.(renderedLoading).

Definition set_renderedPlaying (x : bool) (s : state) : state :=
  mkState s.(isHandsfreeActive) s.(isRecording) s.(isVADActive)
          s.(isLoading) s.(isPlaying) s.(isHandsfreeRef) s.(isLoadingRef)
          s.(isPlayingRef) s.(suppressVADRef) s.(vadArmedRef) s.(vadStopRef)
          s.(blockPlaybackUntilRecordingRef) s.(mediaRecorderRef)
          s.(acquiring) s.(rearmTimers) s.(launched) s.(recorders) x
          s.(renderedRecording) s.(renderedLoading).

Definition set_renderedRecording (x : bool) (s : state) : state :=
  mkState s.(isHandsfreeActive) s.(isRecording) s.(isVADActive)
          s.(isLoading) s.(isPlaying) s.(isHandsfreeRef) s.(isLoadingRef)
          s.(isPlayingRef) s.(suppressVADRef) s.(vadArmedRef) s.(vadStopRef)
          s.(blockPlaybackUntilRecordingRef) s.(mediaRecorderRef)
          s.(acquiring) s.(rearmTimers) s.(launched) s.(recorders)
          s.(renderedPlaying) x s.(renderedLoading).

Definition set_renderedLoading (x : bool) (s : state) : state :=
  mkState s.(isHandsfreeActive) s.(isRecording) s.(isVADActive)
          s.(isLoading) s.(isPlaying) s.(isHandsfreeRef) s.(isLoadingRef)
          s.(isPlayingRef) s.(suppressVADRef) s.(vadArmedRef) s.(vadStopRef)
          s.(blockPlaybackUntilRecordingRef) s.(mediaRecorderRef)
          s.(acquiring) s.(rearmTimers) s.(launched) s.(recorders)
          s.(renderedPlaying) s.(renderedRecording) x.

(** ** The handlers *)

(** [startVADInternal] (lines 463-531): arming, once. *)
Definition startVADInternal (s : state) : state :=
  if s.(vadArmedRef) then s
  else set_isVADActive true (set_vadStopRef true (set_vadArmedRef true s)).

(** [vadStopRef.current?.(); vadStopRef.current = null;
    setIsVADActive(false)] *)
Definition releaseVAD (s : state) : state :=
  set_isVADActive false (set_vadStopRef false s).

(** [stopTTS()] as the hook sees it: the player stops playing. *)
Definition stopTTS (s : state) : state := set_isPlaying false s.

(** [mediaRecorderRef.current?.state === "recording"] *)
Definition recorderRecording (s : state) : bool :=
  match s.(mediaRecorderRef) with
  | Some Recording => true
  | _ => false
  end.

(** [stopRecordingAndSend] (lines 365-374).  Stopping a recorder makes it
    inactive; its onstop handler then uploads the audio. *)
Definition stopRecordingAndSend (s : state) : state :=
  match s.(mediaRecorderRef) with
  | Some _ =>
      set_isLoading true
        (set_suppressVADRef true
           (set_isRecording false (set_mediaRecorderRef (Some Inactive) s)))
  | None => s
  end.

(** The guard of [onStart] (lines 470-478): [true] when the speech start
    is dropped. *)
Definition guarded (s : state) : bool :=
  s.(suppressVADRef) || s.(isPlayingRef) || s.(isLoadingRef)
  || negb s.(isHandsfreeRef) || recorderRecording s.

(** [onStart] (lines 469-521), up to [await getUserMedia]. *)
Definition onStart (s : state) : state :=
  if guarded s then s
  else set_launched (S s.(launched)) (set_acquiring (S s.(acquiring)) s).

(** [onStart] after the microphone is acquired (lines 491-519). *)
Definition micAcquired (s : state) : state :=
  match s.(acquiring) with
  | O => s
  | S n =>
      set_isRecording true
        (set_recorders (S s.(recorders))
           (set_mediaRecorderRef (Some Recording) (set_acquiring n s)))
  end.

(** [setIsHandsfreeActive] (lines 213-236) and the effect of lines 540-557
    that follows the change of state. *)
Definition setIsHandsfreeActive (active : bool) (s : state) : state :=
  if active then
    let s1 := set_isHandsfreeActive true
                (set_suppressVADRef false
                   (set_blockPlaybackUntilRecordingRef true s)) in
    let s2 := set_isHandsfreeRef true s1 in
    if s.(isHandsfreeActive) then s1 else startVADInternal s2
  else
    let s1 := set_isHandsfreeActive false
                (stopTTS (set_blockPlaybackUntilRecordingRef false s)) in
    if s.(isHandsfreeActive) then
      let s2 := set_vadArmedRef false
                  (releaseVAD
                     (set_suppressVADRef false (set_isHandsfreeRef false s1))) in
      if recorderRecording s2 then stopRecordingAndSend s2 else s2
    else s1.

(** [handlePlayTTS] with the handsfree flag (lines 140-159). *)
Definition playHandsfree (s : state) : state :=
  let s1 := releaseVAD (set_suppressVADRef true s) in
  if recorderRecording s1
  then set_isRecording false (set_mediaRecorderRef (Some Inactive) s1)
  else s1.

(** [handleTTSStart] (lines 563-574); the listener is registered while
    handsfree is active. *)
Definition handleTTSStart (s : state) : state :=
  if s.(isHandsfreeActive) then
    set_vadArmedRef false
      (releaseVAD
         (set_suppressVADRef true
            (set_isRecording false (set_isLoading false s))))
  else s.

(** [handleTTSComplete] (lines 576-586): the timeout is set. *)
Definition handleTTSComplete (s : state) : state :=
  if s.(isHandsfreeActive) then set_rearmTimers (S s.(rearmTimers)) s else s.

(** The timeout of [handleTTSComplete] fires.  The test of line 579 reads
    the [isHandsfreeActive] of the render that registered the listener,
    which is [true]. *)
Definition rearm (s : state) : state :=
  match s.(rearmTimers) with
  | O => s
  | S n =>
      startVADInternal
        (set_suppressVADRef false
           (set_isRecording false (set_isLoading false (set_rearmTimers n s))))
  end.

(** The effect of lines 183-205; [playing] and [recording] are the
    [isPlaying] and [isRecording] of the render whose commit runs it. *)
Definition blockEffect (playing recording : bool) (s : state) : state :=
  if negb s.(blockPlaybackUntilRecordingRef) then s
  else if recording then set_blockPlaybackUntilRecordingRef false s
  else if playing then
    startVADInternal
      (set_suppressVADRef false
         (set_blockPlaybackUntilRecordingRef false (stopTTS s)))
  else s.

(** The effects of a commit, in the order of the source, each run when one
    of its dependencies differs from what the commit before rendered:
    lines 176-178 on [isPlaying], lines 183-205 on [isPlaying] and
    [isRecording] ([stopTTS], the third dependency, is the same function
    at every render), lines 207-209 on [isLoading].  The commit renders
    the state as it is when the effects start. *)
Definition effects (s : state) : state :=
  let playingChanged := negb (Bool.eqb s.(isPlaying) s.(renderedPlaying)) in
  let recordingChanged :=
    negb (Bool.eqb s.(isRecording) s.(renderedRecording)) in
  let loadingChanged := negb (Bool.eqb s.(isLoading) s.(renderedLoading)) in
  let rendered :=
    set_renderedLoading s.(isLoading)
      (set_renderedRecording s.(isRecording)
         (set_renderedPlaying s.(isPlaying) s)) in
  let s1 := if playingChanged then set_isPlayingRef s.(isPlaying) rendered
            else rendered in
  let s2 := if playingChanged || recordingChanged
            then blockEffect s.(isPlaying) s.(isRecording) s1 else s1 in
  if loadingChanged then set_isLoadingRef s.(isLoading) s2 else s2.

(** The callbacks of the detector reach the hook only from a detector that
    runs: one whose stop function [vadStopRef] holds.  A detector that has
    been stopped fires nothing. *)
Definition detectorRuns (s : state) : bool := s.(vadStopRef).

Definition step (s : state) (e : event) : state :=
  match e with
  | SetHandsfree active => setIsHandsfreeActive active s
  | VadSpeechStart => if detectorRuns s then onStart s else s
  | VadSpeechStop => if detectorRuns s then stopRecordingAndSend s else s
  | MicAcquired => micAcquired s
  | PlayHandsfree => playHandsfree s
  | TtsStartedFlag => handleTTSStart s
  | TtsOnComplete => handleTTSComplete s
  | RearmTimer => rearm s
  | PlayingChanged playing => set_isPlaying playing s
  | UploadDone => if s.(isHandsfreeRef) then s else set_isLoading false s
  | Effects => effects s
  end.

Definition run (s : state) (es : list event) : state := fold_left step es s.

(** ** The properties in question *)

(** The three conditions of the handsfree invariant. *)
Definition vadArmed (s : state) : bool := s.(vadArmedRef).

Definition recordingInProgress (s : state) : bool := recorderRecording s.

Definition ttsPlaying (s : state) : bool := s.(isPlaying).

Definition countTrue (bs : list bool) : nat :=
  length (List.filter (fun b => b) bs).

(** At most one of the three holds. *)
Definition atMostOnePhase (s : state) : bool :=
  Nat.leb (countTrue [vadArmed s; recordingInProgress s; ttsPlaying s]) 1.

(** Events that neither toggle handsfree nor fire the debounce of
    "playback complete". *)
Definition beforeRearm (e : event) : bool :=
  match e with
  | SetHandsfree _ | RearmTimer => false
  | _ => true
  end.

(** From the "playback started" signal on, while handsfree stays active:
    the detector is disarmed, its loop is stopped, speech starts are
    suppressed, and no playback is to be cancelled for a first recording. *)
Definition playbackWindow (s : state) : bool :=
  s.(isHandsfreeActive) && s.(suppressVADRef) && negb s.(vadArmedRef)
  && negb s.(vadStopRef) && negb s.(blockPlaybackUntilRecordingRef).

(** Events that neither stop a recorder nor disarm the detector: all but
    the closing silence, a handsfree playback call, the "playback started"
    signal and switching handsfree off. *)
Definition keepsRecording (e : event) : bool :=
  match e with
  | VadSpeechStop | PlayHandsfree | TtsStartedFlag | SetHandsfree false => false
  | _ => true
  end.

(** The refs written by the effects hold what the last commit rendered. *)
Definition synced (s : state) : bool :=
  Bool.eqb s.(isPlayingRef) s.(renderedPlaying)
  && Bool.eqb s.(isLoadingRef) s.(renderedLoading).

(** A cycle up to the reply: handsfree is switched on, the user speaks and
    falls silent, and the reply is about to be played. *)
Definition replyReady : state :=
  run initial [SetHandsfree true; Effects; VadSpeechStart; MicAcquired;
               Effects; VadSpeechStop; Effects; UploadDone; PlayHandsfree].

End Handsfree.

(* ===================================================================== *)
(** * Voice activity detector: predicates of its further properties *)
(* ===================================================================== *)

Module VADProps.

Import VAD.

(** At most one timeout is pending, and it is the one [silenceTimer]
    names. *)
Definition oneTimer (s : state) : Prop :=
  pendingTimers s = []
  \/ exists h, silenceTimer s = Some h /\ pendingTimers s = [h].

(** After a failed initialisation nothing is requested from the browser. *)
Definition inert (s : state) : Prop :=
  pendingFrame s = None /\ pendingTimers s = [] /\ initPending s = false.

(** Frames below the threshold only. *)
Definition quietFrames (volumeThreshold : Z) (es : list event) : bool :=
  forallb (fun e => match e with
                    | Frame samples _ => negb (isLoud volumeThreshold samples)
                    | _ => true
                    end) es.

(** Not speaking, and no timeout pending. *)
Definition silent (s : state) : Prop :=
  isSpeaking s = false /\ pendingTimers s = [].

(** No timeout fires. *)
Definition noTimeout (es : list event) : bool :=
  forallb (fun e => match e with Timeout _ _ => false | _ => true end) es.

(** A run of frames at the silence baseline, with a stray timeout and a
    stop call. *)
Definition quietRun : list event :=
  [InitSettled true; Frame [128; 130; 126] false; Timeout 1%positive false;
   Frame [127; 129] true; Stop].

(** Loud frames, a quiet one, a loud one; no timeout fires. *)
Definition loudRun : list event :=
  [InitSettled true; Frame [255; 0] false; Frame [255; 0] false;
   Frame [128] false; Frame [0; 255] false].

(** The detector is initialised and its first frame is requested. *)
Definition reentrantRun : list event := [InitSettled true].

(** What follows a stop called inside [onStart]: the timeout the
    interrupted loop went on to set fires, frames arrive, stop is called
    again. *)
Definition afterReentrantStop : list event :=
  [Timeout 2%positive false; Frame [255; 0] false; Stop;
   Timeout 2%positive true].

End VADProps.

(* ===================================================================== *)
(** * Handsfree orchestrator: further notions *)
(* ===================================================================== *)

Module HandsfreeProps.

Import Handsfree.

(** The indicator [isVADActive] and the stop function held in [vadStopRef]
    go together, and a held stop function means the detector is armed. *)
Definition detectorTracked (s : state) : bool :=
  Bool.eqb s.(isVADActive) s.(vadStopRef)
  && implb s.(vadStopRef) s.(vadArmedRef).

(** Events other than switching handsfree on. *)
Definition keepsOff (e : event) : bool :=
  match e with
  | SetHandsfree true => false
  | _ => true
  end.

(** A run with handsfree off throughout: speech, a late microphone, window
    events of a player, a late debounce. *)
Definition offRun : list event :=
  [VadSpeechStart; MicAcquired; TtsStartedFlag; TtsOnComplete; RearmTimer;
   Effects; VadSpeechStart; SetHandsfree false; VadSpeechStart].

(** Handsfree is off and a turn plays, started by hand and rendered. *)
Definition playingRendered : state :=
  run initial [PlayingChanged true; Effects].

End HandsfreeProps.
(* ===================================================================== *)
(** * TTS player: further notions *)
(* ===================================================================== *)

Module PlayerProps.

Import JsString TTSPlayer.

(** Continuations other than the one that waits for [el.play()]. *)
Definition noPlayWait (k : kont) : bool :=
  match k with
  | K_next_played _ _ => false
  | _ => true
  end.

Definition waitersOf (p : promise) : list kont :=
  match p with
  | Pending waiters => waiters
  | Fulfilled _ => []
  end.

(** The buffers started so far, then those still queued, are the buffers
    enqueued so far, in order. *)
Definition fifo (s : state) : Prop :=
  startedOrder s.(trace) ++ s.(playQueue) = enqueuedOrder s.(trace).

(** The element carries no stream, the queue is served in order, and
    nothing waits for [el.play()]. *)
Definition streamless (s : state) : Prop :=
  s.(hasStream) = false
  /\ fifo s
  /\ Forall (fun p => Forall (fun k => noPlayWait k = true) (waitersOf p))
            s.(promises)
  /\ Forall (fun kv => noPlayWait (fst kv) = true) s.(microtasks)
  /\ Forall (fun ek => noPlayWait (snd ek) = true) s.(parked).

(** A computation keeps [streamless]. *)
Definition keeps {A} (m : M A) : Prop :=
  forall s, streamless s -> streamless (snd (m s)).

(** What [streamless] reads of a state. *)
Definition core (s : state)
  : bool * list QueueItem * list obs * list promise
    * list (kont * value) * list (external * kont) :=
  (s.(hasStream), s.(playQueue), s.(trace), s.(promises), s.(microtasks),
   s.(parked)).

(** Observations other than a push on the queue and a start of a node. *)
Definition quietObs (o : obs) : bool :=
  match o with
  | Enqueued _ | Started _ _ => false
  | _ => true
  end.

(** The buffer a continuation that waits for [el.play()] is about to
    start. *)
Definition playWait (k : kont) : list QueueItem :=
  match k with
  | K_next_played _ item => [item]
  | _ => []
  end.

(** The buffers taken off the queue and not started yet. *)
Definition awaitingPlay (s : state) : list QueueItem :=
  flat_map (fun kv => playWait (fst kv)) s.(microtasks)
  ++ flat_map (fun ek => playWait (snd ek)) s.(parked).

(** Every buffer enqueued is started, about to be started, or queued. *)
Definition accounted (s : state) : Prop :=
  Permutation (startedOrder s.(trace) ++ awaitingPlay s ++ s.(playQueue))
              (enqueuedOrder s.(trace))
  /\ Forall (fun p => Forall (fun k => noPlayWait k = true) (waitersOf p))
            s.(promises).

(** A computation keeps [accounted]. *)
Definition accounts {A} (m : M A) : Prop :=
  forall s, accounted s -> accounted (snd (m s)).

End PlayerProps.
(* ===================================================================== *)
(** * TTS player: whole turns *)
(* ===================================================================== *)

Module PlayerTurns.

Import JsString TTSPlayer Scenarios.

(** The queue items of a turn: the intro of a text cut in two, and the
    chunk that ends a turn. *)
Definition introItem (m : string) (b : AudioBuffer) : QueueItem :=
  mkItem b m false false None.

Definition lastItem (m : string) (b : AudioBuffer) (h : bool)
  (cb : option string) : QueueItem :=
  mkItem b m h true cb.

(** The requests made to the TTS endpoint: key and text, in order. *)
Definition posted (t : list obs) : list (string * jsstring) :=
  omap (fun o => match o with Posted k body => Some (k, body) | _ => None end) t.

(** The completion signals: calls of the completion callback and dispatches
    of "tts-oncomplete", in order. *)
Definition completions (t : list obs) : list obs :=
  List.filter (fun o => match o with
                        | Called _ | Dispatched TtsOnComplete => true
                        | _ => false
                        end) t.

(** The completion signals before and after the end of [node]. *)
Definition completionsAround (node : nat) (t : list obs)
  : option (list obs * list obs) :=
  match splitAtEnded node t with
  | Some (before, after) => Some (completions before, completions after)
  | None => None
  end.

(** The signals a turn owes at its end. *)
Definition owed (h : bool) (cb : option string) : list obs :=
  match cb with Some callback => [Called callback] | None => [] end
  ++ (if h then [Dispatched TtsOnComplete] else []).

(** Nothing is playing, queued or pending. *)
Definition atRest (s : state) : Prop :=
  s.(scheduled) = [] /\ s.(playQueue) = [] /\ s.(timers) = []
  /\ s.(microtasks) = [] /\ s.(parked) = []
  /\ s.(isPlaying) = false /\ s.(currentNode) = None
  /\ s.(currentMessageId) = None /\ s.(isDequeuing) = false.

(** [el.play()] settles, where the element carries the stream. *)
Definition elementPlays (stream : bool) : list task :=
  if stream then [Settles ExtPlay VUnit] else [].

(** Both chunks play to their end and the timeouts fire. *)
Definition bothPlay (stream : bool) : list task :=
  elementPlays stream ++ [NodeEnds 0] ++ elementPlays stream
  ++ [NodeEnds 1; TimerFires; TimerFires].

(** The chunks of a second turn play to their end and the timeouts fire. *)
Definition replayPlays (stream : bool) : list task :=
  elementPlays stream ++ [NodeEnds 2] ++ elementPlays stream
  ++ [NodeEnds 3; TimerFires; TimerFires].

(** The one chunk plays to its end and the timeouts fire. *)
Definition onePlays (stream : bool) : list task :=
  elementPlays stream ++ [NodeEnds 0; TimerFires; TimerFires].

(** A turn of two chunks, played to its end. *)
Definition twoChunkTurn (m : string) (i r : jsstring) (b1 b2 : AudioBuffer)
  (h : bool) (cb : option string) (s : state) : Prop :=
  posted s.(trace) = [(m +:+ "-0", i); (m +:+ "-1", r)]
  /\ enqueuedOrder s.(trace) = [introItem m b1; lastItem m b2 h cb]
  /\ startedOrder s.(trace) = [introItem m b1; lastItem m b2 h cb]
  /\ peakScheduled s.(trace) = 1%nat
  /\ completionsAround 1 s.(trace) = Some ([], owed h cb)
  /\ atRest s.

(** A turn of one chunk, played to its end. *)
Definition oneChunkTurn (m : string) (i : jsstring) (b : AudioBuffer)
  (u : AudioUsage) (h : bool) (cb : option string) (s : state) : Prop :=
  posted s.(trace) = [(m +:+ "-0", i)]
  /\ enqueuedOrder s.(trace) = [lastItem m b h cb]
  /\ startedOrder s.(trace) = [lastItem m b h cb]
  /\ completionsAround 0 s.(trace) = Some ([], owed h cb)
  /\ returnedWith 0 s
     = [match u with
        | Some u => Some (mkUsage (u.(cost) + 0) (u.(char_count) + 0)
                                  u.(latency))%float
        | None => None
        end]
  /\ atRest s.

(** The number of times a function of the hook threw. *)
Definition thrown (t : list obs) : nat :=
  length (List.filter (fun o => match o with Rejected => true | _ => false end) t).

(** A turn whose intro cannot be fetched.  [threw]: the request was
    rejected and [playTTS] threw at [await introP]; otherwise the request
    was answered without audio and [playTTS] returned [null]. *)
Definition silentTurn (threw : bool) (s : state) : Prop :=
  returnedWith 0 s = (if threw then [] else [None])
  /\ thrown s.(trace) = (if threw then 1 else 0)%nat
  /\ enqueuedOrder s.(trace) = [] /\ startedOrder s.(trace) = []
  /\ completions s.(trace) = []
  /\ dispatches TtsStartedFlag s.(trace) = 0%nat
  /\ atRest s.

(** The request for the remainder settles with [v], when the text has a
    remainder. *)
Definition remainderSettles (r : option jsstring) (v : value) : list task :=
  match r with
  | Some _ => [Settles (ExtFetch 0 1) v]
  | None => []
  end.

(** The hook before the audio context could be started. *)
Definition suspended (stream : bool) : state :=
  set_ctxRunning false (initial stream).

End PlayerTurns.
(* ===================================================================== *)
(** * TTS player: stopping (teardownPipeline, stopTTS of useTTSPlayer.ts) *)
(* ===================================================================== *)

Module PlayerStop.

Import JsString TTSPlayer Scenarios PlayerTurns.

(** [teardownPipeline] (lines 306-315).  [currentNodeRef.current?.stop(0)]
    asks the browser to end the node; the browser then fires its [ended]
    event, a task of its own. *)
Definition teardownPipeline : M unit :=
  let* _ := modify (set_currentNode None) in
  let* _ := modify (set_playQueue []) in
  let* _ := modify (set_isDequeuing false) in
  let* _ := modify (set_isPlaying false) in
  modify (set_currentMessageId None).

(** [stopTTS] (lines 670-678): the teardown, and the element is paused. *)
Definition stopTTS : M unit := teardownPipeline.

(** A task that calls [stopTTS], with its microtask checkpoint. *)
Definition stopped (s : state) : state :=
  drain checkpointFuel (snd (stopTTS s)).

(** The stopped node ends and the timeouts fire. *)
Definition stoppedNodeEnds : list task := [NodeEnds 0; TimerFires; TimerFires].

(** The remainder arrives after the stop and plays to its end. *)
Definition lateRemainder (stream : bool) (d : DecodedAudio) : list task :=
  [Settles (ExtFetch 0 1) (VDecoded (Some d))] ++ elementPlays stream
  ++ [NodeEnds 1; TimerFires; TimerFires].

(** The first buffer of a turn is playing. *)
Definition firstPlaying (stream : bool) (c : call) (d : DecodedAudio)
  : list task :=
  [Calls [c]; Settles (ExtFetch 0 0) (VDecoded (Some d))]
  ++ elementPlays stream.

End PlayerStop.
(* ===================================================================== *)
(** * Theorems *)
(* ===================================================================== *)

(** ** Voice activity detector *)

Section VADFacts.

Import VAD.

Variable volumeThreshold : Z.

Lemma vad_stop_isSpeaking (s : state) : isSpeaking (stop s) = isSpeaking s.
Proof.
  unfold stop; simpl.
  destruct (rafId s); simpl; destruct (silenceTimer s); reflexivity.
Qed.

Lemma vad_stop_stopped (s : state) : stopped (stop s) = true.
Proof.
  unfold stop; simpl.
  destruct (rafId s); simpl; destruct (silenceTimer s); reflexivity.
Qed.

Lemma vad_fire_isSpeaking (r : bool) (s : state) :
  isSpeaking (fire r s) = isSpeaking s.
Proof. destruct r; simpl; [apply vad_stop_isSpeaking | reflexivity]. Qed.

Lemma vad_fire_stopped (r : bool) (s : state) :
  stopped s = true -> stopped (fire r s) = true.
Proof. destruct r; simpl; [intros _; apply vad_stop_stopped | trivial]. Qed.

(** What one event can do to the pair (speaking flag, callbacks). *)
Inductive step_shape (s s' : state) : list callback -> Prop :=
| shape_silent :
    isSpeaking s' = isSpeaking s -> step_shape s s' []
| shape_start :
    isSpeaking s = false -> isSpeaking s' = true -> stopped s = false ->
    step_shape s s' [OnStart]
| shape_stop :
    isSpeaking s = true -> isSpeaking s' = false -> stopped s = false ->
    step_shape s s' [OnStop].

Lemma vad_step_shape (s : state) (e : event) :
  step_shape s (fst (step volumeThreshold s e)) (snd (step volumeThreshold s e)).
Proof.
  destruct e as [ok | samples r | h r | ]; simpl.
  - destruct (initPending s); simpl; [| now constructor].
    destruct ok; simpl; now constructor.
  - destruct (pendingFrame s); simpl; [| now constructor].
    unfold loop; simpl.
    destruct (stopped s) eqn:Hst; simpl; [now constructor |].
    destruct (isLoud volumeThreshold samples); simpl; [| now constructor].
    destruct (isSpeaking s) eqn:Hsp; simpl.
    + destruct (silenceTimer s); simpl; constructor; simpl; congruence.
    + match goal with
      | |- context [fire r ?x] =>
          pose proof (vad_fire_isSpeaking r x) as Hf; simpl in Hf
      end.
      match goal with
      | |- context [silenceTimer ?x] => destruct (silenceTimer x)
      end; simpl; apply shape_start; simpl; congruence.
  - destruct (existsb (Pos.eqb h) (pendingTimers s)); simpl; [| now constructor].
    unfold onSilence; simpl.
    destruct (isSpeaking s) eqn:Hsp; simpl; [| now constructor].
    destruct (stopped s) eqn:Hst; simpl; [now constructor |].
    apply shape_stop; simpl; trivial.
    now rewrite vad_fire_isSpeaking.
  - constructor. apply vad_stop_isSpeaking.
Qed.

Lemma vad_step_stopped (s : state) (e : event) :
  stopped s = true ->
  stopped (fst (step volumeThreshold s e)) = true
  /\ snd (step volumeThreshold s e) = [].
Proof.
  intros Hst.
  destruct e as [ok | samples r | h r | ]; simpl.
  - destruct (initPending s); simpl; [| auto].
    destruct ok; simpl; auto.
  - destruct (pendingFrame s); simpl; [| auto].
    unfold loop; simpl. rewrite Hst. simpl; auto.
  - destruct (existsb (Pos.eqb h) (pendingTimers s)); simpl; [| auto].
    unfold onSilence; simpl. rewrite Hst.
    rewrite andb_false_r. simpl; auto.
  - split; [apply vad_stop_stopped | reflexivity].
Qed.

Lemma vad_run_cons (s : state) (e : event) (es : list event) :
  run volumeThreshold s (e :: es) =
  (fst (run volumeThreshold (fst (step volumeThreshold s e)) es),
   snd (step volumeThreshold s e)
   ++ snd (run volumeThreshold (fst (step volumeThreshold s e)) es)).
Proof.
  simpl. destruct (step volumeThreshold s e) as [s1 o1]; simpl.
  destruct (run volumeThreshold s1 es); reflexivity.
Qed.

Lemma vad_run_app (es1 es2 : list event) (s : state) :
  run volumeThreshold s (es1 ++ es2) =
  (fst (run volumeThreshold (fst (run volumeThreshold s es1)) es2),
   snd (run volumeThreshold s es1)
   ++ snd (run volumeThreshold (fst (run volumeThreshold s es1)) es2)).
Proof.
  revert s; induction es1 as [| e es1 IH]; intros s.
  - simpl. destruct (run volumeThreshold s es2); reflexivity.
  - rewrite <- app_comm_cons, !vad_run_cons, IH. simpl.
    now rewrite app_assoc.
Qed.

Lemma vad_run_stopped (es : list event) (s : state) :
  stopped s = true ->
  stopped (fst (run volumeThreshold s es)) = true
  /\ snd (run volumeThreshold s es) = [].
Proof.
  revert s; induction es as [| e es IH]; intros s Hst; [simpl; auto |].
  rewrite vad_run_cons; simpl.
  destruct (vad_step_stopped s e Hst) as [H1 H2].
  destruct (IH _ H1) as [H3 H4].
  now rewrite H2, H4.
Qed.

Lemma vad_run_alternates (es : list event) (s : state) :
  alternates (negb (isSpeaking s)) (snd (run volumeThreshold s es)) = true.
Proof.
  revert s; induction es as [| e es IH]; intros s; [reflexivity |].
  rewrite vad_run_cons. cbn [snd].
  pose proof (vad_step_shape s e) as Hs.
  specialize (IH (fst (step volumeThreshold s e))).
  destruct (step volumeThreshold s e) as [s1 out]; cbn [fst snd] in *.
  destruct Hs as [Heq | H0 H1 _ | H0 H1 _]; cbn [app alternates].
  - now rewrite <- Heq.
  - rewrite H0; simpl. now rewrite H1 in IH.
  - rewrite H0; simpl. now rewrite H1 in IH.
Qed.

Lemma vad_alternates_count (t : list callback) (b : bool) :
  alternates b t = true ->
  (count OnStop t <= count OnStart t + (if b then 0 else 1))%nat.
Proof.
  revert b; induction t as [| c t IH]; intros b H.
  - unfold count; simpl; lia.
  - destruct c, b; simpl in H; try discriminate;
      specialize (IH _ H); unfold count in *; simpl in *; lia.
Qed.

(** C3.  Whatever frames, timeouts and stop calls reach a detector started
    by [startVAD], its callbacks alternate, the first being [onStart], and
    after every prefix of the events [onStop] has fired no more often than
    [onStart]. *)
Theorem vad_callbacks_alternate (es : list event) :
  alternates true (callbacks volumeThreshold es) = true
  /\ forall n : nat,
       (count OnStop (callbacks volumeThreshold (firstn n es))
        <= count OnStart (callbacks volumeThreshold (firstn n es)))%nat.
Proof.
  split.
  - apply (vad_run_alternates es initial).
  - intros n.
    pose proof (vad_alternates_count _ _
                  (vad_run_alternates (firstn n es) initial)) as H.
    simpl in H. unfold callbacks. lia.
Qed.

Lemma vad_invokesStop_stopped (s : state) (e : event) :
  invokesStop volumeThreshold s e = true ->
  stopped (fst (step volumeThreshold s e)) = true.
Proof.
  destruct e as [ok | samples r | h r | ]; cbn [invokesStop];
    [discriminate | | | intros _; apply vad_stop_stopped].
  - intros H. apply andb_prop in H as [-> H]. revert H. cbn [step].
    destruct (pendingFrame s); [| discriminate].
    unfold loop. cbn [stopped isSpeaking].
    destruct (stopped s); [discriminate |].
    destruct (isLoud volumeThreshold samples); [| discriminate].
    destruct (isSpeaking s); cbn [negb]; [now destruct (silenceTimer s) |].
    intros _. cbn [fire].
    match goal with
    | |- context [stop ?x] => pose proof (vad_stop_stopped x) as Hs
    end.
    destruct (silenceTimer (stop _)); cbn; exact Hs.
  - intros H. apply andb_prop in H as [-> H]. revert H. cbn [step].
    destruct (existsb (Pos.eqb h) (pendingTimers s)); [| discriminate].
    unfold onSilence.
    destruct (isSpeaking (clearTimeout h s) && negb (stopped (clearTimeout h s)));
      [| discriminate].
    intros _. cbn [fst fire]. apply vad_stop_stopped.
Qed.

(** C10.  Once the stop function has been invoked, no callback is fired
    any more and the detector stays stopped, whatever follows: frames,
    further calls of stop, and timeouts, including a timeout that was set
    after the call, by the loop that a re-entrant call interrupted.  This
    holds from every state in which [stopped] is set; and [stopped] is set
    by every invocation: by the caller, or by a callback that calls stop
    before it returns. *)
Theorem vad_quiescent_after_stop :
  (forall (s : state) (es : list event),
     stopped s = true ->
     snd (run volumeThreshold s es) = []
     /\ stopped (fst (run volumeThreshold s es)) = true)
  /\ (forall (es1 : list event) (e : event) (es2 : list event),
        invokesStop volumeThreshold
          (fst (run volumeThreshold initial es1)) e = true ->
        stopped (fst (run volumeThreshold initial (es1 ++ [e]))) = true
        /\ callbacks volumeThreshold (es1 ++ e :: es2)
           = callbacks volumeThreshold (es1 ++ [e])
        /\ stopped (fst (run volumeThreshold initial (es1 ++ e :: es2)))
           = true).
Proof.
  split.
  - intros s es H. destruct (vad_run_stopped es s H). auto.
  - intros es1 e es2 H.
    pose proof (vad_invokesStop_stopped _ e H) as Hs.
    unfold callbacks.
    rewrite !vad_run_app. cbn [fst snd].
    rewrite !(vad_run_cons (fst (run volumeThreshold initial es1)) e).
    cbn [fst snd run].
    destruct (vad_run_stopped es2 _ Hs) as [H1 H2].
    rewrite H2, !app_nil_r. auto.
Qed.

End VADFacts.


Lemma vad_quiescent_after_stop_witness :
  VAD.invokesStop 10 (fst (VAD.run 10 VAD.initial VADProps.reentrantRun))
    (VAD.Frame [255; 0] true) = true
  /\ VAD.callbacks 10
       (VADProps.reentrantRun
        ++ VAD.Frame [255; 0] true :: VADProps.afterReentrantStop)
     = [VAD.OnStart]
  /\ VAD.stopped
       (fst (VAD.run 10 VAD.initial
               (VADProps.reentrantRun
                ++ VAD.Frame [255; 0] true :: VADProps.afterReentrantStop)))
     = true.
Proof.
  split; [reflexivity |].
  destruct (proj2 (vad_quiescent_after_stop 10) VADProps.reentrantRun
              (VAD.Frame [255; 0] true) VADProps.afterReentrantStop eq_refl)
    as (_ & H2 & H3).
  split; [exact (eq_trans H2 eq_refl) | exact H3].
Defined.
(** ** Text chunker *)

Section ChunkerFacts.

Import JsString Chunker.

Example chunker_short :
  chunkTextForTTS (lit "Hi.") = (lit "Hi.", None).
Proof. reflexivity. Qed.

Example splitSentences_trailing :
  splitSentences (lit "Hi.  there. ") = [lit "Hi."; lit "there."; []].
Proof. reflexivity. Qed.

(** The first piece of a split is a prefix of the text, and it is not
    empty when the text is not: no match starts at the first code unit. *)
Lemma splitSentencesFrom_head (s cur : jsstring) (afterEnd : bool) :
  exists pre post rest,
    splitSentencesFrom false afterEnd cur s = (rev cur ++ pre) :: rest
    /\ s = pre ++ post
    /\ (afterEnd = false -> s <> [] -> pre <> []).
Proof.
  revert cur afterEnd; induction s as [| c s IH]; intros cur afterEnd.
  - exists [], [], []. simpl. rewrite app_nil_r. auto.
  - simpl. destruct (isWhiteSpace c && afterEnd) eqn:Hm.
    + exists [], (c :: s), (splitSentencesFrom true false [] s).
      rewrite app_nil_r. repeat split; trivial.
      intros ->. now rewrite andb_false_r in Hm.
    + destruct (IH (c :: cur) (isSentenceEnd c))
        as (pre & post & rest & H1 & H2 & _).
      exists (c :: pre), post, rest. repeat split.
      * rewrite H1. simpl. now rewrite <- app_assoc.
      * simpl. now rewrite H2.
      * discriminate.
Qed.

(** X7.  When the first sentence is long enough to stand alone, the chunker
    cuts the text in two: the intro is a prefix and the remainder is the
    rest, trimmed. *)
Lemma chunker_long_first_partitions (text : jsstring) :
  (80 < length text)%nat ->
  let first := nth 0 (List.filter truthy (splitSentences text)) [] in
  (30 <= length first)%nat ->
  exists rest,
    text = first ++ rest
    /\ chunkTextForTTS text
       = (first, if truthy (trim rest) then Some (trim rest) else None).
Proof.
  intros Hlen first Hfirst.
  unfold chunkTextForTTS.
  destruct (Nat.leb_spec (length text) 80) as [Hle | _]; [lia |].
  fold first.
  destruct (Nat.leb_spec 30 (length first)) as [_ | Hlt]; [| lia].
  unfold first in *. unfold splitSentences in *.
  destruct (splitSentencesFrom_head text [] false)
    as (pre & post & rest & H1 & H2 & H3).
  rewrite H1 in *. simpl in *.
  destruct pre as [| c pre]; simpl in *.
  { exfalso. apply H3; trivial. intros ->. simpl in Hlen. lia. }
  exists post. split; [exact H2 |].
  unfold sliceFrom. rewrite H2. cbn [skipn length].
  change (skipn (length pre) (pre ++ post)) with (drop (length pre) (pre ++ post)).
  now rewrite drop_app_length.
Qed.

(** C6 at the two-paragraph reply.  The text has 85 code units.  Its first
    sentence is short, so the intro is the first two sentences joined by one
    space, one code unit shorter than the span they take in the text, where
    a blank line separates them.  The slice taken at the intro's length
    therefore starts on the last code unit of the intro, and the remainder
    is the final full stop again: the reconstruction has a code unit that
    the text has not. *)
Theorem chunker_roundtrip_blank_line :
  length twoParagraphs = 85%nat
  /\ chunkTextForTTS twoParagraphs
     = (lit "Okay. Let me explain how the playback queue works in this application, step by step.",
        Some (lit "."))
  /\ content (reconstruct (chunkTextForTTS twoParagraphs))
     = content twoParagraphs ++ lit "."
  /\ content (reconstruct (chunkTextForTTS twoParagraphs))
     <> content twoParagraphs.
Proof.
  repeat split; try reflexivity.
  vm_compute. discriminate.
Qed.

End ChunkerFacts.

(** ** TTS player *)

Section PlayerFacts.

Import JsString TTSPlayer Scenarios.

Lemma drain_plus (a b : nat) (s : state) :
  drain (a + b) s = drain b (drain a s).
Proof.
  revert s; induction a as [| a IH]; intros s; [reflexivity |].
  cbn [Nat.add drain].
  destruct (microtasks s) as [| [k v] rest] eqn:E.
  - destruct b; cbn [drain]; rewrite ?E; reflexivity.
  - apply IH.
Qed.

(** The job that resumes [playTTS] after [ensurePlaybackReady], once the
    chunks of the text are known. *)
Lemma drain_play_ready (n : nat) (c : call) (s : state)
  (rest : list (kont * value)) (i : jsstring) (r : option jsstring) :
  microtasks s = (K_play_ready c, VBool true) :: rest ->
  Chunker.chunkTextForTTS c.(text) = (i, r) ->
  drain (S n) s = drain n (snd (playTTS_chunks c i r (set_microtasks rest s))).
Proof.
  intros E H. cbn [drain]. rewrite E. cbn [resume].
  unfold playTTS_ready. cbn [negb]. now rewrite H.
Qed.

(** The first task of a run from the initial state, a single call, with the
    chunks of its text. *)
Lemma step_first_call (stream : bool) (c : call) (i : jsstring)
  (r : option jsstring) :
  Chunker.chunkTextForTTS c.(text) = (i, r) ->
  step (initial stream) (Calls [c])
  = drain 62 (snd (playTTS_chunks c i r
       (set_microtasks [] (drain 1 (snd (handle (Calls [c]) (initial stream))))))).
Proof.
  intros H. unfold step, checkpointFuel.
  change 64%nat with (1 + 63)%nat. rewrite drain_plus.
  destruct stream, c as [id m t h cb];
    (erewrite drain_play_ready; [reflexivity | reflexivity | exact H]).
Qed.

(** Evaluation of a run that starts with one call whose text has the
    chunks of [H]. *)
Ltac first_call H :=
  unfold run; cbn [fold_left app];
  match goal with
  | |- context [step (initial ?st) (Calls [?c])] =>
      match type of H with
      | _ = (?i, ?r) => rewrite (step_first_call st c i r H)
      end
  end.

Ltac member := solve [repeat (first [left; reflexivity | right])].








End PlayerFacts.

(** ** Transcription upload *)

Section TranscribeFacts.

Import JsString Transcribe.

Variable JSON_parse : jsstring -> option json.
Variable toText : json -> jsstring.

Local Abbreviation forLines := (forLines JSON_parse toText).
Local Abbreviation readLoop := (readLoop JSON_parse toText).
Local Abbreviation sendAudioToAPI := (sendAudioToAPI JSON_parse toText).
Local Abbreviation deltas := (deltas JSON_parse toText).
Local Abbreviation usageAfter := (usageAfter JSON_parse).
Local Abbreviation transcript := (transcript JSON_parse toText).
Local Abbreviation usageSeen := (usageSeen JSON_parse).
Local Abbreviation emitted := (emitted JSON_parse toText).

(** The [for] loop against the lines read as events. *)
Lemma forLines_events (lines : list jsstring) (acc : locals) (s : state) :
  s.(emittedRef) = false ->
  let es := map classify lines in
  let acc' := (fst acc ++ List.concat (deltas (beforeDone es)),
               usageAfter (snd acc) (beforeDone es)) in
  forLines lines acc s
  = if existsb isDone es
    then (inr (acc', true), afterDone (fst acc') (snd acc') s)
    else (inr (acc', false), s).
Proof.
  intros Hs. revert acc.
  induction lines as [| line lines IH]; intros acc; cbn zeta.
  - cbn. rewrite app_nil_r. now destruct acc.
  - cbn [map forLines].
    remember (classify line) as ev eqn:Hev. unfold classify in Hev.
    destruct (startsWith (lit "data: ") line).
    + destruct (eqb (dataOf line) (lit "[DONE]")); subst ev.
      * cbn [existsb isDone orb beforeDone Transcribe.deltas flat_map
             List.concat Transcribe.usageAfter fold_left].
        rewrite app_nil_r. unfold bind, get_emittedRef. rewrite Hs.
        cbn [negb andb fst snd]. unfold afterDone.
        destruct (truthy (trim (fst acc))); now destruct acc.
      * cbn [existsb isDone orb beforeDone Transcribe.deltas flat_map
             Transcribe.usageAfter fold_left].
        rewrite IH. cbn zeta. unfold onData.
        destruct (JSON_parse (dataOf line)) as [parsed |].
        -- destruct (isDelta parsed).
           ++ cbn [fst snd List.concat app]. now rewrite <- !app_assoc.
           ++ destruct (usageEvent parsed); reflexivity.
        -- reflexivity.
    + subst ev. cbn [existsb isDone orb beforeDone Transcribe.deltas flat_map
                     Transcribe.usageAfter fold_left app].
      rewrite IH. reflexivity.
Qed.

Lemma beforeDone_app (a b : list event) :
  beforeDone (a ++ b)
  = if existsb isDone a then beforeDone a else a ++ beforeDone b.
Proof.
  induction a as [| e a IH]; [reflexivity |].
  cbn [app beforeDone existsb]. destruct (isDone e); [reflexivity |].
  cbn [orb]. rewrite IH. now destruct (existsb isDone a).
Qed.

Lemma beforeDone_none (a : list event) :
  existsb isDone a = false -> beforeDone a = a.
Proof.
  induction a as [| e a IH]; [reflexivity |].
  cbn [existsb beforeDone]. destruct (isDone e); [discriminate |].
  cbn [orb]. intros H. now rewrite IH.
Qed.

Lemma deltas_app (a b : list event) : deltas (a ++ b) = deltas a ++ deltas b.
Proof. unfold Transcribe.deltas. apply flat_map_app. Qed.

Lemma usageAfter_app (u : option usage) (a b : list event) :
  usageAfter u (a ++ b) = usageAfter (usageAfter u a) b.
Proof. unfold Transcribe.usageAfter. apply fold_left_app. Qed.

(** The [while] loop against the stream read as one sequence of events. *)
Lemma readLoop_events (reads : list jsstring) (e : ending) (acc : locals)
  (s : state) :
  s.(emittedRef) = false ->
  let es := events reads in
  readLoop reads e acc s
  = if existsb isDone es
    then (inr tt,
          afterDone (fst acc ++ List.concat (deltas (beforeDone es)))
                    (usageAfter (snd acc) (beforeDone es)) s)
    else match e with
         | EndOfStream => (inr tt, s)
         | ReadRejects => (inl ReadFailed, s)
         end.
Proof.
  intros Hs. revert acc.
  induction reads as [| chunk reads IH]; intros acc; cbn zeta.
  - cbn. now destruct e.
  - cbn [Transcribe.readLoop]. unfold bind.
    rewrite (forLines_events _ _ _ Hs). cbn zeta.
    unfold events in *. cbn [flat_map]. rewrite map_app, existsb_app.
    rewrite beforeDone_app.
    destruct (existsb isDone (map classify (linesOf chunk))) eqn:Hd.
    + reflexivity.
    + cbn [snd fst orb]. rewrite IH. cbn [fst snd].
      rewrite (beforeDone_none _ Hd).
      rewrite deltas_app, concat_app, usageAfter_app, app_assoc.
      reflexivity.
Qed.

Lemma skipn_length_app {A} (l x : list A) : skipn (length l) (l ++ x) = x.
Proof. induction l as [| a l IH]; [reflexivity | exact IH]. Qed.

(** What one upload emits. *)
Lemma emitted_cases (res : response) (h : bool) (s : state) :
  fst (sendAudioToAPI res h s) = inr tt
  /\ emitted res h s
     = match res with
       | Responds true (Some (reads, e)) =>
           if reachesDone reads then
             if truthy (trim (transcript reads))
             then [Emitted (transcript reads) (usageSeen reads)]
             else []
           else match e with
                | EndOfStream => []
                | ReadRejects => [Emitted failureText None]
                end
       | _ => [Emitted failureText None]
       end.
Proof.
  assert (Hnil : skipn (length (emissions s)) (emissions s) = []).
  { rewrite <- (app_nil_r (emissions s)) at 2. apply skipn_length_app. }
  unfold Transcribe.emitted, Transcribe.sendAudioToAPI, bind, set_emittedRef,
    tryCatchFinally.
  destruct res as [| ok body];
    [| destruct ok; [destruct body as [[reads e] |] |]]; cbn [negb].
  2: { rewrite (readLoop_events reads e _
                  (mkState false (isLoading s) (emissions s)) eq_refl).
       cbn zeta.
       unfold reachesDone, Transcribe.transcript, Transcribe.usageSeen,
         Transcribe.lastUsage, afterDone.
       cbn [fst snd app].
       destruct (existsb isDone (events reads));
         [destruct (truthy (trim _)) | destruct e];
       destruct h; cbn; split; trivial; apply skipn_length_app. }
  all: destruct h; cbn; split; trivial; apply skipn_length_app.
Qed.



End TranscribeFacts.



(** ** Handsfree orchestrator *)

Section HandsfreeFacts.

Import Handsfree.

Ltac split_window H :=
  unfold playbackWindow in H;
  repeat (apply andb_prop in H; let H' := fresh "W" in destruct H as [H H']);
  repeat match goal with
         | W : negb _ = true |- _ => apply negb_true_iff in W
         end.

Ltac case_ifs :=
  repeat match goal with
         | |- context [if ?b then _ else _] => destruct b eqn:?
         | |- context [match ?x with O => _ | S _ => _ end] => destruct x eqn:?
         | |- context [match ?x with Some _ => _ | None => _ end] =>
             destruct x eqn:?
         | |- context [match ?x with Recording => _ | Inactive => _ end] =>
             destruct x eqn:?
         end.

Ltac handlers :=
  unfold setIsHandsfreeActive, onStart, guarded, stopRecordingAndSend,
    micAcquired, playHandsfree, handleTTSStart, handleTTSComplete, rearm,
    effects, blockEffect, startVADInternal, releaseVAD, stopTTS,
    recorderRecording, detectorRuns, synced.

(** One event inside the playback window. *)
Lemma playbackWindow_step (s : state) (e : event) :
  beforeRearm e = true ->
  playbackWindow s = true ->
  playbackWindow (step s e) = true
  /\ launched (step s e) = launched s
  /\ isHandsfreeRef (step s e) = isHandsfreeRef s
  /\ (synced s = true -> synced (step s e) = true)
  /\ (acquiring s = 0%nat -> recorderRecording s = false ->
      acquiring (step s e) = 0%nat
      /\ recorderRecording (step s e) = false
      /\ recorders (step s e) = recorders s).
Proof.
  intros He W. split_window W.
  destruct s as [ha rec va ld pl hr lr pr sup arm stp blk mr acq tm ln rc
                 rp rr rl].
  cbn in W, W0, W1, W2, W3. subst ha sup arm stp blk.
  destruct e as [a | | | | | | | | p | |]; try discriminate He;
    unfold playbackWindow; cbn; handlers; cbn.
  - repeat split; trivial.
  - repeat split; trivial.
  - destruct acq; cbn; repeat split; trivial; discriminate.
  - destruct mr as [[|] |]; cbn; repeat split; trivial; discriminate.
  - repeat split; trivial.
  - repeat split; trivial.
  - repeat split; trivial.
  - destruct hr; cbn; repeat split; trivial.
  - destruct pl, rp, rec, rr, ld, rl, pr, lr; cbn; repeat split; trivial;
      discriminate.
Qed.

Lemma playbackWindow_run (es : list event) (s : state) :
  forallb beforeRearm es = true ->
  playbackWindow s = true ->
  playbackWindow (run s es) = true
  /\ launched (run s es) = launched s
  /\ isHandsfreeRef (run s es) = isHandsfreeRef s
  /\ (synced s = true -> synced (run s es) = true)
  /\ (acquiring s = 0%nat -> recorderRecording s = false ->
      acquiring (run s es) = 0%nat
      /\ recorderRecording (run s es) = false
      /\ recorders (run s es) = recorders s).
Proof.
  revert s; induction es as [| e es IH]; intros s Hes W.
  - cbn. repeat split; auto.
  - cbn [forallb] in Hes. apply andb_prop in Hes as [He Hes].
    destruct (playbackWindow_step s e He W) as (W1 & L1 & R1 & C1 & Q1).
    destruct (IH (step s e) Hes W1) as (W2 & L2 & R2 & C2 & Q2).
    change (run s (e :: es)) with (run (step s e) es).
    split; [exact W2 |]. split; [congruence |]. split; [congruence |].
    split; [auto |].
    intros A0 N0. destruct (Q1 A0 N0) as (A1 & N1 & K1).
    destruct (Q2 A1 N1) as (A2 & N2 & K2).
    split; [exact A2 |]. split; [exact N2 | congruence].
Qed.

Lemma run_app (s : state) (a b : list event) :
  run s (a ++ b) = run (run s a) b.
Proof. apply fold_left_app. Qed.




(** The recording phase: armed and recording hold together through an
    event that neither stops the recorder nor disarms the detector. *)
Lemma recording_step (s : state) (e : event) :
  keepsRecording e = true ->
  vadArmedRef s = true -> recorderRecording s = true ->
  vadArmedRef (step s e) = true /\ recorderRecording (step s e) = true.
Proof.
  destruct s as [ha rec va ld pl hr lr pr sup arm stp blk mr acq tm ln rc
                 rp rr rl].
  unfold recorderRecording. cbn [vadArmedRef mediaRecorderRef].
  intros He -> Hm. destruct mr as [[|] |]; try discriminate Hm. clear Hm.
  destruct e as [[|] | | | | | | | | p | |]; try discriminate He;
    cbn; handlers; cbn; rewrite ?orb_true_r; cbn; case_ifs; cbn;
    first [split; reflexivity | cbn in *; congruence].
Qed.

Lemma recording_run (es : list event) (s : state) :
  forallb keepsRecording es = true ->
  vadArmedRef s = true -> recorderRecording s = true ->
  vadArmedRef (run s es) = true /\ recorderRecording (run s es) = true.
Proof.
  revert s; induction es as [| e es IH]; intros s Hes A R; [now split |].
  cbn [forallb] in Hes. apply andb_prop in Hes as [He Hes].
  destruct (recording_step s e He A R) as [A1 R1].
  change (run s (e :: es)) with (run (step s e) es). now apply IH.
Qed.

(** A speech start that passes the guard of a running detector opens a
    recorder and leaves the detector armed. *)
Lemma speech_start_records (s : state) :
  detectorRuns s = true -> vadArmedRef s = true -> guarded s = false ->
  let s' := run s [VadSpeechStart; MicAcquired] in
  vadArmedRef s' = true /\ recorderRecording s' = true
  /\ isRecording s' = true.
Proof.
  intros D A G.
  destruct s as [ha rec va ld pl hr lr pr sup arm stp blk mr acq tm ln rc
                 rp rr rl].
  cbn in D, A. subst. cbn. unfold onStart. rewrite G. cbn. repeat split.
Qed.

(** C2, as the code has it.  The three conditions are not exclusive.  A
    speech start that passes the guard of a running detector opens a
    recorder and leaves the detector armed, and "VAD armed" and "recording
    in progress" then hold together through every event but those that end
    the recording or disarm the detector: the closing silence, a handsfree
    playback call, the "playback started" signal, switching handsfree off.
    The "playback started" signal disarms the detector and does not stop a
    recorder: a recording that is in progress goes on.  What the signal
    does keep apart is playback and the armed detector: provided no
    first-recording block is pending, the detector stays disarmed, stopped
    and suppressed from the signal until the debounce of "playback
    complete" fires or handsfree is toggled. *)
Theorem handsfree_phases_gated (s : state) (es : list event) :
  (detectorRuns s = true -> vadArmedRef s = true -> guarded s = false ->
   forallb keepsRecording es = true ->
   let s' := run s ([VadSpeechStart; MicAcquired] ++ es) in
   vadArmed s' = true /\ recordingInProgress s' = true)
  /\ (isHandsfreeActive s = true ->
      recordingInProgress (step s TtsStartedFlag) = recordingInProgress s
      /\ vadArmed (step s TtsStartedFlag) = false)
  /\ (isHandsfreeActive s = true ->
      blockPlaybackUntilRecordingRef s = false ->
      forallb beforeRearm es = true ->
      let s' := run (step s TtsStartedFlag) es in
      vadArmed s' = false /\ vadStopRef s' = false
      /\ suppressVADRef s' = true).
Proof.
  split; [| split].
  - intros D A G Hes. cbn zeta. rewrite run_app.
    destruct (speech_start_records s D A G) as (A1 & R1 & _).
    exact (recording_run es _ Hes A1 R1).
  - intros Ha.
    destruct s as [ha rec va ld pl hr lr pr sup arm stp blk mr acq tm ln rc
                   rp rr rl].
    cbn in Ha. subst. cbn. split; reflexivity.
  - intros Ha Hb Hes.
    assert (W : playbackWindow (step s TtsStartedFlag) = true).
    { destruct s as [ha rec va ld pl hr lr pr sup arm stp blk mr acq tm ln
                     rc rp rr rl].
      cbn in Ha, Hb. subst. reflexivity. }
    destruct (playbackWindow_run es _ Hes W) as (W' & _).
    cbn zeta. split_window W'. unfold vadArmed. auto.
Qed.


End HandsfreeFacts.

(** C2 as stated fails in the recording phase: handsfree is switched on,
    the detector hears speech and the microphone is acquired; the detector
    is armed and the recorder records. *)
Lemma handsfree_recording_with_vad_armed :
  let s := Handsfree.run Handsfree.initial
             [Handsfree.SetHandsfree true; Handsfree.VadSpeechStart;
              Handsfree.MicAcquired] in
  Handsfree.isHandsfreeActive s = true
  /\ Handsfree.vadArmed s = true
  /\ Handsfree.recordingInProgress s = true
  /\ Handsfree.isRecording s = true
  /\ Handsfree.atMostOnePhase s = false.
Proof. vm_compute. repeat split. Qed.

Lemma handsfree_phases_gated_witness :
  let s := Handsfree.run Handsfree.initial
             [Handsfree.SetHandsfree true; Handsfree.Effects] in
  let recording :=
    Handsfree.run Handsfree.initial
      [Handsfree.SetHandsfree true; Handsfree.Effects;
       Handsfree.VadSpeechStart; Handsfree.MicAcquired] in
  (Handsfree.detectorRuns s = true /\ Handsfree.vadArmedRef s = true
   /\ Handsfree.guarded s = false)
  /\ Handsfree.recordingInProgress
       (Handsfree.run s
          ([Handsfree.VadSpeechStart; Handsfree.MicAcquired]
           ++ [Handsfree.Effects; Handsfree.VadSpeechStart;
               Handsfree.PlayingChanged true; Handsfree.Effects]))
     = true
  /\ (Handsfree.isHandsfreeActive recording = true
      /\ Handsfree.recordingInProgress recording = true
      /\ Handsfree.recordingInProgress
           (Handsfree.step recording Handsfree.TtsStartedFlag)
         = Handsfree.recordingInProgress recording)
  /\ Handsfree.vadArmed
       (Handsfree.run (Handsfree.step Handsfree.replyReady
                         Handsfree.TtsStartedFlag)
          [Handsfree.PlayingChanged true; Handsfree.Effects;
           Handsfree.VadSpeechStart]) = false.
Proof.
  cbv zeta.
  pose proof (handsfree_phases_gated
                (Handsfree.run Handsfree.initial
                   [Handsfree.SetHandsfree true; Handsfree.Effects])
                [Handsfree.Effects; Handsfree.VadSpeechStart;
                 Handsfree.PlayingChanged true; Handsfree.Effects])
    as (H1 & _ & _).
  pose proof (handsfree_phases_gated
                (Handsfree.run Handsfree.initial
                   [Handsfree.SetHandsfree true; Handsfree.Effects;
                    Handsfree.VadSpeechStart; Handsfree.MicAcquired]) [])
    as (_ & H2 & _).
  pose proof (handsfree_phases_gated Handsfree.replyReady
                [Handsfree.PlayingChanged true; Handsfree.Effects;
                 Handsfree.VadSpeechStart])
    as (_ & _ & H3).
  split; [repeat split |].
  split; [exact (proj2 (H1 eq_refl eq_refl eq_refl eq_refl)) |].
  split; [| exact (proj1 (H3 eq_refl eq_refl eq_refl))].
  split; [reflexivity |]. split; [reflexivity |].
  exact (proj1 (H2 eq_refl)).
Defined.

(** ** Voice activity detector: further properties *)

Section VADMore.

Import VAD VADProps.

Variable volumeThreshold : Z.

Lemma vad_clear_oneTimer (s : state) :
  oneTimer s ->
  pendingTimers (match silenceTimer s with
                 | Some h => clearTimeout h s
                 | None => s
                 end) = [].
Proof.
  intros [E | (h & Eh & E)].
  - destruct (silenceTimer s); cbn; rewrite E; reflexivity.
  - rewrite Eh. cbn. rewrite E. cbn. now rewrite Pos.eqb_refl.
Qed.

Lemma vad_stop_pendingTimers (s : state) :
  oneTimer s -> pendingTimers (stop s) = [].
Proof.
  intros H. unfold stop.
  set (s2 := match rafId (set_stopped s) with
             | Some h => cancelAnimationFrame h (set_stopped s)
             | None => set_stopped s
             end).
  assert (H2 : oneTimer s2).
  { unfold s2, oneTimer. cbn. destruct (rafId s); exact H. }
  exact (vad_clear_oneTimer s2 H2).
Qed.

Lemma vad_stop_silenceTimer (s : state) : silenceTimer (stop s) = silenceTimer s.
Proof.
  destruct s as [sp [t |] st [r |] ip pt pf nh]; reflexivity.
Qed.

Lemma vad_fire_oneTimer (r : bool) (s : state) : oneTimer s -> oneTimer (fire r s).
Proof.
  destruct r; cbn; [| trivial]. intros H. left. now apply vad_stop_pendingTimers.
Qed.

Lemma vad_step_oneTimer (s : state) (e : event) :
  oneTimer s -> oneTimer (fst (step volumeThreshold s e)).
Proof.
  intros H. destruct e as [ok | samples r | h r |]; cbn.
  - destruct (initPending s); cbn; [| exact H]. destruct ok; exact H.
  - destruct (pendingFrame s); cbn; [| exact H].
    unfold loop; cbn. destruct (stopped s); cbn; [exact H |].
    destruct (isLoud volumeThreshold samples); cbn; [| exact H].
    right. destruct (isSpeaking s); cbn.
    + assert (E := vad_clear_oneTimer s H).
      destruct (silenceTimer s); cbn in *; rewrite E; eauto.
    + match goal with
      | |- context [fire r ?x] =>
          assert (E := vad_clear_oneTimer (fire r x) (vad_fire_oneTimer r x H))
      end.
      match goal with
      | |- context [silenceTimer ?x] => destruct (silenceTimer x)
      end; cbn in *; rewrite E; eauto.
  - destruct (existsb (Pos.eqb h) (pendingTimers s)) eqn:Ex; cbn; [| exact H].
    assert (Hc : oneTimer (clearTimeout h s)).
    { left. destruct H as [E | (h' & Eh & E)]; cbn; rewrite E in *; cbn in *.
      - reflexivity.
      - rewrite orb_false_r in Ex. rewrite Pos.eqb_sym in Ex. now rewrite Ex. }
    unfold onSilence.
    destruct (isSpeaking (clearTimeout h s) && negb (stopped (clearTimeout h s)));
      cbn; [| exact Hc].
    now apply vad_fire_oneTimer.
  - left. now apply vad_stop_pendingTimers.
Qed.

(** X1.  Every loud frame replaces the silence timeout: whatever the
    events, at most one timeout is pending. *)
Theorem vad_one_silence_timer (es : list event) :
  (length (pendingTimers (fst (run volumeThreshold initial es))) <= 1)%nat.
Proof.
  assert (H : forall s, oneTimer s -> oneTimer (fst (run volumeThreshold s es))).
  { induction es as [| e es IH]; intros s Hs; [exact Hs |].
    rewrite vad_run_cons. cbn [fst]. apply IH. now apply vad_step_oneTimer. }
  destruct (H initial (or_introl eq_refl)) as [E | (h & _ & E)];
    rewrite E; cbn; lia.
Qed.

Lemma vad_step_inert (s : state) (e : event) :
  inert s ->
  inert (fst (step volumeThreshold s e)) /\ snd (step volumeThreshold s e) = [].
Proof.
  intros (Hf & Ht & Hi). destruct e as [ok | samples r | h r |]; cbn.
  - rewrite Hi. cbn. repeat split; assumption.
  - rewrite Hf. cbn. repeat split; assumption.
  - rewrite Ht. cbn. repeat split; assumption.
  - split; [| reflexivity].
    destruct s as [sp [t |] st [rf |] ip pt pf nh]; cbn in *; subst;
      repeat split.
Qed.

(** X2.  When the microphone cannot be acquired the detector stays inert:
    no callback is ever fired, whatever the browser and the caller do. *)
Theorem vad_inert_after_failed_init (es : list event) :
  callbacks volumeThreshold (InitSettled false :: es) = [].
Proof.
  unfold callbacks. rewrite vad_run_cons. cbn [step initial initPending fst snd app].
  assert (H : forall s, inert s -> snd (run volumeThreshold s es) = []).
  { induction es as [| e es IH]; intros s Hs; [reflexivity |].
    rewrite vad_run_cons. cbn [snd].
    destruct (vad_step_inert s e Hs) as [H1 H2]. rewrite H2. cbn.
    now apply IH. }
  apply H. repeat split.
Qed.

Lemma vad_stop_silent (s : state) : silent s -> silent (stop s).
Proof.
  intros [H1 H2]. split.
  - now rewrite vad_stop_isSpeaking.
  - apply vad_stop_pendingTimers. now left.
Qed.

(** X3.  Silence fires nothing: when no frame is above the threshold, no
    callback is fired, whatever timeouts and stop calls come in between. *)
Theorem vad_quiet_frames_fire_nothing (es : list event) :
  quietFrames volumeThreshold es = true -> callbacks volumeThreshold es = [].
Proof.
  unfold callbacks.
  assert (H : forall s, silent s -> quietFrames volumeThreshold es = true ->
                        snd (run volumeThreshold s es) = []).
  { induction es as [| e es IH]; intros s Hs Hq; [reflexivity |].
    cbn in Hq. apply andb_prop in Hq as [He Hq].
    rewrite vad_run_cons. cbn [snd].
    assert (Hstep : silent (fst (step volumeThreshold s e))
                    /\ snd (step volumeThreshold s e) = []).
    { destruct Hs as [H1 H2].
      destruct e as [ok | samples r | h r |]; cbn.
      - destruct (initPending s); cbn; [| repeat split; assumption].
        destruct ok; repeat split; assumption.
      - destruct (pendingFrame s); cbn; [| repeat split; assumption].
        unfold loop; cbn. destruct (stopped s); cbn; [repeat split; assumption |].
        apply negb_true_iff in He. rewrite He. cbn. repeat split; assumption.
      - rewrite H2. cbn. repeat split; assumption.
      - split; [| reflexivity]. apply vad_stop_silent. split; assumption. }
    destruct Hstep as [Hs1 Ho]. rewrite Ho. cbn. now apply IH. }
  apply H. split; reflexivity.
Qed.

Lemma vad_step_no_timeout (s : state) (e : event) :
  match e with Timeout _ _ => false | _ => true end = true ->
  count OnStop (snd (step volumeThreshold s e)) = 0%nat.
Proof.
  destruct e as [ok | samples r | h r |]; intros He; try discriminate He; cbn.
  - destruct (initPending s); reflexivity.
  - destruct (pendingFrame s); cbn; [| reflexivity].
    unfold loop; cbn. destruct (stopped s); cbn; [reflexivity |].
    destruct (isLoud volumeThreshold samples); cbn; [| reflexivity].
    destruct (isSpeaking s); cbn.
    + destruct (silenceTimer s); reflexivity.
    + first [ reflexivity
            | match goal with
              | |- context [silenceTimer ?x] => destruct (silenceTimer x)
              end; reflexivity ].
  - reflexivity.
Qed.

Lemma vad_count_app (c : callback) (a b : list callback) :
  count c (a ++ b) = (count c a + count c b)%nat.
Proof. unfold count. now rewrite List.filter_app, length_app. Qed.

Lemma vad_alternates_no_stop (t : list callback) :
  alternates true t = true -> count OnStop t = 0%nat ->
  (count OnStart t <= 1)%nat.
Proof.
  destruct t as [| [|] [| [|] t]]; cbn; intros H1 H2;
    try discriminate; unfold count in *; cbn in *; lia.
Qed.

(** X4.  Only the silence timeout ends a speech: as long as no timeout
    fires, [onStop] is never called and [onStart] is called at most once,
    however many loud frames arrive. *)
Theorem vad_one_start_until_timeout (es : list event) :
  noTimeout es = true ->
  count OnStop (callbacks volumeThreshold es) = 0%nat
  /\ (count OnStart (callbacks volumeThreshold es) <= 1)%nat.
Proof.
  intros Hn.
  assert (H : forall s, noTimeout es = true ->
                        count OnStop (snd (run volumeThreshold s es)) = 0%nat).
  { clear Hn. induction es as [| e es IH]; intros s Hq; [reflexivity |].
    cbn in Hq. apply andb_prop in Hq as [He Hq].
    rewrite vad_run_cons. cbn [snd]. rewrite vad_count_app.
    rewrite (vad_step_no_timeout s e He). now rewrite IH. }
  split; [now apply H |].
  apply vad_alternates_no_stop; [| now apply H].
  exact (vad_run_alternates volumeThreshold es initial).
Qed.

Lemma vad_filter_twice {A} (p : A -> bool) (l : list A) :
  List.filter p (List.filter p l) = List.filter p l.
Proof.
  induction l as [| a l IH]; [reflexivity |].
  cbn. destruct (p a) eqn:E; cbn; rewrite ?E, IH; reflexivity.
Qed.

(** [stop] field by field. *)
Lemma vad_stop_fields (s : state) :
  stop s
  = mkState (isSpeaking s) (silenceTimer s) true (rafId s) (initPending s)
      (match silenceTimer s with
       | Some h => List.filter (fun h' => negb (Pos.eqb h' h)) (pendingTimers s)
       | None => pendingTimers s
       end)
      (match rafId s, pendingFrame s with
       | Some h, Some h' => if Pos.eqb h' h then None else Some h'
       | _, f => f
       end)
      (nextHandle s).
Proof.
  destruct s as [sp [t |] st [rf |] ip pt [pf |] nh]; reflexivity.
Qed.

(** X5.  The stop function is idempotent: a second call changes nothing,
    neither in the detector nor in what the browser holds for it. *)
Theorem vad_stop_idempotent (s : state) : stop (stop s) = stop s.
Proof.
  rewrite (vad_stop_fields (stop s)), (vad_stop_fields s).
  cbn [isSpeaking silenceTimer rafId initPending pendingTimers pendingFrame
       nextHandle].
  f_equal.
  - destruct (silenceTimer s); [apply vad_filter_twice | reflexivity].
  - destruct (rafId s) as [h |], (pendingFrame s) as [h' |]; try reflexivity.
    destruct (Pos.eqb h' h) eqn:E; [reflexivity | now rewrite E].
Qed.

End VADMore.

Lemma vad_quiet_frames_fire_nothing_witness :
  VADProps.quietFrames 10 VADProps.quietRun = true
  /\ VAD.callbacks 10 VADProps.quietRun = [].
Proof.
  split; [reflexivity |].
  exact (vad_quiet_frames_fire_nothing 10 VADProps.quietRun eq_refl).
Defined.

Lemma vad_one_start_until_timeout_witness :
  VADProps.noTimeout VADProps.loudRun = true
  /\ VAD.count VAD.OnStop (VAD.callbacks 10 VADProps.loudRun) = 0%nat
  /\ (VAD.count VAD.OnStart (VAD.callbacks 10 VADProps.loudRun) <= 1)%nat.
Proof.
  split; [reflexivity |].
  exact (vad_one_start_until_timeout 10 VADProps.loudRun eq_refl).
Defined.

(** ** Voice activity detector: the loudness test *)

Section VADLoudness.

Import VAD.

Lemma vad_sumSquares_from (acc : Z) (samples : list Z) :
  fold_left (fun sum val => sum + (val - 128) * (val - 128)) samples acc
  = acc + sumSquares samples.
Proof.
  unfold sumSquares. revert acc.
  induction samples as [| v samples IH]; intros acc; cbn [fold_left]; [lia |].
  rewrite (IH (acc + _)), (IH (0 + _)). lia.
Qed.

Lemma vad_sumSquares_cons (v : Z) (samples : list Z) :
  sumSquares (v :: samples) = (v - 128) * (v - 128) + sumSquares samples.
Proof.
  unfold sumSquares at 1. cbn [fold_left]. now rewrite vad_sumSquares_from.
Qed.

(** X6.  The loudness test by the deviation of the samples from the
    midpoint 128: a frame whose samples all stay within the threshold is
    not loud, and a frame whose samples all leave it is loud. *)
Theorem vad_loud_by_deviation (t : Z) (samples : list Z) :
  0 <= t ->
  (Forall (fun v => Z.abs (v - 128) <= t) samples ->
   isLoud t samples = false)
  /\ (samples <> [] -> Forall (fun v => t < Z.abs (v - 128)) samples ->
      isLoud t samples = true).
Proof.
  intros Ht. unfold isLoud. cbv zeta.
  destruct (Z.eqb_spec (Z.of_nat (length samples)) 0) as [E | E].
  { split; [reflexivity |]. intros Hne. destruct samples; [contradiction |].
    cbn [length] in E. lia. }
  destruct (Z.ltb_spec t 0) as [? | _]; [lia |].
  clear E. split.
  - intros H. apply Z.ltb_ge.
    induction H as [| v samples Hv _ IH]; [cbn; lia |].
    rewrite vad_sumSquares_cons. cbn [length]. nia.
  - intros Hne H. apply Z.ltb_lt.
    destruct H as [| v samples Hv H]; [contradiction |]. clear Hne.
    revert v Hv. induction H as [| w samples Hw _ IH]; intros v Hv.
    + rewrite vad_sumSquares_cons. cbn. nia.
    + specialize (IH w Hw). rewrite vad_sumSquares_cons.
      cbn [length] in *. nia.
Qed.

End VADLoudness.

Lemma vad_loud_by_deviation_witness :
  VAD.isLoud 10 [128; 130; 120] = false /\ VAD.isLoud 10 [200; 30] = true.
Proof.
  split.
  - apply (vad_loud_by_deviation 10 [128; 130; 120]); [lia |].
    repeat constructor; cbn; lia.
  - apply (vad_loud_by_deviation 10 [200; 30]);
      [lia | discriminate | repeat constructor; cbn; lia].
Defined.
(** ** Text chunker: further properties *)

Section ChunkerMore.

Import JsString Chunker.

Lemma content_app (a b : jsstring) : content (a ++ b) = content a ++ content b.
Proof. unfold content. apply List.filter_app. Qed.

Lemma content_rev (a : jsstring) : content (rev a) = rev (content a).
Proof.
  unfold content. induction a as [| c a IH]; [reflexivity |].
  cbn [rev]. rewrite List.filter_app, IH. cbn.
  destruct (isWhiteSpace c); cbn; [now rewrite app_nil_r | reflexivity].
Qed.

Lemma content_trimStart (a : jsstring) : content (trimStart a) = content a.
Proof.
  induction a as [| c a IH]; [reflexivity |].
  cbn. destruct (isWhiteSpace c) eqn:E; cbn; [exact IH | now rewrite E].
Qed.

Lemma content_trim (a : jsstring) : content (trim a) = content a.
Proof.
  unfold trim, trimEnd.
  now rewrite content_rev, content_trimStart, content_rev, rev_involutive,
    content_trimStart.
Qed.

Lemma length_trimStart (a : jsstring) : (length (trimStart a) <= length a)%nat.
Proof.
  induction a as [| c a IH]; [reflexivity |].
  cbn. destruct (isWhiteSpace c); cbn; lia.
Qed.

Lemma length_trim (a : jsstring) : (length (trim a) <= length a)%nat.
Proof.
  unfold trim, trimEnd. rewrite length_rev.
  etransitivity; [apply length_trimStart |]. rewrite length_rev.
  apply length_trimStart.
Qed.

(** A text is the white space [trimStart] drops, then what it keeps. *)
Lemma trimStart_split (a : jsstring) :
  exists ws, a = ws ++ trimStart a /\ content ws = [].
Proof.
  induction a as [| c a (ws & E & Hws)]; [now exists [] |].
  cbn. destruct (isWhiteSpace c) eqn:Ec.
  - exists (c :: ws). cbn. rewrite Ec. split; [now rewrite <- E | exact Hws].
  - now exists [].
Qed.

Lemma trimStart_head (a : jsstring) :
  match trimStart a with
  | [] => True
  | c :: _ => isWhiteSpace c = false
  end.
Proof.
  induction a as [| c a IH]; [exact I |].
  cbn. destruct (isWhiteSpace c) eqn:E; [exact IH | exact E].
Qed.

Lemma trimStart_fixed (a : jsstring) :
  match a with [] => True | c :: _ => isWhiteSpace c = false end ->
  trimStart a = a.
Proof. destruct a as [| c a]; [reflexivity |]. cbn. now intros ->. Qed.

Lemma trimStart_idempotent (a : jsstring) : trimStart (trimStart a) = trimStart a.
Proof. apply trimStart_fixed, trimStart_head. Qed.

Lemma trimStart_keeps_last (l : jsstring) (c : N) :
  isWhiteSpace c = false -> exists l', trimStart (l ++ [c]) = l' ++ [c].
Proof.
  intros Hc. induction l as [| d l (l' & E)].
  - exists []. cbn. now rewrite Hc.
  - cbn. destruct (isWhiteSpace d); [now exists l' | now exists (d :: l)].
Qed.

Lemma trimEnd_keeps_head (a : jsstring) :
  match a with [] => True | c :: _ => isWhiteSpace c = false end ->
  match trimEnd a with [] => a = [] | c :: _ => isWhiteSpace c = false end.
Proof.
  destruct a as [| c a]; [reflexivity |]. intros Hc.
  unfold trimEnd. cbn [rev].
  destruct (trimStart_keeps_last (rev a) c Hc) as (l' & E).
  rewrite E, rev_app_distr. cbn. exact Hc.
Qed.

Lemma trim_idempotent (a : jsstring) : trim (trim a) = trim a.
Proof.
  unfold trim.
  assert (H : trimStart (trimEnd (trimStart a)) = trimEnd (trimStart a)).
  { apply trimStart_fixed.
    pose proof (trimEnd_keeps_head (trimStart a) (trimStart_head a)) as H.
    destruct (trimEnd (trimStart a)); [exact I | exact H]. }
  rewrite H. unfold trimEnd.
  now rewrite rev_involutive, trimStart_idempotent.
Qed.

Lemma trim_nonempty (a : jsstring) : content a <> [] -> trim a <> [].
Proof. intros H E. apply H. rewrite <- content_trim, E. reflexivity. Qed.

Lemma isSentenceEnd_not_space (c : N) :
  isSentenceEnd c = true -> isWhiteSpace c = false.
Proof.
  unfold isSentenceEnd. intros H.
  apply orb_prop in H as [H | H]; [apply orb_prop in H as [H | H] |];
    apply N.eqb_eq in H; subst; reflexivity.
Qed.

(** Skipping the run of a separator. *)
Lemma splitSentencesFrom_skip (s : jsstring) :
  splitSentencesFrom true false [] s
  = match trimStart s with
    | [] => [[]]
    | r => splitSentences r
    end.
Proof.
  induction s as [| c s IH]; [reflexivity |].
  cbn. destruct (isWhiteSpace c) eqn:E; [exact IH |].
  unfold splitSentences. cbn. now rewrite E.
Qed.

(** The shape of a split: either no separator is found, or the text is a
    first piece that ends a sentence, one white-space code unit, and the
    rest. *)
Lemma splitSentencesFrom_shape (s cur : jsstring) (afterEnd : bool) :
  (afterEnd = true ->
   exists c cur', cur = c :: cur' /\ isSentenceEnd c = true) ->
  splitSentencesFrom false afterEnd cur s = [rev cur ++ s]
  \/ exists pre w rest p c,
       s = pre ++ w :: rest
       /\ isWhiteSpace w = true
       /\ rev cur ++ pre = p ++ [c] /\ isSentenceEnd c = true
       /\ splitSentencesFrom false afterEnd cur s
          = (rev cur ++ pre) :: splitSentencesFrom true false [] rest.
Proof.
  revert cur afterEnd; induction s as [| d s IH]; intros cur afterEnd Hcur.
  - left. cbn. now rewrite app_nil_r.
  - cbn [splitSentencesFrom].
    destruct (isWhiteSpace d && afterEnd) eqn:Hm.
    + right. apply andb_prop in Hm as [Hd Ha].
      destruct (Hcur Ha) as (c & cur' & -> & Hc).
      exists [], d, s, (rev cur'), c. rewrite app_nil_r. cbn. auto.
    + destruct (IH (d :: cur) (isSentenceEnd d)) as [E | H].
      * intros Hd. now exists d, cur.
      * left. rewrite E. cbn. now rewrite <- app_assoc.
      * right. destruct H as (pre & w & rest & p & c & Es & Hw & Ep & Hc & E).
        exists (d :: pre), w, rest, p, c. cbn in Ep, E.
        rewrite <- app_assoc in Ep, E. cbn in Ep, E.
        repeat split; trivial. cbn. now rewrite Es.
Qed.


(** What the chunker sees of a long text: the first two sentences, the
    white space between them, and what follows the second. *)
Lemma chunker_sentences (text : jsstring) :
  let sentences := List.filter truthy (splitSentences text) in
  text <> [] ->
  exists first gap second post,
    text = first ++ gap ++ second ++ post
    /\ nth 0 sentences [] = first
    /\ nth 1 sentences [] = second
    /\ first <> []
    /\ content gap = []
    /\ (gap = [] -> second = [] /\ post = [])
    /\ (gap <> [] -> content first <> []).
Proof.
  intros sentences Hne. subst sentences. unfold splitSentences.
  destruct (splitSentencesFrom_shape text [] false) as [E | H];
    [discriminate | |].
  - rewrite E. cbn [rev app].
    exists text, [], [], []. rewrite !app_nil_r.
    destruct text as [| c text]; [contradiction |]. cbn.
    repeat split; trivial. contradiction.
  - destruct H as (pre & w & rest & p & c & Es & Hw & Ep & Hc & E).
    cbn [rev app] in Ep, E. rewrite E, splitSentencesFrom_skip.
    assert (Hpre : content pre <> []).
    { rewrite Ep, content_app. cbn.
      rewrite (isSentenceEnd_not_space c Hc). cbn.
      intros H. now apply app_eq_nil in H as [_ H]. }
    assert (Hpre' : pre <> []) by (intros ->; now apply Hpre).
    destruct (trimStart_split rest) as (ws & Er & Hws).
    pose proof (trimStart_head rest) as Hhead.
    assert (Hgap : content (w :: ws) = []).
    { cbn. rewrite Hw. exact Hws. }
    destruct (trimStart rest) as [| d r] eqn:Et.
    + exists pre, (w :: ws), [], [].
      rewrite !app_nil_r in *. subst rest.
      destruct pre; [contradiction |]. cbn.
      repeat split; trivial; try discriminate.
    + unfold splitSentences.
      destruct (splitSentencesFrom_head (d :: r) [] false)
        as (pre2 & post2 & more & H1 & H2 & H3).
      cbn [rev app] in H1. rewrite H1.
      assert (Hpre2 : pre2 <> []) by (apply H3; [reflexivity | discriminate]).
      exists pre, (w :: ws), pre2, post2.
      destruct pre; [contradiction |]. destruct pre2; [contradiction |].
      cbn [List.filter truthy nth]. cbn.
      repeat split; trivial; try discriminate.
      rewrite Es, Er, H2. reflexivity.
Qed.

(** X8.  The intro chunk of a text that is not empty is not empty. *)
Theorem chunker_intro_nonempty (text : jsstring) :
  text <> [] -> fst (chunkTextForTTS text) <> [].
Proof.
  intros Hne. unfold chunkTextForTTS.
  destruct (Nat.leb_spec (length text) 80) as [_ | Hlen]; [exact Hne |].
  cbn [fst].
  destruct (chunker_sentences text Hne)
    as (first & gap & second & post & Et & -> & -> & Hf & Hg & Hg0 & Hg1).
  destruct (Nat.leb_spec 30 (length first)) as [_ | H30]; [exact Hf |].
  apply trim_nonempty. unfold joinSpace. rewrite content_app.
  destruct gap as [| w gap].
  - destruct (Hg0 eq_refl) as [-> ->]. rewrite !app_nil_r in Et. subst first.
    lia.
  - intros H. apply app_eq_nil in H as [H _]. revert H. now apply Hg1.
Qed.

(** X9.  The remainder, when there is one, is not empty and has no white
    space at either end. *)
Theorem chunker_remainder_trimmed (text : jsstring) :
  match snd (chunkTextForTTS text) with
  | Some remainder => remainder <> [] /\ trim remainder = remainder
  | None => True
  end.
Proof.
  unfold chunkTextForTTS.
  destruct (length text <=? 80)%nat; [exact I |]. cbn [snd].
  match goal with |- context [truthy (trim ?r)] => generalize r end.
  intros r. pose proof (trim_idempotent r) as H.
  destruct (trim r); cbn [truthy]; [exact I |]. split; [discriminate | exact H].
Qed.


Lemma content_reconstruct (intro slice : jsstring) :
  content (reconstruct
    (intro, if truthy (trim slice) then Some (trim slice) else None))
  = content intro ++ content slice.
Proof.
  pose proof (content_trim slice) as H.
  destruct (trim slice) as [| c r]; cbn [truthy reconstruct].
  - now rewrite <- H, app_nil_r.
  - now rewrite !content_app, H.
Qed.

(** An intro with the content of a prefix of the text at least as long as
    itself repeats the end of that prefix and loses nothing. *)
Lemma content_slice (text intro : jsstring) (k : nat) :
  (length intro <= k <= length text)%nat ->
  content intro = content (firstn k text) ->
  exists before again,
    content intro = before ++ again
    /\ content (sliceFrom (length intro) text)
       = again ++ content (skipn k text).
Proof.
  intros [Hj Hk] Hc. unfold sliceFrom.
  exists (content (firstn (length intro) (firstn k text))),
    (content (skipn (length intro) (firstn k text))).
  split.
  - now rewrite Hc, <- content_app, firstn_skipn.
  - rewrite <- content_app. f_equal.
    rewrite <- (firstn_skipn k text) at 1.
    rewrite skipn_app, length_firstn.
    replace (length intro - Nat.min k (length text))%nat with 0%nat by lia.
    reflexivity.
Qed.

(** X10.  Chunking loses no character of the text.  White space apart, the
    text is a first part followed by a second, and the intro joined to the
    remainder is the first part, some end of the first part again, and the
    second part. *)
Theorem chunker_loses_nothing (text : jsstring) :
  exists before again rest,
    content text = (before ++ again) ++ rest
    /\ content (reconstruct (chunkTextForTTS text))
       = (before ++ again) ++ again ++ rest.
Proof.
  unfold chunkTextForTTS.
  destruct (Nat.leb_spec (length text) 80) as [_ | Hlen].
  { exists (content text), [], []. cbn [reconstruct]. now rewrite !app_nil_r. }
  assert (Hne : text <> []) by (intros ->; cbn in Hlen; lia).
  destruct (chunker_sentences text Hne)
    as (first & gap & second & post & Et & -> & -> & Hf & Hg & Hg0 & Hg1).
  cbv zeta. rewrite content_reconstruct.
  match goal with |- context [sliceFrom (length ?i) text] => set (intro := i) end.
  assert (H : exists k, (length intro <= k <= length text)%nat
                        /\ content intro = content (firstn k text)).
  { subst intro. destruct (Nat.leb_spec 30 (length first)) as [_ | H30].
    - exists (length first).
      assert (L : length text = length (first ++ gap ++ second ++ post))
        by now rewrite <- Et.
      assert (F : firstn (length first) text = first).
      { rewrite Et. change firstn with (@take N). apply take_app_length. }
      rewrite F, length_app in *. split; [lia | reflexivity].
    - destruct gap as [| w gap].
      { destruct (Hg0 eq_refl) as [-> ->]. rewrite !app_nil_r in Et.
        subst first. lia. }
      exists (length (first ++ (w :: gap) ++ second)).
      assert (L : length text = length ((first ++ (w :: gap) ++ second) ++ post)).
      { rewrite Et at 1. now rewrite <- !app_assoc. }
      assert (F : firstn (length (first ++ (w :: gap) ++ second)) text
                  = first ++ (w :: gap) ++ second).
      { replace text with ((first ++ (w :: gap) ++ second) ++ post) at 1
          by now rewrite Et, <- !app_assoc.
        change firstn with (@take N). apply take_app_length. }
      rewrite F, content_trim. unfold joinSpace.
      rewrite !content_app, Hg. split; [| reflexivity].
      pose proof (length_trim (first ++ lit " " ++ second)) as L'.
      rewrite !length_app in *. cbn [length] in *.
      change (length (lit " ")) with 1%nat in L'. lia. }
  destruct H as (k & Hk & Hc).
  destruct (content_slice text intro k Hk Hc) as (before & again & E1 & E2).
  exists before, again, (content (skipn k text)).
  rewrite E2, <- E1. split; [| reflexivity].
  now rewrite Hc, <- content_app, firstn_skipn.
Qed.

End ChunkerMore.

Lemma chunker_long_first_partitions_witness :
  (80 < length Scenarios.longReply)%nat
  /\ exists rest,
       Scenarios.longReply
       = nth 0 (List.filter JsString.truthy
                  (Chunker.splitSentences Scenarios.longReply)) [] ++ rest
       /\ Chunker.chunkTextForTTS Scenarios.longReply
          = (nth 0 (List.filter JsString.truthy
                      (Chunker.splitSentences Scenarios.longReply)) [],
             if JsString.truthy (JsString.trim rest)
             then Some (JsString.trim rest) else None).
Proof.
  split; [vm_compute; lia |].
  apply chunker_long_first_partitions; vm_compute; lia.
Defined.

Lemma chunker_intro_nonempty_witness :
  Chunker.twoParagraphs <> []
  /\ fst (Chunker.chunkTextForTTS Chunker.twoParagraphs) <> [].
Proof.
  assert (H : Chunker.twoParagraphs <> []) by (vm_compute; discriminate).
  exact (conj H (chunker_intro_nonempty Chunker.twoParagraphs H)).
Defined.
(** ** Transcription upload: further properties *)

Section TranscribeMore.

Import JsString Transcribe.

Variable JSON_parse : jsstring -> option json.
Variable toText : json -> jsstring.

Local Abbreviation readLoop := (readLoop JSON_parse toText).
Local Abbreviation sendAudioToAPI := (sendAudioToAPI JSON_parse toText).
Local Abbreviation transcript := (transcript JSON_parse toText).
Local Abbreviation usageSeen := (usageSeen JSON_parse).
Local Abbreviation emitted := (emitted JSON_parse toText).

Lemma afterDone_isLoading (text : jsstring) (u : option usage) (s : state) :
  isLoading (afterDone text u s) = isLoading s.
Proof. unfold afterDone. now destruct (truthy (trim text)). Qed.

Lemma readLoop_isLoading (reads : list jsstring) (e : ending) (acc : locals)
  (s : state) :
  emittedRef s = false ->
  isLoading (snd (readLoop reads e acc s)) = isLoading s.
Proof.
  intros Hs. rewrite (readLoop_events JSON_parse toText reads e acc s Hs).
  cbn zeta. destruct (existsb isDone (events reads)); cbn [snd].
  - apply afterDone_isLoading.
  - now destruct e.
Qed.

(** X11.  The [finally] block runs on every path: after an upload the
    loading flag is cleared unless handsfree mode is on, in which case it
    is left as it was, whether the upload succeeded, failed, or ended
    without a sentinel. *)
Theorem transcription_loading_flag (res : response) (h : bool) (s : state) :
  isLoading (snd (sendAudioToAPI res h s))
  = if h then isLoading s else false.
Proof.
  unfold Transcribe.sendAudioToAPI, bind, set_emittedRef, tryCatchFinally.
  destruct res as [| ok body];
    [| destruct ok; [destruct body as [[reads e] |] |]]; cbn [negb].
  2: { pose proof (readLoop_isLoading reads e ([], None)
                     (mkState false (isLoading s) (emissions s)) eq_refl) as H.
       cbn [Transcribe.isLoading] in H.
       destruct (readLoop reads e _ _) as [[err | []] s1]; cbn [snd] in H;
         destruct h; cbn; trivial. }
  all: destruct h; reflexivity.
Qed.

Lemma events_app (a b : list jsstring) : events (a ++ b) = events a ++ events b.
Proof. unfold events. now rewrite flat_map_app, map_app. Qed.

(** X12.  The loop stops at the sentinel: nothing that follows it in the
    stream is read, neither further chunks nor the way the stream ends. *)
Theorem transcription_stops_at_sentinel (reads more : list jsstring)
  (e e' : ending) (h : bool) (s : state) :
  reachesDone reads = true ->
  emitted (Responds true (Some (reads ++ more, e))) h s
  = emitted (Responds true (Some (reads, e'))) h s.
Proof.
  intros Hd.
  rewrite (proj2 (emitted_cases JSON_parse toText
                    (Responds true (Some (reads ++ more, e))) h s)).
  rewrite (proj2 (emitted_cases JSON_parse toText
                    (Responds true (Some (reads, e'))) h s)).
  unfold reachesDone, Transcribe.transcript, Transcribe.usageSeen in *.
  rewrite events_app, existsb_app, beforeDone_app, Hd. reflexivity.
Qed.

Lemma splitOn_line_feed (sep : N) (a b cur : jsstring) :
  splitOn sep cur (a ++ sep :: b) = splitOn sep cur a ++ splitOn sep [] b.
Proof.
  revert cur; induction a as [| c a IH]; intros cur; cbn.
  - now rewrite N.eqb_refl.
  - destruct (c =? sep)%N; [now rewrite IH | apply IH].
Qed.

Lemma linesOf_line_feed (a b : jsstring) :
  linesOf (a ++ 10%N :: b) = linesOf a ++ linesOf b.
Proof. unfold linesOf. now rewrite splitOn_line_feed, List.filter_app. Qed.

(** X13.  Where the network cuts the stream does not matter as long as it
    cuts at line feeds: a chunk delivered as two reads, split at one of its
    line feeds, gives the same calls of [onNewTranscription]. *)
Theorem transcription_cut_at_line_feed (before after : list jsstring)
  (a b : jsstring) (e : ending) (h : bool) (s : state) :
  emitted (Responds true (Some (before ++ a :: b :: after, e))) h s
  = emitted
      (Responds true (Some (before ++ (a ++ 10%N :: b) :: after, e))) h s.
Proof.
  rewrite (proj2 (emitted_cases JSON_parse toText
                    (Responds true (Some (before ++ a :: b :: after, e))) h s)).
  rewrite (proj2 (emitted_cases JSON_parse toText
                    (Responds true
                       (Some (before ++ (a ++ 10%N :: b) :: after, e))) h s)).
  assert (E : events (before ++ a :: b :: after)
              = events (before ++ (a ++ 10%N :: b) :: after)).
  { unfold events. rewrite !flat_map_app. cbn [flat_map].
    now rewrite linesOf_line_feed, <- app_assoc. }
  unfold reachesDone, Transcribe.transcript, Transcribe.usageSeen.
  now rewrite E.
Qed.

End TranscribeMore.

Lemma transcription_stops_at_sentinel_witness :
  Transcribe.reachesDone [JsString.lit "data: [DONE]"] = true
  /\ Transcribe.emitted Transcribe.parseNothing Transcribe.textOfNothing
       (Transcribe.Responds true
          (Some ([JsString.lit "data: [DONE]"] ++ [JsString.lit "data: {}"],
                 Transcribe.ReadRejects)))
       true Transcribe.idle
     = Transcribe.emitted Transcribe.parseNothing Transcribe.textOfNothing
         (Transcribe.Responds true
            (Some ([JsString.lit "data: [DONE]"], Transcribe.EndOfStream)))
         true Transcribe.idle.
Proof.
  split; [reflexivity |].
  exact (transcription_stops_at_sentinel Transcribe.parseNothing
           Transcribe.textOfNothing [JsString.lit "data: [DONE]"]
           [JsString.lit "data: {}"] Transcribe.ReadRejects
           Transcribe.EndOfStream true Transcribe.idle eq_refl).
Defined.
(** ** Handsfree orchestrator: further properties *)

Section HandsfreeMore.

Import Handsfree HandsfreeProps.

Lemma detectorTracked_step (s : state) (e : event) :
  detectorTracked s = true -> detectorTracked (step s e) = true.
Proof.
  destruct s as [ha rec va ld pl hr lr pr sup arm stp blk mr acq tm ln rc].
  unfold detectorTracked. cbn [isVADActive vadStopRef vadArmedRef].
  destruct va, stp, arm; try discriminate; intros _;
    destruct e as [[|] | | | | | | | | [|] | |]; cbn;
    unfold setIsHandsfreeActive, onStart, guarded, stopRecordingAndSend,
      micAcquired, playHandsfree, handleTTSStart, handleTTSComplete, rearm,
      effects, blockEffect, startVADInternal, releaseVAD, stopTTS,
      recorderRecording; cbn;
    repeat match goal with
           | |- context [if ?b then _ else _] => destruct b
           | |- context [match ?x with O => _ | S _ => _ end] => destruct x
           | |- context [match ?x with Some _ => _ | None => _ end] =>
               destruct x
           | |- context [match ?x with Recording => _ | Inactive => _ end] =>
               destruct x
           end; reflexivity.
Qed.

(** X14.  Through any sequence of events from the mounted hook, the
    indicator [isVADActive] is on exactly when the hook holds the stop
    function of a detector, and it holds one only while the detector is
    marked as armed. *)
Theorem handsfree_indicator_tracks_detector (es : list event) :
  let s := run initial es in
  isVADActive s = vadStopRef s
  /\ implb (vadStopRef s) (vadArmedRef s) = true.
Proof.
  cbn zeta.
  assert (H : detectorTracked (run initial es) = true).
  { unfold run. rewrite <- fold_left_rev_right.
    induction (rev es) as [| e l IH]; [reflexivity |].
    cbn [fold_right]. now apply detectorTracked_step. }
  unfold detectorTracked in H. apply andb_prop in H as [H1 H2].
  split; [now apply eqb_prop | exact H2].
Qed.

Lemma off_step (s : state) (e : event) :
  keepsOff e = true -> isHandsfreeRef s = false ->
  isHandsfreeRef (step s e) = false /\ launched (step s e) = launched s.
Proof.
  destruct s as [ha rec va ld pl hr lr pr sup arm stp blk mr acq tm ln rc].
  cbn [isHandsfreeRef launched]. intros He ->.
  destruct e as [[|] | | | | | | | | [|] | |]; try discriminate He; cbn;
    unfold setIsHandsfreeActive, onStart, guarded, stopRecordingAndSend,
      micAcquired, playHandsfree, handleTTSStart, handleTTSComplete, rearm,
      effects, blockEffect, startVADInternal, releaseVAD, stopTTS,
      recorderRecording; cbn; rewrite ?orb_true_r; cbn;
    repeat match goal with
           | |- context [if ?b then _ else _] => destruct b
           | |- context [match ?x with O => _ | S _ => _ end] => destruct x
           | |- context [match ?x with Some _ => _ | None => _ end] =>
               destruct x
           | |- context [match ?x with Recording => _ | Inactive => _ end] =>
               destruct x
           end; split; reflexivity.
Qed.

(** X15.  While handsfree is off no speech start passes the guard: until
    handsfree is switched on, whatever else happens (detector callbacks,
    a late microphone, window events of the player, a late debounce), no
    microphone request is launched for a recording. *)
Theorem handsfree_off_drops_speech (s : state) (es : list event) :
  isHandsfreeRef s = false ->
  forallb keepsOff es = true ->
  launched (run s es) = launched s /\ isHandsfreeRef (run s es) = false.
Proof.
  revert s; induction es as [| e es IH]; intros s Hs Hes; [now split |].
  cbn [forallb] in Hes. apply andb_prop in Hes as [He Hes].
  destruct (off_step s e He Hs) as [H1 H2].
  change (run s (e :: es)) with (run (step s e) es).
  destruct (IH (step s e) H1 Hes) as [H3 H4].
  split; [congruence | exact H4].
Qed.

(** X16.  The debounce of "playback complete" is not cancelled by
    switching handsfree off: when the signal arrives while handsfree is
    active and handsfree is switched off before the timeout fires, the
    timeout still arms the detector, which then runs with handsfree off. *)
Theorem handsfree_late_debounce_arms (s : state) :
  isHandsfreeActive s = true ->
  let s' := run s [TtsOnComplete; SetHandsfree false; RearmTimer] in
  isHandsfreeActive s' = false /\ isHandsfreeRef s' = false
  /\ vadArmedRef s' = true /\ vadStopRef s' = true /\ isVADActive s' = true.
Proof.
  destruct s as [ha rec va ld pl hr lr pr sup arm stp blk mr acq tm ln rc].
  cbn [isHandsfreeActive]. intros ->. cbn.
  unfold setIsHandsfreeActive, handleTTSComplete; cbn.
  unfold recorderRecording, stopRecordingAndSend, rearm; cbn.
  destruct mr as [[|] |]; cbn; repeat split.
Qed.

(** X17.  Handsfree begins by listening: when nothing plays and no
    recording is shown as handsfree is switched on, a playback that starts
    before any recording is stopped by the commit that renders it, which
    also lifts the block and the suppression and leaves the detector marked
    as armed.  A playback that was already running, and rendered, when
    handsfree is switched on is not stopped: the effect does not run while
    its dependencies stay as they are, and the block stays pending. *)
Theorem handsfree_enable_cancels_playback (s : state) :
  (isRecording s = false -> isPlaying s = false ->
   let s' := run s [SetHandsfree true; Effects; PlayingChanged true;
                    Effects] in
   isPlaying s' = false /\ blockPlaybackUntilRecordingRef s' = false
   /\ suppressVADRef s' = false /\ vadArmedRef s' = true
   /\ isHandsfreeActive s' = true)
  /\ (isPlaying s = true -> renderedPlaying s = true ->
      renderedRecording s = isRecording s ->
      let s' := run s [SetHandsfree true; Effects] in
      isPlaying s' = true /\ blockPlaybackUntilRecordingRef s' = true).
Proof.
  destruct s as [ha rec va ld pl hr lr pr sup arm stp blk mr acq tm ln rc
                 rp rr rl].
  cbn [isRecording isPlaying renderedPlaying renderedRecording]. split.
  - intros -> ->. cbn. unfold setIsHandsfreeActive; cbn.
    destruct ha, arm, rp, rr, ld, rl; cbn; repeat split.
  - intros -> -> ->. cbn. unfold setIsHandsfreeActive; cbn.
    destruct ha, arm, rec, ld, rl; cbn; repeat split.
Qed.

(** X18.  A handsfree turn signals its completion twice, by the callback
    the chat hook passes and by the player's own "tts-oncomplete".  The
    second debounce finds the detector armed and changes nothing: two
    signals and their two timeouts leave the hook as one signal and its
    timeout do. *)
Theorem handsfree_second_debounce_idle (s : state) :
  isHandsfreeActive s = true ->
  run s [TtsOnComplete; TtsOnComplete; RearmTimer; RearmTimer]
  = run s [TtsOnComplete; RearmTimer].
Proof.
  destruct s as [ha rec va ld pl hr lr pr sup arm stp blk mr acq tm ln rc].
  cbn [isHandsfreeActive]. intros ->. cbn.
  unfold handleTTSComplete; cbn. unfold rearm; cbn.
  unfold startVADInternal; cbn. destruct arm; reflexivity.
Qed.

End HandsfreeMore.

Lemma handsfree_off_drops_speech_witness :
  Handsfree.isHandsfreeRef Handsfree.initial = false
  /\ forallb HandsfreeProps.keepsOff HandsfreeProps.offRun = true
  /\ Handsfree.launched (Handsfree.run Handsfree.initial HandsfreeProps.offRun)
     = Handsfree.launched Handsfree.initial
  /\ Handsfree.isHandsfreeRef
       (Handsfree.run Handsfree.initial HandsfreeProps.offRun) = false.
Proof.
  split; [reflexivity |]. split; [reflexivity |].
  exact (handsfree_off_drops_speech Handsfree.initial HandsfreeProps.offRun
           eq_refl eq_refl).
Defined.

Lemma handsfree_late_debounce_arms_witness :
  Handsfree.isHandsfreeActive Handsfree.replyReady = true
  /\ Handsfree.vadStopRef
       (Handsfree.run Handsfree.replyReady
          [Handsfree.TtsOnComplete; Handsfree.SetHandsfree false;
           Handsfree.RearmTimer]) = true.
Proof.
  split; [reflexivity |].
  exact (proj1 (proj2 (proj2 (proj2
    (handsfree_late_debounce_arms Handsfree.replyReady eq_refl))))).
Defined.

Lemma handsfree_enable_cancels_playback_witness :
  (Handsfree.isRecording Handsfree.initial = false
   /\ Handsfree.isPlaying Handsfree.initial = false
   /\ Handsfree.isPlaying
        (Handsfree.run Handsfree.initial
           [Handsfree.SetHandsfree true; Handsfree.Effects;
            Handsfree.PlayingChanged true; Handsfree.Effects]) = false)
  /\ (Handsfree.isPlaying HandsfreeProps.playingRendered = true
      /\ Handsfree.renderedPlaying HandsfreeProps.playingRendered = true
      /\ Handsfree.isPlaying
           (Handsfree.run HandsfreeProps.playingRendered
              [Handsfree.SetHandsfree true; Handsfree.Effects]) = true).
Proof.
  split.
  - split; [reflexivity |]. split; [reflexivity |].
    exact (proj1 (proj1 (handsfree_enable_cancels_playback Handsfree.initial)
                    eq_refl eq_refl)).
  - split; [reflexivity |]. split; [reflexivity |].
    exact (proj1 (proj2 (handsfree_enable_cancels_playback
                           HandsfreeProps.playingRendered)
                    eq_refl eq_refl eq_refl)).
Defined.

Lemma handsfree_second_debounce_idle_witness :
  Handsfree.isHandsfreeActive Handsfree.replyReady = true
  /\ Handsfree.run Handsfree.replyReady
       [Handsfree.TtsOnComplete; Handsfree.TtsOnComplete;
        Handsfree.RearmTimer; Handsfree.RearmTimer]
     = Handsfree.run Handsfree.replyReady
         [Handsfree.TtsOnComplete; Handsfree.RearmTimer].
Proof.
  split; [reflexivity |].
  exact (handsfree_second_debounce_idle Handsfree.replyReady eq_refl).
Defined.
(** ** TTS player: the queue is served in order where no stream is attached *)

Section PlayerFifo.

Import JsString TTSPlayer PlayerProps.

Lemma streamless_core (s s' : state) :
  core s' = core s -> streamless s -> streamless s'.
Proof.
  unfold core, streamless, fifo. intros E.
  injection E as -> -> -> -> -> ->. trivial.
Qed.

Lemma keeps_ret {A} (a : A) : keeps (ret a).
Proof. intros s H. exact H. Qed.

Lemma keeps_gets {A} (f : state -> A) : keeps (gets f).
Proof. intros s H. exact H. Qed.

Lemma keeps_bind {A B} (m : M A) (f : A -> M B) :
  keeps m -> (forall a, keeps (f a)) -> keeps (bind m f).
Proof.
  intros Hm Hf s H. unfold bind. specialize (Hm s H).
  destruct (m s) as [a s1]. now apply Hf.
Qed.

Lemma keeps_when (b : bool) (m : M unit) : keeps m -> keeps (when b m).
Proof. destruct b; [trivial | intros _; apply keeps_ret]. Qed.

Lemma keeps_modify (f : state -> state) :
  (forall s, core (f s) = core s) -> keeps (modify f).
Proof. intros Hf s H. exact (streamless_core s (f s) (Hf s) H). Qed.

Lemma startedOrder_app (a b : list obs) :
  startedOrder (a ++ b) = startedOrder a ++ startedOrder b.
Proof. apply omap_app. Qed.

Lemma enqueuedOrder_app (a b : list obs) :
  enqueuedOrder (a ++ b) = enqueuedOrder a ++ enqueuedOrder b.
Proof. apply omap_app. Qed.

Lemma keeps_emit (o : obs) : quietObs o = true -> keeps (emit o).
Proof.
  intros Ho [q dq cn ca ip cm cr hs mu sc nn pr mt pk tm tr].
  unfold streamless, fifo. cbn.
  rewrite startedOrder_app, enqueuedOrder_app.
  destruct o; try discriminate Ho; cbn; now rewrite !app_nil_r.
Qed.

Lemma keeps_queueMicrotask (k : kont) (v : value) :
  noPlayWait k = true -> keeps (queueMicrotask k v).
Proof.
  intros Hk [q dq cn ca ip cm cr hs mu sc nn pr mt pk tm tr].
  unfold streamless, fifo. cbn. intros (H1 & H2 & H3 & H4 & H5).
  repeat split; trivial. apply Forall_app. split; [exact H4 |].
  now repeat constructor.
Qed.

Lemma keeps_park (e : external) (k : kont) :
  noPlayWait k = true -> keeps (park e k).
Proof.
  intros Hk [q dq cn ca ip cm cr hs mu sc nn pr mt pk tm tr].
  unfold streamless, fifo. cbn. intros (H1 & H2 & H3 & H4 & H5).
  repeat split; trivial. apply Forall_app. split; [exact H5 |].
  now repeat constructor.
Qed.

Lemma keeps_setTimeout (t : timer) : keeps (setTimeout t).
Proof. apply keeps_modify. now intros []. Qed.

Lemma keeps_newPromise : keeps newPromise.
Proof.
  intros [q dq cn ca ip cm cr hs mu sc nn pr mt pk tm tr].
  unfold streamless, fifo. cbn. intros (H1 & H2 & H3 & H4 & H5).
  repeat split; trivial. apply Forall_app. split; [exact H3 |].
  now repeat constructor.
Qed.

Lemma keeps_resolve (p : nat) (v : value) : keeps (resolve p v).
Proof.
  intros [q dq cn ca ip cm cr hs mu sc nn pr mt pk tm tr].
  unfold streamless, fifo, resolve. cbn. intros (H1 & H2 & H3 & H4 & H5).
  destruct (pr !! p) as [[ws | w] |] eqn:E; cbn; repeat split; trivial.
  - apply Forall_insert; [exact H3 | constructor].
  - apply Forall_app. split; [exact H4 |].
    apply Forall_map. cbn.
    exact (proj1 (Forall_lookup _ _) H3 p (Pending ws) E).
Qed.

Lemma keeps_await (p : nat) (k : kont) :
  noPlayWait k = true -> keeps (await p k).
Proof.
  intros Hk s H. unfold await.
  destruct (promises s !! p) as [[ws | w] |] eqn:E; cbn; trivial.
  - destruct s as [q dq cn ca ip cm cr hs mu sc nn pr mt pk tm tr].
    unfold streamless, fifo in *. cbn in *.
    destruct H as (H1 & H2 & H3 & H4 & H5).
    repeat split; trivial.
    apply Forall_insert; [exact H3 |]. cbn.
    apply Forall_app. split; [| now repeat constructor].
    exact (proj1 (Forall_lookup _ _) H3 p (Pending ws) E).
  - now apply keeps_queueMicrotask.
Qed.

Ltac keeps_with known :=
  repeat first
    [ known
    | match goal with
      | |- keeps (ret _) => apply keeps_ret
      | |- keeps (gets _) => apply keeps_gets
      | |- keeps (when _ _) => apply keeps_when
      | |- keeps (emit _) => apply keeps_emit; reflexivity
      | |- keeps (queueMicrotask _ _) => apply keeps_queueMicrotask; reflexivity
      | |- keeps (park _ _) => apply keeps_park; reflexivity
      | |- keeps (await _ _) => apply keeps_await; reflexivity
      | |- keeps (setTimeout _) => apply keeps_setTimeout
      | |- keeps newPromise => apply keeps_newPromise
      | |- keeps (resolve _ _) => apply keeps_resolve
      | |- keeps (modify _) => apply keeps_modify; solve [now intros []]
      | |- keeps (bind _ _) => apply keeps_bind; [| intros ?]
      | |- keeps (if ?b then _ else _) => destruct b
      | |- keeps (match ?x with _ => _ end) => destruct x
      | |- keeps (let '(_, _) := ?x in _) => destruct x
      end ].

Ltac keeps_all := keeps_with fail.

Lemma keeps_resolved (v : value) : keeps (resolved v).
Proof. unfold resolved. keeps_all. Qed.

Lemma keeps_ensurePlaybackReady : keeps ensurePlaybackReady.
Proof.
  unfold ensurePlaybackReady, primePipeline.
  keeps_with ltac:(apply keeps_resolved).
Qed.

Lemma keeps_maybeStartNext : keeps maybeStartNext.
Proof.
  unfold maybeStartNext. keeps_with ltac:(apply keeps_ensurePlaybackReady).
Qed.

(** The push and its observation go together. *)
Lemma keeps_enqueueBuffer (item : QueueItem) : keeps (enqueueBuffer item).
Proof.
  intros s H. unfold enqueueBuffer.
  change (streamless (snd (bind maybeStartNext (fun _ => resolved VUnit)
            (snd (emit (Enqueued item)
               (snd (modify (fun s => set_playQueue (playQueue s ++ [item]) s)
                       s))))))).
  revert H. generalize s. clear s.
  intros [q dq cn ca ip cm cr hs mu sc nn pr mt pk tm tr] H.
  apply keeps_bind;
    [apply keeps_maybeStartNext | intros _; apply keeps_resolved |].
  revert H. unfold streamless, fifo, startedOrder, enqueuedOrder. cbn.
  rewrite !omap_app. cbn.
  intros (H1 & H2 & H3 & H4 & H5). repeat split; trivial.
  rewrite <- H2. now rewrite ?app_nil_r, <- ?app_assoc.
Qed.

Lemma keeps_onended (node : nat) (item : QueueItem) : keeps (onended node item).
Proof. unfold onended. keeps_all. Qed.

(** The shift and the start of the node go together: no stream, no wait
    for [el.play()]. *)
Lemma keeps_maybeStartNext_ready (ok : bool) : keeps (maybeStartNext_ready ok).
Proof.
  destruct ok; [| apply keeps_ret].
  intros [q dq cn ca ip cm cr hs mu sc nn pr mt pk tm tr].
  unfold streamless, fifo, startedOrder, enqueuedOrder.
  cbn [hasStream playQueue trace promises microtasks parked].
  intros (-> & H2 & H3 & H4 & H5).
  destruct q as [| item rest].
  - cbn. rewrite !omap_app. cbn. rewrite !app_nil_r.
    rewrite app_nil_r in H2. auto.
  - unfold maybeStartNext_ready, startNode, bind, modify, gets, emit, when,
      queueMicrotask. cbn.
    rewrite andb_false_r.
    destruct (bool_decide (cn = None)); cbn; rewrite !omap_app; cbn;
      rewrite <- H2, ?app_nil_r, <- ?app_assoc; repeat split; trivial.
    apply Forall_app. split; [exact H4 | now repeat constructor].
Qed.

Lemma keeps_fetchAndDecode (id chunk : nat) (key : string) (body : jsstring) :
  keeps (fetchAndDecode id chunk key body).
Proof.
  unfold fetchAndDecode, primePipeline.
  keeps_with ltac:(apply keeps_resolved).
Qed.

Lemma keeps_returned (c : call) (u : AudioUsage) : keeps (returned c u).
Proof. unfold returned. keeps_all. Qed.

Lemma keeps_playTTS (c : call) : keeps (playTTS c).
Proof.
  unfold playTTS.
  keeps_with ltac:(first [apply keeps_returned | apply keeps_ensurePlaybackReady]).
Qed.

Lemma keeps_playTTS_ready (c : call) (ok : bool) : keeps (playTTS_ready c ok).
Proof.
  unfold playTTS_ready, playTTS_chunks.
  keeps_with ltac:(first [apply keeps_returned | apply keeps_fetchAndDecode
                         | apply keeps_resolved]).
Qed.

Lemma keeps_playTTS_intro (c : call) (hasRemainder : bool) (remainderP : nat)
  (intro : option DecodedAudio) :
  keeps (playTTS_intro c hasRemainder remainderP intro).
Proof.
  unfold playTTS_intro.
  keeps_with ltac:(first [apply keeps_returned | apply keeps_enqueueBuffer]).
Qed.

Lemma keeps_playTTS_remainder (c : call) (intro : DecodedAudio)
  (remainderP : nat) (rem : option DecodedAudio) :
  keeps (playTTS_remainder c intro remainderP rem).
Proof.
  unfold playTTS_remainder.
  keeps_with ltac:(first [apply keeps_returned | apply keeps_enqueueBuffer]).
Qed.

Lemma keeps_resume (k : kont) (v : value) :
  noPlayWait k = true -> keeps (resume k v).
Proof.
  intros Hk. destruct k; try discriminate Hk; cbn [resume];
    keeps_with ltac:(idtac; match goal with
      | |- keeps maybeStartNext => apply keeps_maybeStartNext
      | |- keeps (maybeStartNext_ready _) => apply keeps_maybeStartNext_ready
      | |- keeps (playTTS_ready _ _) => apply keeps_playTTS_ready
      | |- keeps (playTTS_intro _ _ _ _) => apply keeps_playTTS_intro
      | |- keeps (playTTS_remainder _ _ _ _) => apply keeps_playTTS_remainder
      | |- keeps (returned _ _) => apply keeps_returned
      end).
Qed.

Lemma streamless_drain (fuel : nat) (s : state) :
  streamless s -> streamless (drain fuel s).
Proof.
  revert s; induction fuel as [| fuel IH]; intros s H; [exact H |].
  cbn [drain]. destruct (microtasks s) as [| [k v] rest] eqn:E; [exact H |].
  apply IH.
  destruct s as [q dq cn ca ip cm cr hs mu sc nn pr mt pk tm tr].
  cbn in E. subst mt.
  destruct H as (H1 & H2 & H3 & H4 & H5). cbn in H4.
  apply Forall_cons in H4 as [Hk H4].
  apply keeps_resume; [exact Hk |].
  unfold streamless, fifo in *. cbn in *. auto.
Qed.

Lemma unpark_clean (e : external) (l others : list (external * kont))
  (k : kont) :
  Forall (fun ek => noPlayWait (snd ek) = true) l ->
  unpark e l = Some (k, others) ->
  noPlayWait k = true
  /\ Forall (fun ek => noPlayWait (snd ek) = true) others.
Proof.
  revert others; induction l as [| [e' k'] l IH]; intros others H E;
    [discriminate |].
  apply Forall_cons in H as [Hk H]. cbn in E.
  destruct (external_eqb e' e).
  - injection E as <- <-. auto.
  - destruct (unpark e l) as [[k'' l''] |]; [| discriminate].
    injection E as <- <-. destruct (IH l'' H eq_refl) as [H1 H2].
    split; [exact H1 | now constructor].
Qed.

Lemma keeps_settle (e : external) (v : value) : keeps (settle e v).
Proof.
  intros s H. unfold settle, bind, gets.
  destruct (unpark e (parked s)) as [[k others] |] eqn:E; [| exact H].
  destruct (unpark_clean e (parked s) others k) as [Hk Ho];
    [apply H | exact E |].
  change (streamless
            (snd (bind (match e, v with
                        | ExtResume, VBool running =>
                            modify (set_ctxRunning running)
                        | _, _ => ret tt
                        end) (fun _ => queueMicrotask k v)
                   (set_parked others s)))).
  apply keeps_bind.
  - keeps_all.
  - intros _. now apply keeps_queueMicrotask.
  - destruct s as [q dq cn ca ip cm cr hs mu sc nn pr mt pk tm tr].
    unfold streamless, fifo in *. cbn in *. tauto.
Qed.

Lemma keeps_nodeEnds (node : nat) : keeps (nodeEnds node).
Proof. unfold nodeEnds. keeps_with ltac:(apply keeps_onended). Qed.

Lemma keeps_timerFires : keeps timerFires.
Proof. unfold timerFires. keeps_all. Qed.

Lemma keeps_callAll (cs : list call) : keeps (callAll cs).
Proof.
  induction cs as [| c cs IH]; cbn [callAll]; [apply keeps_ret |].
  apply keeps_bind; [apply keeps_playTTS | intros _; exact IH].
Qed.

Lemma streamless_step (s : state) (t : task) :
  streamless s -> streamless (step s t).
Proof.
  intros H. unfold step. apply streamless_drain.
  destruct t; cbn [handle];
    [apply keeps_callAll | apply keeps_settle | apply keeps_nodeEnds
    | apply keeps_timerFires]; exact H.
Qed.

(** X19.  Where the audio element carries no stream, the queue is served
    in order through any sequence of [playTTS] calls, answers of the
    browser, ends of nodes and timeouts: at any time the buffers started
    so far, followed by those still queued, are the buffers enqueued so
    far, in the order of their enqueuing. *)
Theorem player_fifo_without_stream (ts : list task) :
  let s := run (initial false) ts in
  startedOrder (trace s) ++ playQueue s = enqueuedOrder (trace s).
Proof.
  cbn zeta.
  assert (H : streamless (run (initial false) ts)).
  { unfold run. rewrite <- fold_left_rev_right.
    induction (rev ts) as [| t l IH]; cbn [fold_right].
    - unfold streamless, fifo. cbn. repeat split; constructor.
    - now apply streamless_step. }
  apply H.
Qed.

End PlayerFifo.
(** ** TTS player: no buffer is dropped or started twice *)

Section PlayerAccounts.

Import JsString TTSPlayer PlayerProps.

Lemma accounted_core (s s' : state) :
  core s' = core s -> accounted s -> accounted s'.
Proof.
  unfold core, accounted, awaitingPlay. intros E.
  injection E as _ -> -> -> -> ->. trivial.
Qed.

Lemma accounts_ret {A} (a : A) : accounts (ret a).
Proof. intros s H. exact H. Qed.

Lemma accounts_gets {A} (f : state -> A) : accounts (gets f).
Proof. intros s H. exact H. Qed.

Lemma accounts_bind {A B} (m : M A) (f : A -> M B) :
  accounts m -> (forall a, accounts (f a)) -> accounts (bind m f).
Proof.
  intros Hm Hf s H. unfold bind. specialize (Hm s H).
  destruct (m s) as [a s1]. now apply Hf.
Qed.

Lemma accounts_when (b : bool) (m : M unit) : accounts m -> accounts (when b m).
Proof. destruct b; [trivial | intros _; apply accounts_ret]. Qed.

Lemma accounts_modify (f : state -> state) :
  (forall s, core (f s) = core s) -> accounts (modify f).
Proof. intros Hf s H. exact (accounted_core s (f s) (Hf s) H). Qed.

Lemma noPlayWait_playWait (k : kont) : noPlayWait k = true -> playWait k = [].
Proof. now destruct k. Qed.

Lemma accounts_emit (o : obs) : quietObs o = true -> accounts (emit o).
Proof.
  intros Ho [q dq cn ca ip cm cr hs mu sc nn pr mt pk tm tr].
  unfold accounted, awaitingPlay, startedOrder, enqueuedOrder. cbn.
  rewrite !omap_app.
  destruct o; try discriminate Ho; cbn; now rewrite !app_nil_r.
Qed.

Lemma accounts_queueMicrotask (k : kont) (v : value) :
  noPlayWait k = true -> accounts (queueMicrotask k v).
Proof.
  intros Hk [q dq cn ca ip cm cr hs mu sc nn pr mt pk tm tr].
  unfold accounted, awaitingPlay. cbn.
  rewrite flat_map_app. cbn. rewrite (noPlayWait_playWait k Hk).
  now rewrite !app_nil_r.
Qed.

Lemma accounts_park (e : external) (k : kont) :
  noPlayWait k = true -> accounts (park e k).
Proof.
  intros Hk [q dq cn ca ip cm cr hs mu sc nn pr mt pk tm tr].
  unfold accounted, awaitingPlay. cbn.
  rewrite flat_map_app. cbn. rewrite (noPlayWait_playWait k Hk).
  now rewrite !app_nil_r.
Qed.

Lemma accounts_setTimeout (t : timer) : accounts (setTimeout t).
Proof. apply accounts_modify. now intros []. Qed.

Lemma accounts_newPromise : accounts newPromise.
Proof.
  intros [q dq cn ca ip cm cr hs mu sc nn pr mt pk tm tr].
  unfold accounted, awaitingPlay. cbn. intros [H1 H2].
  split; [exact H1 |]. apply Forall_app. split; [exact H2 |].
  now repeat constructor.
Qed.

Lemma clean_waiters (ws : list kont) (v : value) :
  Forall (fun k => noPlayWait k = true) ws ->
  flat_map (fun kv : kont * value => playWait (fst kv))
           (map (fun k => (k, v)) ws) = [].
Proof.
  induction 1 as [| k ws Hk _ IH]; [reflexivity |].
  cbn. now rewrite (noPlayWait_playWait k Hk), IH.
Qed.

Lemma accounts_resolve (p : nat) (v : value) : accounts (resolve p v).
Proof.
  intros [q dq cn ca ip cm cr hs mu sc nn pr mt pk tm tr].
  unfold accounted, awaitingPlay, resolve. cbn. intros [H1 H2].
  destruct (pr !! p) as [[ws | w] |] eqn:E; cbn; [| now split | now split].
  pose proof (proj1 (Forall_lookup _ _) H2 p (Pending ws) E) as Hws.
  cbn in Hws. split.
  - now rewrite flat_map_app, (clean_waiters ws v Hws), app_nil_r.
  - apply Forall_insert; [exact H2 | constructor].
Qed.

Lemma accounts_await (p : nat) (k : kont) :
  noPlayWait k = true -> accounts (await p k).
Proof.
  intros Hk s H. unfold await.
  destruct (promises s !! p) as [[ws | w] |] eqn:E; cbn; trivial.
  - destruct s as [q dq cn ca ip cm cr hs mu sc nn pr mt pk tm tr].
    unfold accounted, awaitingPlay in *. cbn in *.
    destruct H as [H1 H2]. split; [exact H1 |].
    apply Forall_insert; [exact H2 |]. cbn.
    apply Forall_app. split; [| now repeat constructor].
    exact (proj1 (Forall_lookup _ _) H2 p (Pending ws) E).
  - now apply accounts_queueMicrotask.
Qed.

Ltac accounts_with known :=
  repeat first
    [ known
    | match goal with
      | |- accounts (ret _) => apply accounts_ret
      | |- accounts (gets _) => apply accounts_gets
      | |- accounts (when _ _) => apply accounts_when
      | |- accounts (emit _) => apply accounts_emit; reflexivity
      | |- accounts (queueMicrotask _ _) =>
          apply accounts_queueMicrotask; reflexivity
      | |- accounts (park _ _) => apply accounts_park; reflexivity
      | |- accounts (await _ _) => apply accounts_await; reflexivity
      | |- accounts (setTimeout _) => apply accounts_setTimeout
      | |- accounts newPromise => apply accounts_newPromise
      | |- accounts (resolve _ _) => apply accounts_resolve
      | |- accounts (modify _) => apply accounts_modify; solve [now intros []]
      | |- accounts (bind _ _) => apply accounts_bind; [| intros ?]
      | |- accounts (if ?b then _ else _) => destruct b
      | |- accounts (match ?x with _ => _ end) => destruct x
      | |- accounts (let '(_, _) := ?x in _) => destruct x
      end ].

Ltac accounts_all := accounts_with fail.

Lemma accounts_resolved (v : value) : accounts (resolved v).
Proof. unfold resolved. accounts_all. Qed.

Lemma accounts_ensurePlaybackReady : accounts ensurePlaybackReady.
Proof.
  unfold ensurePlaybackReady, primePipeline.
  accounts_with ltac:(apply accounts_resolved).
Qed.

Lemma accounts_maybeStartNext : accounts maybeStartNext.
Proof.
  unfold maybeStartNext.
  accounts_with ltac:(apply accounts_ensurePlaybackReady).
Qed.

Lemma accounts_enqueueBuffer (item : QueueItem) : accounts (enqueueBuffer item).
Proof.
  intros s H. unfold enqueueBuffer.
  change (accounted (snd (bind maybeStartNext (fun _ => resolved VUnit)
            (snd (emit (Enqueued item)
               (snd (modify (fun s => set_playQueue (playQueue s ++ [item]) s)
                       s))))))).
  revert H. generalize s. clear s.
  intros [q dq cn ca ip cm cr hs mu sc nn pr mt pk tm tr] H.
  apply accounts_bind;
    [apply accounts_maybeStartNext | intros _; apply accounts_resolved |].
  revert H. unfold accounted, awaitingPlay, startedOrder, enqueuedOrder. cbn.
  rewrite !omap_app. cbn. intros [H1 H2]. split; [| exact H2].
  rewrite app_nil_r, <- H1, !app_assoc. reflexivity.
Qed.

Lemma accounts_onended (node : nat) (item : QueueItem) :
  accounts (onended node item).
Proof. unfold onended. accounts_all. Qed.

(** The start of a node that has been taken off the queue. *)
Lemma accounted_startNode (node : nat) (item : QueueItem) (wasIdle : bool)
  (s : state) (before : list QueueItem) :
  Permutation (startedOrder (trace s) ++ item :: before)
              (enqueuedOrder (trace s)) ->
  awaitingPlay s ++ playQueue s = before ->
  Forall (fun p => Forall (fun k => noPlayWait k = true) (waitersOf p))
         (promises s) ->
  accounted (snd (startNode node item wasIdle s)).
Proof.
  destruct s as [q dq cn ca ip cm cr hs mu sc nn pr mt pk tm tr].
  unfold accounted, awaitingPlay, startedOrder, enqueuedOrder. cbn.
  intros H1 <- H2.
  destruct wasIdle; cbn; rewrite !omap_app; cbn;
    rewrite ?flat_map_app; cbn; (split; [| exact H2]);
    rewrite <- H1; solve_Permutation.
Qed.

Lemma accounts_maybeStartNext_ready (ok : bool) :
  accounts (maybeStartNext_ready ok).
Proof.
  destruct ok; [| apply accounts_ret].
  intros [q dq cn ca ip cm cr hs mu sc nn pr mt pk tm tr].
  unfold accounted, awaitingPlay, startedOrder, enqueuedOrder.
  cbn [playQueue trace promises microtasks parked].
  intros [H1 H2].
  destruct q as [| item rest].
  - cbn. rewrite !omap_app. cbn. rewrite !app_nil_r in *.
    split; [exact H1 | exact H2].
  - unfold maybeStartNext_ready, startNode, bind, modify, gets, emit, when,
      queueMicrotask, park. cbn.
    destruct (bool_decide (cn = None)), hs; cbn;
      rewrite ?omap_app; cbn; rewrite ?flat_map_app; cbn;
      (split; [| exact H2]); rewrite <- H1; solve_Permutation.
Qed.

Lemma accounts_fetchAndDecode (id chunk : nat) (key : string)
  (body : jsstring) :
  accounts (fetchAndDecode id chunk key body).
Proof.
  unfold fetchAndDecode, primePipeline.
  accounts_with ltac:(apply accounts_resolved).
Qed.

Lemma accounts_returned (c : call) (u : AudioUsage) : accounts (returned c u).
Proof. unfold returned. accounts_all. Qed.

Lemma accounts_playTTS (c : call) : accounts (playTTS c).
Proof.
  unfold playTTS.
  accounts_with ltac:(first [apply accounts_returned
                            | apply accounts_ensurePlaybackReady]).
Qed.

Lemma accounts_playTTS_ready (c : call) (ok : bool) :
  accounts (playTTS_ready c ok).
Proof.
  unfold playTTS_ready, playTTS_chunks.
  accounts_with ltac:(first [apply accounts_returned
                            | apply accounts_fetchAndDecode
                            | apply accounts_resolved]).
Qed.

Lemma accounts_playTTS_intro (c : call) (hasRemainder : bool)
  (remainderP : nat) (intro : option DecodedAudio) :
  accounts (playTTS_intro c hasRemainder remainderP intro).
Proof.
  unfold playTTS_intro.
  accounts_with ltac:(first [apply accounts_returned
                            | apply accounts_enqueueBuffer]).
Qed.

Lemma accounts_playTTS_remainder (c : call) (intro : DecodedAudio)
  (remainderP : nat) (rem : option DecodedAudio) :
  accounts (playTTS_remainder c intro remainderP rem).
Proof.
  unfold playTTS_remainder.
  accounts_with ltac:(first [apply accounts_returned
                            | apply accounts_enqueueBuffer]).
Qed.

Lemma accounts_resume (k : kont) (v : value) :
  noPlayWait k = true -> accounts (resume k v).
Proof.
  intros Hk. destruct k; try discriminate Hk; cbn [resume];
    accounts_with ltac:(idtac; match goal with
      | |- accounts maybeStartNext => apply accounts_maybeStartNext
      | |- accounts (maybeStartNext_ready _) =>
          apply accounts_maybeStartNext_ready
      | |- accounts (playTTS_ready _ _) => apply accounts_playTTS_ready
      | |- accounts (playTTS_intro _ _ _ _) => apply accounts_playTTS_intro
      | |- accounts (playTTS_remainder _ _ _ _) =>
          apply accounts_playTTS_remainder
      | |- accounts (returned _ _) => apply accounts_returned
      end).
Qed.

(** One job of the checkpoint: a job that waited for [el.play()] starts
    its buffer, any other keeps the account. *)
Lemma accounted_job (k : kont) (v : value) (rest : list (kont * value))
  (s : state) :
  microtasks s = (k, v) :: rest ->
  accounted s ->
  accounted (snd (resume k v (set_microtasks rest s))).
Proof.
  intros E [H1 H2]. destruct (noPlayWait k) eqn:Hk.
  - apply accounts_resume; [exact Hk |].
    destruct s as [q dq cn ca ip cm cr hs mu sc nn pr mt pk tm tr].
    cbn in E. subst mt. unfold accounted, awaitingPlay in *. cbn in *.
    rewrite (noPlayWait_playWait k Hk) in H1. auto.
  - destruct k; try discriminate Hk. cbn [resume].
    destruct s as [q dq cn ca ip cm cr hs mu sc nn pr mt pk tm tr].
    cbn in E. subst mt.
    apply (accounted_startNode node item true _
             (awaitingPlay (set_microtasks rest
                (mkState q dq cn ca ip cm cr hs mu sc nn pr
                   ((K_next_played node item, v) :: rest) pk tm tr))
              ++ q)); [| reflexivity | exact H2].
    unfold awaitingPlay in *. cbn in *. rewrite <- H1. solve_Permutation.
Qed.

Lemma accounted_drain (fuel : nat) (s : state) :
  accounted s -> accounted (drain fuel s).
Proof.
  revert s; induction fuel as [| fuel IH]; intros s H; [exact H |].
  cbn [drain]. destruct (microtasks s) as [| [k v] rest] eqn:E; [exact H |].
  apply IH. now apply accounted_job.
Qed.

Lemma unpark_account (e : external) (l others : list (external * kont))
  (k : kont) :
  unpark e l = Some (k, others) ->
  Permutation (flat_map (fun ek => playWait (snd ek)) l)
              (playWait k ++ flat_map (fun ek => playWait (snd ek)) others).
Proof.
  revert others; induction l as [| [e' k'] l IH]; intros others E;
    [discriminate |].
  cbn in E. destruct (external_eqb e' e).
  - injection E as <- <-. reflexivity.
  - destruct (unpark e l) as [[k'' l''] |]; [| discriminate].
    injection E as <- <-. cbn. rewrite (IH l'' eq_refl). solve_Permutation.
Qed.

Lemma accounts_settle (e : external) (v : value) : accounts (settle e v).
Proof.
  intros s H. unfold settle, bind, gets.
  destruct (unpark e (parked s)) as [[k others] |] eqn:E; [| exact H].
  pose proof (unpark_account e (parked s) others k E) as P.
  destruct s as [q dq cn ca ip cm cr hs mu sc nn pr mt pk tm tr].
  destruct H as [H1 H2].
  unfold accounted, awaitingPlay in *. cbn in *.
  assert (G : Permutation
                (startedOrder tr
                 ++ (flat_map (fun kv : kont * value => playWait (fst kv))
                              (mt ++ [(k, v)])
                     ++ flat_map (fun ek : external * kont => playWait (snd ek))
                                 others) ++ q)
                (enqueuedOrder tr)).
  { rewrite <- H1, flat_map_app, P. cbn. solve_Permutation. }
  destruct e, v; cbn; split; trivial.
Qed.

Lemma accounts_nodeEnds (node : nat) : accounts (nodeEnds node).
Proof. unfold nodeEnds. accounts_with ltac:(apply accounts_onended). Qed.

Lemma accounts_timerFires : accounts timerFires.
Proof. unfold timerFires. accounts_all. Qed.

Lemma accounts_callAll (cs : list call) : accounts (callAll cs).
Proof.
  induction cs as [| c cs IH]; cbn [callAll]; [apply accounts_ret |].
  apply accounts_bind; [apply accounts_playTTS | intros _; exact IH].
Qed.

Lemma accounted_step (s : state) (t : task) :
  accounted s -> accounted (step s t).
Proof.
  intros H. unfold step. apply accounted_drain.
  destruct t; cbn [handle];
    [apply accounts_callAll | apply accounts_settle | apply accounts_nodeEnds
    | apply accounts_timerFires]; exact H.
Qed.

(** X20.  On any platform, through any sequence of [playTTS] calls,
    answers of the browser, ends of nodes and timeouts, no buffer is
    dropped and none is started twice: the buffers started so far, those
    taken off the queue that wait for [el.play()], and those still queued
    are together the buffers enqueued so far. *)
Theorem player_buffers_accounted (stream : bool) (ts : list task) :
  let s := run (initial stream) ts in
  Permutation (startedOrder (trace s) ++ awaitingPlay s ++ playQueue s)
              (enqueuedOrder (trace s)).
Proof.
  cbn zeta.
  assert (H : accounted (run (initial stream) ts)).
  { unfold run. rewrite <- fold_left_rev_right.
    induction (rev ts) as [| t l IH]; cbn [fold_right].
    - unfold accounted, awaitingPlay. cbn. split; constructor.
    - now apply accounted_step. }
  apply H.
Qed.

End PlayerAccounts.
(** ** TTS player: whole turns *)

Section PlayerTurnFacts.

Import JsString TTSPlayer Scenarios PlayerTurns.

Ltac first_call H :=
  unfold run; cbn [fold_left app];
  match goal with
  | |- context [step (initial ?st) (Calls [?c])] =>
      match type of H with
      | _ = (?i, ?r) => rewrite (step_first_call st c i r H)
      end
  end.

(** X21.  A turn of two chunks, both fetched: whichever request is
    answered first, the intro is queued and started before the remainder,
    one node is scheduled at a time, and the completion callback and the
    "tts-oncomplete" of a handsfree turn come once, after the remainder has
    ended, neither after the intro. *)
Theorem player_two_chunk_turn
  (m : string) (t i r : jsstring) (h : bool) (cb : option string)
  (b1 b2 : AudioBuffer) (u1 u2 : AudioUsage) (stream : bool) :
  Chunker.chunkTextForTTS t = (i, Some r) ->
  let c := mkCall 0 m t h cb in
  let intro := Settles (ExtFetch 0 0) (VDecoded (Some (mkDecoded b1 u1))) in
  let remainder := Settles (ExtFetch 0 1) (VDecoded (Some (mkDecoded b2 u2))) in
  twoChunkTurn m i r b1 b2 h cb
    (run (initial stream) ([Calls [c]; intro; remainder] ++ bothPlay stream))
  /\ twoChunkTurn m i r b1 b2 h cb
    (run (initial stream) ([Calls [c]; remainder; intro] ++ bothPlay stream)).
Proof.
  intros H c intro remainder. subst c intro remainder.
  destruct stream, h, cb as [cb |], u1 as [u1 |], u2 as [u2 |];
    unfold twoChunkTurn, atRest, bothPlay, elementPlays; first_call H;
    lazy -[JsNumber.round PrimFloat.add PrimFloat.div String.append];
    repeat split.
Qed.

(** X22.  A turn of one chunk: one request, one item queued as the last
    chunk with the handsfree flag and the callback of the call, the
    completion signals once after its end, and the usage of the chunk
    returned with zero added to its cost and character count. *)
Theorem player_one_chunk_turn
  (m : string) (t i : jsstring) (h : bool) (cb : option string)
  (b : AudioBuffer) (u : AudioUsage) (stream : bool) :
  Chunker.chunkTextForTTS t = (i, None) ->
  let c := mkCall 0 m t h cb in
  let answer := Settles (ExtFetch 0 0) (VDecoded (Some (mkDecoded b u))) in
  oneChunkTurn m i b u h cb
    (run (initial stream) ([Calls [c]; answer] ++ onePlays stream)).
Proof.
  intros H c answer. subst c answer.
  destruct stream, h, cb as [cb |], u as [u |];
    unfold oneChunkTurn, atRest, onePlays, elementPlays; first_call H;
    lazy -[JsNumber.round PrimFloat.add PrimFloat.div String.append];
    repeat split.
Qed.

(** X23.  When the intro cannot be fetched the turn is silent: nothing is
    queued or started and no completion is signalled, not even the
    "tts-oncomplete" of a handsfree turn; however the request for the
    remainder settles, and whether it settles first or last.  Where the
    intro request is answered without audio the call returns [null]; where
    it is rejected [playTTS] throws and returns nothing. *)
Theorem player_intro_failure
  (m : string) (t i : jsstring) (r : option jsstring) (h : bool)
  (cb : option string) (v : value) (stream : bool) :
  Chunker.chunkTextForTTS t = (i, r) ->
  let c := mkCall 0 m t h cb in
  let failure := Settles (ExtFetch 0 0) (VDecoded None) in
  let rejection := Settles (ExtFetch 0 0) VRejected in
  (silentTurn false
     (run (initial stream) ([Calls [c]; failure] ++ remainderSettles r v))
   /\ silentTurn false
     (run (initial stream) ([Calls [c]] ++ remainderSettles r v ++ [failure])))
  /\ (silentTurn true
        (run (initial stream) ([Calls [c]; rejection] ++ remainderSettles r v))
      /\ silentTurn true
        (run (initial stream) ([Calls [c]] ++ remainderSettles r v ++ [rejection]))).
Proof.
  intros H c failure rejection. subst c failure rejection.
  destruct stream, h, cb as [cb |], r as [r |],
           v as [| ok | [[b2 [u2 |]] |] |];
    unfold silentTurn, atRest, remainderSettles; first_call H;
    lazy -[JsNumber.round PrimFloat.add PrimFloat.div String.append];
    repeat split.
Qed.

(** X24.  When the audio context is suspended and cannot be resumed, a
    call returns [null] without a request to the TTS endpoint and without
    reading the text. *)
Theorem player_context_suspended (c : call) (stream : bool) :
  trace (run (suspended stream) [Calls [c]; Settles ExtResume (VBool false)])
  = [Returned (callId c) None].
Proof. destruct stream, c as [id m t h cb]; reflexivity. Qed.

Lemma eqb_append (m a b : string) :
  String.eqb (m +:+ a) (m +:+ b) = String.eqb a b.
Proof.
  induction m as [| c m IH]; [reflexivity |].
  change (String.eqb (String c (m +:+ a)) (String c (m +:+ b))
          = String.eqb a b).
  cbn [String.eqb]. now rewrite Ascii.eqb_refl.
Qed.

(** A call made while nothing waits in the microtask queue, once the
    chunks of its text are known. *)
Lemma step_call (s : state) (c : call) (i : jsstring) (r : option jsstring)
  (rest : list (kont * value)) :
  microtasks (drain 1 (snd (handle (Calls [c]) s)))
  = (K_play_ready c, VBool true) :: rest ->
  Chunker.chunkTextForTTS c.(text) = (i, r) ->
  step s (Calls [c])
  = drain 62 (snd (playTTS_chunks c i r
       (set_microtasks rest (drain 1 (snd (handle (Calls [c]) s)))))).
Proof.
  intros E H. unfold step, checkpointFuel.
  change 64%nat with (1 + 63)%nat. rewrite drain_plus.
  now rewrite (drain_play_ready 62 c _ rest i r E H).
Qed.

Lemma resolved_cache (v : value) (s : state) :
  audioBufferCache (snd (resolved v s)) = audioBufferCache s.
Proof.
  destruct s as [q dq cn ca ip cm cr hs mu sc nn pr mt pk tm tr].
  unfold resolved, bind, newPromise, resolve, ret. cbn.
  now destruct (_ !! _) as [[|] |].
Qed.

(** Both chunks are in the cache: no request is prepared. *)
Lemma playTTS_chunks_cached (c : call) (i r : jsstring) (b1 b2 : AudioBuffer)
  (s : state) :
  cacheLookup (c.(messageId) +:+ "-0") (audioBufferCache s) = Some b1 ->
  cacheLookup (c.(messageId) +:+ "-1") (audioBufferCache s) = Some b2 ->
  playTTS_chunks c i (Some r) s
  = (let* introP := resolved (VDecoded (Some (mkDecoded b1 None))) in
     let* remainderP := resolved (VDecoded (Some (mkDecoded b2 None))) in
     await introP (K_play_intro c true remainderP)) s.
Proof.
  intros H1 H2. unfold playTTS_chunks, fetchAndDecode, bind, gets.
  rewrite H1.
  pose proof (resolved_cache (VDecoded (Some (mkDecoded b1 None))) s) as E1.
  destruct (resolved _ s) as [p s1]. cbn [snd] in E1.
  rewrite E1, H2. reflexivity.
Qed.

(** X25.  A replay of a turn of two chunks that has been played: both
    buffers come from the cache and no request is made; the call returns
    [null], no usage being known for a cached buffer; the chunks are
    queued and started in order, one node at a time. *)
Theorem player_replay_from_cache
  (m : string) (t i r : jsstring) (h h' : bool) (cb cb' : option string)
  (b1 b2 : AudioBuffer) (u1 u2 : AudioUsage) (stream : bool) :
  Chunker.chunkTextForTTS t = (i, Some r) ->
  let intro := Settles (ExtFetch 0 0) (VDecoded (Some (mkDecoded b1 u1))) in
  let remainder := Settles (ExtFetch 0 1) (VDecoded (Some (mkDecoded b2 u2))) in
  let played := [Calls [mkCall 0 m t h cb]; intro; remainder] ++ bothPlay stream in
  let s := run (initial stream)
             (played ++ [Calls [mkCall 1 m t h' cb']] ++ replayPlays stream) in
  posted (trace s) = [(m +:+ "-0", i); (m +:+ "-1", r)]
  /\ returnedWith 1 s = [None]
  /\ skipn 2 (enqueuedOrder (trace s)) = [introItem m b1; lastItem m b2 h' cb']
  /\ skipn 2 (startedOrder (trace s)) = [introItem m b1; lastItem m b2 h' cb']
  /\ peakScheduled (trace s) = 1%nat
  /\ atRest s.
Proof.
  intros H intro remainder played s. subst intro remainder played s.
  destruct stream, h, cb as [cb |], h', cb' as [cb' |];
    unfold bothPlay, replayPlays, elementPlays, atRest; first_call H;
    (erewrite (step_call _ (mkCall 1 m t _ _) i (Some r));
     [| lazy -[String.append]; reflexivity | exact H]);
    (rewrite (playTTS_chunks_cached _ i r b1 b2);
     [| lazy -[String.append String.eqb]; rewrite !eqb_append; reflexivity
      | lazy -[String.append String.eqb]; rewrite !eqb_append; reflexivity]);
    lazy -[JsNumber.round PrimFloat.add PrimFloat.div String.append];
    repeat split.
Qed.

End PlayerTurnFacts.

Lemma player_two_chunk_turn_witness :
  Chunker.chunkTextForTTS Scenarios.longReply
  = (JsString.lit "This is the first sentence of a long reply.",
     Some (JsString.lit "And here is the second sentence, which makes the text long enough."))
  /\ PlayerTurns.twoChunkTurn "A"
       (JsString.lit "This is the first sentence of a long reply.")
       (JsString.lit "And here is the second sentence, which makes the text long enough.")
       (TTSPlayer.Buffer "A-0") (TTSPlayer.Buffer "A-1") true (Some "onComplete")
       (TTSPlayer.run (TTSPlayer.initial true)
          ([TTSPlayer.Calls
              [TTSPlayer.mkCall 0 "A" Scenarios.longReply true (Some "onComplete")];
            TTSPlayer.Settles (TTSPlayer.ExtFetch 0 1)
              (TTSPlayer.VDecoded
                 (Some (TTSPlayer.mkDecoded (TTSPlayer.Buffer "A-1")
                          (Some Scenarios.remainderUsage))));
            TTSPlayer.Settles (TTSPlayer.ExtFetch 0 0)
              (TTSPlayer.VDecoded
                 (Some (TTSPlayer.mkDecoded (TTSPlayer.Buffer "A-0")
                          (Some Scenarios.introUsage))))]
           ++ PlayerTurns.bothPlay true)).
Proof.
  split; [reflexivity |].
  exact (proj2 (player_two_chunk_turn "A" Scenarios.longReply _ _ true
                  (Some "onComplete") (TTSPlayer.Buffer "A-0")
                  (TTSPlayer.Buffer "A-1") (Some Scenarios.introUsage)
                  (Some Scenarios.remainderUsage) true eq_refl)).
Defined.

Lemma player_one_chunk_turn_witness :
  Chunker.chunkTextForTTS Scenarios.textA = (Scenarios.textA, None)
  /\ PlayerTurns.oneChunkTurn "A" Scenarios.textA Scenarios.bufferA None true
       (Some "onComplete")
       (TTSPlayer.run (TTSPlayer.initial false)
          ([TTSPlayer.Calls
              [TTSPlayer.mkCall 0 "A" Scenarios.textA true (Some "onComplete")];
            TTSPlayer.Settles (TTSPlayer.ExtFetch 0 0)
              (TTSPlayer.VDecoded
                 (Some (TTSPlayer.mkDecoded Scenarios.bufferA None)))]
           ++ PlayerTurns.onePlays false)).
Proof.
  split; [reflexivity |].
  exact (player_one_chunk_turn "A" Scenarios.textA _ true (Some "onComplete")
           Scenarios.bufferA None false eq_refl).
Defined.

Lemma player_intro_failure_witness :
  Chunker.chunkTextForTTS Scenarios.longReply
  = (JsString.lit "This is the first sentence of a long reply.",
     Some (JsString.lit "And here is the second sentence, which makes the text long enough."))
  /\ PlayerTurns.silentTurn false
       (TTSPlayer.run (TTSPlayer.initial false)
          ([TTSPlayer.Calls
              [TTSPlayer.mkCall 0 "A" Scenarios.longReply true (Some "onComplete")];
            TTSPlayer.Settles (TTSPlayer.ExtFetch 0 0) (TTSPlayer.VDecoded None)]
           ++ PlayerTurns.remainderSettles
                (Some (JsString.lit "And here is the second sentence, which makes the text long enough."))
                (TTSPlayer.VDecoded None)))
  /\ PlayerTurns.silentTurn true
       (TTSPlayer.run (TTSPlayer.initial false)
          ([TTSPlayer.Calls
              [TTSPlayer.mkCall 0 "A" Scenarios.longReply true (Some "onComplete")];
            TTSPlayer.Settles (TTSPlayer.ExtFetch 0 0) TTSPlayer.VRejected]
           ++ PlayerTurns.remainderSettles
                (Some (JsString.lit "And here is the second sentence, which makes the text long enough."))
                (TTSPlayer.VDecoded None))).
Proof.
  split; [reflexivity |].
  pose proof (player_intro_failure "A" Scenarios.longReply _ _ true
                (Some "onComplete") (TTSPlayer.VDecoded None) false eq_refl)
    as [[H1 _] [H2 _]].
  split; [exact H1 | exact H2].
Defined.

Lemma player_replay_from_cache_witness :
  Chunker.chunkTextForTTS Scenarios.longReply
  = (JsString.lit "This is the first sentence of a long reply.",
     Some (JsString.lit "And here is the second sentence, which makes the text long enough."))
  /\ TTSPlayer.returnedWith 1
       (TTSPlayer.run (TTSPlayer.initial false)
          (([TTSPlayer.Calls
               [TTSPlayer.mkCall 0 "A" Scenarios.longReply false None];
             TTSPlayer.Settles (TTSPlayer.ExtFetch 0 0)
               (TTSPlayer.VDecoded
                  (Some (TTSPlayer.mkDecoded (TTSPlayer.Buffer "A-0")
                           (Some Scenarios.introUsage))));
             TTSPlayer.Settles (TTSPlayer.ExtFetch 0 1)
               (TTSPlayer.VDecoded
                  (Some (TTSPlayer.mkDecoded (TTSPlayer.Buffer "A-1")
                           (Some Scenarios.remainderUsage))))]
            ++ PlayerTurns.bothPlay false)
           ++ [TTSPlayer.Calls
                 [TTSPlayer.mkCall 1 "A" Scenarios.longReply false None]]
           ++ PlayerTurns.replayPlays false))
     = [None].
Proof.
  split; [reflexivity |].
  exact (proj1 (proj2
    (player_replay_from_cache "A" Scenarios.longReply _ _ false false None None
       (TTSPlayer.Buffer "A-0") (TTSPlayer.Buffer "A-1")
       (Some Scenarios.introUsage) (Some Scenarios.remainderUsage) false
       eq_refl))).
Defined.
(** ** TTS player: stopping *)

Section PlayerStopFacts.

Import JsString TTSPlayer Scenarios PlayerTurns PlayerStop.

Ltac first_call H :=
  unfold run; cbn [fold_left app];
  match goal with
  | |- context [step (initial ?st) (Calls [?c])] =>
      match type of H with
      | _ = (?i, ?r) => rewrite (step_first_call st c i r H)
      end
  end.

(** X26.  [stopTTS] while the intro of a turn of two chunks is playing.
    When the remainder is already queued it is dropped, and the turn ends
    without any completion signal: the intro carries neither the callback
    nor the handsfree flag.  When the remainder is still being fetched the
    request is not cancelled: the remainder that arrives after the stop is
    queued and played, and the completion signals follow its end. *)
Theorem player_stop_during_intro
  (m : string) (t i r : jsstring) (h : bool) (cb : option string)
  (b1 b2 : AudioBuffer) (u1 u2 : AudioUsage) (stream : bool) :
  Chunker.chunkTextForTTS t = (i, Some r) ->
  let c := mkCall 0 m t h cb in
  let remainder := Settles (ExtFetch 0 1) (VDecoded (Some (mkDecoded b2 u2))) in
  let queued :=
    run (stopped (run (initial stream)
                    ([Calls [c];
                      Settles (ExtFetch 0 0) (VDecoded (Some (mkDecoded b1 u1)));
                      remainder] ++ elementPlays stream)))
        stoppedNodeEnds in
  let late :=
    run (stopped (run (initial stream)
                    (firstPlaying stream c (mkDecoded b1 u1))))
        (stoppedNodeEnds ++ lateRemainder stream (mkDecoded b2 u2)) in
  (enqueuedOrder (trace queued) = [introItem m b1; lastItem m b2 h cb]
   /\ startedOrder (trace queued) = [introItem m b1]
   /\ completions (trace queued) = []
   /\ atRest queued)
  /\ (startedOrder (trace late) = [introItem m b1; lastItem m b2 h cb]
      /\ completionsAround 1 (trace late) = Some ([], owed h cb)
      /\ atRest late).
Proof.
  intros H c remainder queued late. subst c remainder queued late.
  destruct stream, h, cb as [cb |];
    unfold atRest, stoppedNodeEnds, lateRemainder, firstPlaying, elementPlays,
      stopped;
    first_call H;
    lazy -[JsNumber.round PrimFloat.add PrimFloat.div String.append];
    repeat split.
Qed.

(** X27.  [stopTTS] while the last chunk of a turn is playing: the stopped
    node still ends, and its end signals the completion of the turn as if
    the chunk had played through. *)
Theorem player_stop_during_last_chunk
  (m : string) (t i : jsstring) (h : bool) (cb : option string)
  (b : AudioBuffer) (u : AudioUsage) (stream : bool) :
  Chunker.chunkTextForTTS t = (i, None) ->
  let c := mkCall 0 m t h cb in
  let s := run (stopped (run (initial stream)
                           (firstPlaying stream c (mkDecoded b u))))
               stoppedNodeEnds in
  startedOrder (trace s) = [lastItem m b h cb]
  /\ completionsAround 0 (trace s) = Some ([], owed h cb)
  /\ atRest s.
Proof.
  intros H c s. subst c s.
  destruct stream, h, cb as [cb |];
    unfold atRest, stoppedNodeEnds, firstPlaying, elementPlays, stopped;
    first_call H;
    lazy -[JsNumber.round PrimFloat.add PrimFloat.div String.append];
    repeat split.
Qed.

End PlayerStopFacts.

Lemma player_stop_during_intro_witness :
  Chunker.chunkTextForTTS Scenarios.longReply
  = (JsString.lit "This is the first sentence of a long reply.",
     Some (JsString.lit "And here is the second sentence, which makes the text long enough."))
  /\ PlayerTurns.completions
       (TTSPlayer.trace
          (TTSPlayer.run
             (PlayerStop.stopped
                (TTSPlayer.run (TTSPlayer.initial false)
                   ([TTSPlayer.Calls
                       [TTSPlayer.mkCall 0 "A" Scenarios.longReply true
                          (Some "onComplete")];
                     TTSPlayer.Settles (TTSPlayer.ExtFetch 0 0)
                       (TTSPlayer.VDecoded
                          (Some (TTSPlayer.mkDecoded (TTSPlayer.Buffer "A-0") None)));
                     TTSPlayer.Settles (TTSPlayer.ExtFetch 0 1)
                       (TTSPlayer.VDecoded
                          (Some (TTSPlayer.mkDecoded (TTSPlayer.Buffer "A-1") None)))]
                    ++ PlayerTurns.elementPlays false)))
             PlayerStop.stoppedNodeEnds))
     = [].
Proof.
  split; [reflexivity |].
  exact (proj1 (proj2 (proj2 (proj1
    (player_stop_during_intro "A" Scenarios.longReply _ _ true
       (Some "onComplete") (TTSPlayer.Buffer "A-0") (TTSPlayer.Buffer "A-1")
       None None false eq_refl))))).
Defined.

Lemma player_stop_during_last_chunk_witness :
  Chunker.chunkTextForTTS Scenarios.textA = (Scenarios.textA, None)
  /\ PlayerTurns.completionsAround 0
       (TTSPlayer.trace
          (TTSPlayer.run
             (PlayerStop.stopped
                (TTSPlayer.run (TTSPlayer.initial false)
                   (PlayerStop.firstPlaying false
                      (TTSPlayer.mkCall 0 "A" Scenarios.textA true
                         (Some "onComplete"))
                      (TTSPlayer.mkDecoded Scenarios.bufferA None))))
             PlayerStop.stoppedNodeEnds))
     = Some ([], PlayerTurns.owed true (Some "onComplete")).
Proof.
  split; [reflexivity |].
  exact (proj1 (proj2
    (player_stop_during_last_chunk "A" Scenarios.textA _ true
       (Some "onComplete") Scenarios.bufferA None false eq_refl))).
Defined.
